(** * Buddy: a fixed-range power-of-two allocator over [sbrk]

    Shallow embedding of [BuddyAllocator.hpp] (namespace [Buddy]) and the
    properties of [Allocator::allocate] and [Allocator::deallocate].

    - Pointers and [std::uintptr_t] values are integers in [0, 2^64), with
      the wrap-around written out where the code computes on them.
    - The free lists are intrusive.  [fList[l].next] is the head word of
      level [l]; the [next] word of a free block lives in the block itself
      and is modelled as the heap word at the block's address.  Blocks are
      at least [minSize] bytes long, so in the states the allocator reaches
      two different block addresses never share that word.
    - [sbrk] is the POSIX primitive: it returns the previous program break
      and moves it, or returns [(void* )-1] when the break cannot move.
      The break and the limit it cannot pass are part of the state.
    - A read past the end of a [std::array] is undefined behaviour and is
      an outcome of its own; so is a loop that needs more steps than the
      fuel it was given (the walk along a free list is a walk through
      memory and has no bound of its own).

    The file has three layers: the code ([Module Buddy]); the operations
    of the design over plain lists of free addresses ([Module Spec]); and
    the proofs that the code, on the memory, does what the design does on
    the lists, with the invariant that makes it so. *)

From Stdlib Require Import ZArith List Lia Bool Arith.
Import ListNotations.
Open Scope Z_scope.

Module Buddy.

(** ** Constants and tables *)

(** [std::uintptr_t] arithmetic is modulo [2^64]. *)
Definition word : Z := 2 ^ 64.

(** [reinterpret_cast<char* >(-1)], the failure value of [sbrk]. *)
Definition sbrk_failed : Z := word - 1.

Definition maxLevels : nat := 8.
Definition minSize : Z := 32.

(** [popcount]: number of set bits; the loop runs while [v] is non-zero and
    is bounded by the number of bits of [v]. *)
Fixpoint popcount_loop (bits : nat) (v : Z) (sum : Z) : Z :=
  match bits with
  | O => sum
  | S b => if v =? 0 then sum
           else popcount_loop b (Z.shiftr v 1) (sum + Z.land v 1)
  end.

Definition popcount (v : Z) : Z := popcount_loop 64 v 0.

(** [levelSize]: the loop [for (i = 0, sz = minSize; i < maxLevels; ++i, sz <<= 1)]. *)
Fixpoint levelSize_loop (n : nat) (sz : Z) : list Z :=
  match n with
  | O => []
  | S n' => sz :: levelSize_loop n' (Z.shiftl sz 1)
  end.

Definition levelSize : list Z := levelSize_loop maxLevels minSize.

(** [levelSize[i]]; [None] is a read past the end of the array. *)
Definition levelSize_at (i : nat) : option Z := nth_error levelSize i.

(** [maxSize = levelSize[maxLevels - 1]]. *)
Definition maxSize : Z := nth (maxLevels - 1) levelSize 0.

(** [reverseLookup]: the loop
    [for (currSz = minSize, i = 0, l = 0; i < arrsz; ++i)
       { if (currSz < i) currSz <<= 1, ++l; rev[i] = l; }]. *)
Definition arrsz : Z := Z.shiftl minSize (Z.of_nat (maxLevels - 1)) / 2 + 1.

Fixpoint reverseLookup_loop (n : nat) (currSz i : Z) (l : nat) : list nat :=
  match n with
  | O => []
  | S n' =>
      let currSz' := if currSz <? i then Z.shiftl currSz 1 else currSz in
      let l' := if currSz <? i then S l else l in
      l' :: reverseLookup_loop n' currSz' (i + 1) l'
  end.

Definition reverseLookup : list nat :=
  reverseLookup_loop (Z.to_nat arrsz) minSize 0 0.

(** [reverseLookup[i]]; [None] is a read past the end of the array. *)
Definition reverseLookup_at (i : Z) : option nat :=
  nth_error reverseLookup (Z.to_nat i).

(** The level computation shared by [allocate] and [deallocate]:
    [sz > reverseLookup.size() ? maxLevels - 1 : reverseLookup[sz]]. *)
Definition lookup_level (sz : Z) : option nat :=
  if sz >? Z.of_nat (length reverseLookup) then Some (maxLevels - 1)%nat
  else reverseLookup_at sz.

(** ** Program state *)

(** [struct Allocation { void *memory; std::uintptr_t size; }]. *)
Record Allocation : Type := mkAllocation { memory : Z; size : Z }.

Definition null_allocation : Allocation := mkAllocation 0 0.

(** [fList[l].next] for each level, the [next] word stored at each heap
    address, and the program break with the limit up to which the operating
    system lets it grow.  The array [fList] has [maxLevels] entries; the
    code below reads and writes it at indices below [maxLevels] only
    ([find_block] and [split] by their loop bounds, [deallocate] behind a
    check of its own). *)
Record state : Type := mkState {
  fList : nat -> Z;
  heap : Z -> Z;
  brk : Z;
  rlimit : Z
}.

(** A [FreeList*]: either one of the heads [&fList[l]] or a block in the
    heap reinterpreted as a list node. *)
Inductive flptr : Type :=
| Head (l : nat)
| Node (a : Z).

Definition next (p : flptr) (st : state) : Z :=
  match p with
  | Head l => fList st l
  | Node a => heap st a
  end.

Definition set_next (p : flptr) (v : Z) (st : state) : state :=
  match p with
  | Head l =>
      mkState (fun k => if Nat.eqb k l then v else fList st k)
              (heap st) (brk st) (rlimit st)
  | Node a =>
      mkState (fList st)
              (fun b => if b =? a then v else heap st b)
              (brk st) (rlimit st)
  end.

(** [FreeList::emplace]: [newHead->next = next; next = newHead]. *)
Definition emplace (p : flptr) (v : Z) (st : state) : state :=
  set_next p v (set_next (Node v) (next p st) st).

(** [FreeList::empty]. *)
Definition empty (p : flptr) (st : state) : bool := next p st =? 0.

(** [FreeList::extract]: [std::exchange(next, next->next)]. *)
Definition extract (p : flptr) (st : state) : Z * state :=
  let r := next p st in
  (r, set_next p (next (Node r) st) st).

(** [sbrk(inc)]. *)
Definition sbrk (inc : Z) (st : state) : Z * state :=
  if brk st + inc <=? rlimit st
  then (brk st, mkState (fList st) (heap st) (brk st + inc) (rlimit st))
  else (sbrk_failed, st).

(** What a call can do. *)
Inductive outcome (A : Type) : Type :=
| Ret (a : A)              (* normal return *)
| BadAlloc (st : state)    (* [throw std::bad_alloc{}], in state [st] *)
| Undefined                (* array read out of bounds *)
| OutOfFuel.               (* the loop did not finish within the fuel *)

Arguments Ret {A} a.
Arguments BadAlloc {A} st.
Arguments Undefined {A}.
Arguments OutOfFuel {A}.

(** ** [Allocator::allocate] *)

(** "Find block in freelist": [for (l = level; l < maxLevels; ++l)], with
    [n] the number of levels still to visit.  The result is [mem],
    [currLevel] (unset when nothing was found) and the new state. *)
Fixpoint find_block (n : nat) (l : nat) (st : state) : Z * option nat * state :=
  match n with
  | O => (0, None, st)
  | S n' =>
      if negb (empty (Head l) st)
      then let '(m, st') := extract (Head l) st in (m, Some l, st')
      else find_block n' (S l) st
  end.

(** "Split block to desired size":
    [while (currLevel --> level) fList[currLevel].emplace(mem + levelSize[currLevel])]. *)
Fixpoint split (currLevel level : nat) (mem : Z) (st : state) : outcome state :=
  match currLevel with
  | O => Ret st
  | S c =>
      if (level <? S c)%nat
      then match levelSize_at c with
           | Some s => split c level mem (emplace (Head c) ((mem + s) mod word) st)
           | None => Undefined
           end
      else Ret st
  end.

Definition allocate (sz : Z) (st : state) : outcome (Allocation * state) :=
  match lookup_level sz with
  | None => Undefined
  | Some level =>
      let '(mem0, lvl0, st0) := find_block (maxLevels - level) level st in
      let '(mem, currLevel, st1) :=
        if mem0 =? 0
        then let '(r, s) := sbrk maxSize st0 in (r, Some (maxLevels - 1)%nat, s)
        else (mem0, lvl0, st0) in
      if mem =? sbrk_failed then BadAlloc st1
      else
        match currLevel, levelSize_at level with
        | Some c, Some granted =>
            match split c level mem st1 with
            | Ret st2 => Ret (mkAllocation mem granted, st2)
            | BadAlloc s => BadAlloc s
            | Undefined => Undefined
            | OutOfFuel => OutOfFuel
            end
        | _, _ => Undefined
        end
  end.

(** ** [Allocator::deallocate] *)

(** [~x] on a [std::uintptr_t]. *)
Definition lnot64 (x : Z) : Z := Z.lnot x mod word.

(** "Scavenge freeList for our long lost buddy":
    [for (prev = &fList[lv]; prev->next != nullptr; prev = prev->next)
       if (prev->next == buddy) ...].
    [Some (Some prev)] when the buddy is [prev->next], [Some None] when the
    list ends without it, [None] when the fuel runs out. *)
Fixpoint scavenge (fuel : nat) (prev : flptr) (buddy : Z) (st : state)
  : option (option flptr) :=
  match fuel with
  | O => None
  | S f =>
      if next prev st =? 0 then Some None
      else if next prev st =? buddy then Some (Some prev)
      else scavenge f (Node (next prev st)) buddy st
  end.

(** "Bubble up and merge buddies": [while (alloc.size != maxSize)].  [n]
    bounds the iterations of this loop and [fuel] those of the scan. *)
Fixpoint bubble (n fuel : nat) (mem sz : Z) (lv : nat) (st : state)
  : outcome (Z * Z * nat * state) :=
  match n with
  | O => OutOfFuel
  | S n' =>
      if sz =? maxSize then Ret (mem, sz, lv, st)
      else
        match levelSize_at lv with
        | None => Undefined
        | Some s =>
            let buddy := Z.lxor mem s in
            match scavenge fuel (Head lv) buddy st with
            | None => OutOfFuel
            | Some None => Ret (mem, sz, lv, st)
            | Some (Some prev) =>
                let mem' := Z.land mem (lnot64 s) in
                let st' := snd (extract prev st) in
                bubble n' fuel mem' (Z.shiftl sz 1 mod word) (S lv) st'
            end
        end
  end.

Definition deallocate (fuel : nat) (alloc : Allocation) (st : state)
  : outcome (Allocation * state) :=
  if memory alloc =? 0 then Ret (alloc, st)
  else
    match lookup_level (size alloc) with
    | None => Undefined
    | Some lv =>
        match bubble fuel fuel (memory alloc) (size alloc) lv st with
        | Ret (mem, _, lv', st') =>
            if (lv' <? maxLevels)%nat
            then Ret (null_allocation, emplace (Head lv') mem st')
            else Undefined
        | BadAlloc s => BadAlloc s
        | Undefined => Undefined
        | OutOfFuel => OutOfFuel
        end
    end.

(** [Allocation::free]. *)
Definition free (fuel : nat) (alloc : Allocation) (st : state)
  : outcome (Allocation * state) :=
  deallocate fuel alloc st.

End Buddy.

(** * The design, in the words of its description

    A second model, over plain lists of free addresses, of the operations
    as the design document words them (levels, [insert], [takeHead],
    [removeIfPresent], [growByMaxBlock], the scan / split of [allocate] and
    the merge loop of [deallocate]).  The code above is compared with it. *)

Module Spec.

Definition levelCount : nat := 8.
Definition minSize : Z := 32.

(** "Level [i] corresponds to block size [minSize << i]." *)
Definition levelSizeOf (level : nat) : Z := Z.shiftl minSize (Z.of_nat level).

(** "[maxSize = minSize << (L-1)]." *)
Definition maxSize : Z := levelSizeOf (levelCount - 1).

(** "Free-List Store: a mapping from level to [the blocks free at that
    level]", with the heap break of the Heap Grower. *)
Record store : Type := mkStore {
  lists : nat -> list Z;
  break : Z;
  limit : Z
}.

Definition with_list (level : nat) (xs : list Z) (s : store) : store :=
  mkStore (fun k => if Nat.eqb k level then xs else lists s k)
          (break s) (limit s).

Definition isEmpty (level : nat) (s : store) : bool :=
  match lists s level with [] => true | _ :: _ => false end.

(** "pushes [address] as the new list head at [level]". *)
Definition insert (level : nat) (address : Z) (s : store) : store :=
  with_list level (address :: lists s level) s.

(** "pops and returns the current head". *)
Definition takeHead (level : nat) (s : store) : option (Z * store) :=
  match lists s level with
  | [] => None
  | a :: rest => Some (a, with_list level rest s)
  end.

Fixpoint remove_first (address : Z) (xs : list Z) : list Z :=
  match xs with
  | [] => []
  | x :: rest => if x =? address then rest else x :: remove_first address rest
  end.

(** "if [address] is found, unlink it and return true; otherwise return
    false and leave the list untouched". *)
Definition removeIfPresent (level : nat) (address : Z) (s : store) : bool * store :=
  if existsb (Z.eqb address) (lists s level)
  then (true, with_list level (remove_first address (lists s level)) s)
  else (false, s).

(** "extends the process heap by exactly [maxSize] bytes and returns the
    start address of the new region"; [None] is [OutOfMemory]. *)
Definition growByMaxBlock (s : store) : option (Z * store) :=
  if break s + maxSize <=? limit s
  then Some (break s, mkStore (lists s) (break s + maxSize) (limit s))
  else None.

(** "Scan levels [target .. L-1] in increasing order; at the first
    non-empty level [found], [takeHead(found)]." *)
Fixpoint scan (n level : nat) (s : store) : option (nat * Z * store) :=
  match n with
  | O => None
  | S n' =>
      if isEmpty level s then scan n' (S level) s
      else match takeHead level s with
           | Some (a, s') => Some (level, a, s')
           | None => None
           end
  end.

(** "While [found > target]: decrement [found]; ... insert the upper half
    ([block address + newSize]) into the free list at [found]." *)
Fixpoint splitDown (found target : nat) (address : Z) (s : store) : store :=
  match found with
  | O => s
  | S f =>
      if (target <? found)%nat
      then splitDown f target address (insert f (address + levelSizeOf f) s)
      else s
  end.

(** Steps 2 to 5 of [allocate] for a given target level; [None] is
    [OutOfMemory]. *)
Definition allocateAt (target : nat) (s : store) : option (Z * Z * store) :=
  match scan (levelCount - target) target s with
  | Some (found, a, s1) =>
      Some (a, levelSizeOf target, splitDown found target a s1)
  | None =>
      match growByMaxBlock s with
      | Some (a, s1) =>
          Some (a, levelSizeOf target, splitDown (levelCount - 1) target a s1)
      | None => None
      end
  end.

(** "Loop while [size != maxSize]: compute the buddy address
    ([address XOR levelSizeOf(level)]); [removeIfPresent(level, buddy)];
    if the buddy is not currently free, stop merging; if it is found and
    removed, the merged block's address is [address AND ~levelSizeOf(level)],
    its level becomes [level + 1], its size doubles." *)
Fixpoint coalesce (n : nat) (address sz : Z) (level : nat) (s : store)
  : Z * nat * store :=
  match n with
  | O => (address, level, s)
  | S n' =>
      if sz =? maxSize then (address, level, s)
      else
        let buddy := Z.lxor address (levelSizeOf level) in
        match removeIfPresent level buddy s with
        | (false, _) => (address, level, s)
        | (true, s') =>
            coalesce n' (Z.land address (Z.lnot (levelSizeOf level)))
                     (2 * sz) (S level) s'
        end
  end.

(** "the level whose size equals [size] exactly". *)
Definition levelOfSize (sz : Z) : option nat :=
  find (fun l => levelSizeOf l =? sz) (seq 0 levelCount).

(** [deallocate] of the Allocation [{address, size}]: the emptied or
    untouched Allocation and the new store. *)
Definition deallocate (address sz : Z) (s : store) : Z * Z * store :=
  if address =? 0 then (address, sz, s)
  else
    match levelOfSize sz with
    | Some level =>
        let '(a, l, s') := coalesce levelCount address sz level s in
        (0, 0, insert l a s')
    | None => (address, sz, s)
    end.

End Spec.

Import Buddy.

(** * Reading the list model off the memory *)

(** [chain hp h xs]: following the [next] words from [h] visits exactly the
    addresses [xs] and ends with the null pointer. *)
Fixpoint chain (hp : Z -> Z) (h : Z) (xs : list Z) : Prop :=
  match xs with
  | [] => h = 0
  | x :: rest => h = x /\ x <> 0 /\ chain hp (hp x) rest
  end.

(** The free list of level [l] holds the blocks [xs], head first. *)
Definition free_list (st : state) (l : nat) (xs : list Z) : Prop :=
  chain (heap st) (fList st l) xs.

Definition represents (st : state) (s : Spec.store) : Prop :=
  (forall l, (l < maxLevels)%nat -> free_list st l (Spec.lists s l)) /\
  brk st = Spec.break s /\
  rlimit st = Spec.limit s.

(** * Reachable states *)

(** Before the first call every list is empty; the break is a valid,
    non-null address and the break can never pass the end of the address
    space. *)
Definition initial (st : state) : Prop :=
  (forall l, (l < maxLevels)%nat -> fList st l = 0) /\
  0 < brk st /\ brk st <= rlimit st /\ rlimit st < word.

Definition Allocation_eq_dec (x y : Allocation) : {x = y} + {x <> y}.
Proof. decide equality; apply Z.eq_dec. Defined.

(** [reachable st outs]: [st] is reached from an initial state by a
    sequence of [allocate] calls and of [deallocate] calls on handles that
    [allocate] returned and that were not released since; [outs] are the
    handles still held by the callers. *)
Inductive reachable : state -> list Allocation -> Prop :=
| reach_init st :
    initial st -> reachable st []
| reach_allocate st outs sz h st' :
    reachable st outs ->
    0 <= sz < word ->
    allocate sz st = Ret (h, st') ->
    reachable st' (h :: outs)
| reach_deallocate st outs fuel h h' st' :
    reachable st outs ->
    In h outs ->
    deallocate fuel h st = Ret (h', st') ->
    reachable st' (remove Allocation_eq_dec h outs).

(** * Invariant of the list model *)

(** A free block of level [l]. *)
Definition cell (s : Spec.store) (l : nat) (a : Z) : Prop :=
  (l < Spec.levelCount)%nat /\ In a (Spec.lists s l).

(** A block in circulation: free at some level, or held ([F a z]: the block
    at [a] of size [z] is held by a caller or by the running operation). *)
Definition block (s : Spec.store) (F : Z -> Z -> Prop) (a z : Z) : Prop :=
  (exists l, cell s l a /\ z = Spec.levelSizeOf l) \/ F a z.

Definition apart (a1 z1 a2 z2 : Z) : Prop := a1 + z1 <= a2 \/ a2 + z2 <= a1.

Record store_inv (s : Spec.store) (F : Z -> Z -> Prop) : Prop := mkStoreInv {
  si_break : 0 < Spec.break s /\ Spec.break s <= Spec.limit s /\ Spec.limit s < word;
  si_nodup : forall l, (l < Spec.levelCount)%nat -> NoDup (Spec.lists s l);
  si_sound : forall a z, block s F a z ->
      0 < a /\ a + z <= Spec.break s /\
      exists l, (l < Spec.levelCount)%nat /\ z = Spec.levelSizeOf l;
  si_apart : forall a1 z1 a2 z2, block s F a1 z1 -> block s F a2 z2 ->
      a1 <> a2 \/ z1 <> z2 -> apart a1 z1 a2 z2;
  si_excl : forall l a, cell s l a -> ~ F a (Spec.levelSizeOf l);
  si_nopair : forall l a, (S l < Spec.levelCount)%nat ->
      In a (Spec.lists s l) ->
      ~ In (Z.lxor a (Spec.levelSizeOf l)) (Spec.lists s l)
}.

(** The blocks held by the callers. *)
Definition held (outs : list Allocation) (a z : Z) : Prop :=
  In (mkAllocation a z) outs.

(** Every block in circulation is a multiple of its size. *)
Definition aligned (s : Spec.store) (F : Z -> Z -> Prop) : Prop :=
  forall a z, block s F a z -> a mod z = 0.

(** * Auxiliary definitions *)

(** What one entry of [reverseLookup] has to be: the level is below the
    top, its size covers the index, and the size of the level below does
    not. *)
Definition entry_ok (i : nat) : bool :=
  match reverseLookup_at (Z.of_nat i) with
  | Some l =>
      (l <? 7)%nat && (Z.of_nat i <=? Spec.levelSizeOf l) &&
      ((l =? 0)%nat || (Spec.levelSizeOf (l - 1) <? Z.of_nat i))
  | None => false
  end.

Definition upd (hp : Z -> Z) (a v : Z) : Z -> Z :=
  fun b => if b =? a then v else hp b.

(** The node whose [next] word points to [b], when the walk starts from
    [prev] and visits [xs]. *)
Fixpoint pred_of (b : Z) (xs : list Z) (prev : flptr) : flptr :=
  match xs with
  | [] => prev
  | x :: rest => if x =? b then prev else pred_of b rest (Node x)
  end.

Ltac lv := unfold Spec.levelCount, maxLevels in *; lia.

(** [plus G a z]: the held blocks [G] and the block at [a] of size [z]. *)
Definition plus (G : Z -> Z -> Prop) (a z : Z) : Z -> Z -> Prop :=
  fun x y => G x y \/ (x = a /\ y = z).

(** The operation in progress holds the block at [a] of size [z], which is
    none of the blocks [G] of the callers. *)
Definition floating (s : Spec.store) (G : Z -> Z -> Prop) (a z : Z) : Prop :=
  store_inv s (plus G a z) /\ ~ G a z.

(** The length of the longest free list. *)
Definition longest (s : Spec.store) : nat :=
  fold_right Nat.max 0%nat
    (map (fun l => length (Spec.lists s l)) (seq 0 Spec.levelCount)).

(** [releases h st st']: with enough fuel for its loops, [deallocate] of
    [h] in [st] returns, empties the handle and leaves the state [st']. *)
Definition releases (h : Allocation) (st st' : state) : Prop :=
  exists fuel0, forall fuel, (fuel0 <= fuel)%nat ->
    deallocate fuel h st = Ret (null_allocation, st').

(** The free lists hold one top-level block at [a] and nothing else. *)
Definition one_max_block (st : state) (a : Z) : Prop :=
  free_list st (maxLevels - 1) [a] /\
  forall l, (l < maxLevels - 1)%nat -> free_list st l [].

(** The lists after the second of the two allocations: level 0 is empty
    again, and every level above still has the upper half that the split
    of the one top-level block at [b] left there. *)
Definition after_two (s : Spec.store) (b : Z) : Prop :=
  forall k, Spec.lists s k =
            if ((1 <=? k) && (k <? 7))%nat then [b + Spec.levelSizeOf k] else [].

Definition just_max (s : Spec.store) (b : Z) : Prop :=
  forall k, Spec.lists s k = if (k =? 7)%nat then [b] else [].

(** * Example runs *)

(** A machine to run the examples on: nothing allocated yet, the break at
    [b] and [room] bytes left for the heap to grow. *)
Definition fresh_state (b room : Z) : state :=
  mkState (fun _ => 0) (fun _ => 0) b (b + room).

(** Running the code on an example, for the examples below. *)
Definition run_allocate (n : Z) (st : state) : Allocation * state :=
  match allocate n st with
  | Ret r => r
  | _ => (null_allocation, st)
  end.

Definition run_deallocate (fuel : nat) (h : Allocation) (st : state) : state :=
  match deallocate fuel h st with
  | Ret (_, st') => st'
  | _ => st
  end.

(** One request of 40 bytes on a fresh machine. *)
Definition demo0 : state := fresh_state 8192 65536.
Definition demo1 : Allocation * state := Eval vm_compute in run_allocate 40 demo0.

(** A machine whose heap cannot grow. *)
Definition full0 : state := fresh_state 8192 0.

(** Two top-level blocks from two heap growths, both released. *)
Definition top1 : Allocation * state := Eval vm_compute in run_allocate 4096 demo0.
Definition top2 : Allocation * state := Eval vm_compute in run_allocate 4096 (snd top1).
Definition top3 : state := Eval vm_compute in run_deallocate 20 (fst top1) (snd top2).
Definition top4 : state := Eval vm_compute in run_deallocate 20 (fst top2) top3.

(** Two requests of 32 bytes on a fresh machine with an aligned break. *)
Definition two1 : Allocation * state := Eval vm_compute in run_allocate 32 demo0.
Definition two2 : Allocation * state := Eval vm_compute in run_allocate 32 (snd two1).

(** The same two requests when the heap break is not a multiple of
    [maxSize]. *)
Definition skew0 : state := fresh_state 20544 65536.
Definition skew1 : Allocation * state := Eval vm_compute in run_allocate 32 skew0.
Definition skew2 : Allocation * state := Eval vm_compute in run_allocate 32 (snd skew1).
Definition skew3 : state := Eval vm_compute in run_deallocate 20 (fst skew1) (snd skew2).
Definition skew4 : state := Eval vm_compute in run_deallocate 20 (fst skew2) skew3.

Definition skewtop : Allocation * state := Eval vm_compute in run_allocate 4096 skew0.

(** * The rest of the code *)

(** [struct Iterator { FreeList const *it; }]: a pointer to a list node,
    null at the end. *)
Record Iterator : Type := mkIterator { it : Z }.

(** [FreeList::begin] and [FreeList::end]. *)
Definition begin (p : flptr) (st : state) : Iterator := mkIterator (next p st).
Definition end_ : Iterator := mkIterator 0.

(** [Iterator::operator++]: [it = it->next]. *)
Definition iter_incr (i : Iterator) (st : state) : Iterator :=
  mkIterator (heap st (it i)).

(** [Iterator::operator!=] and [Iterator::operator==]. *)
Definition iter_neq (a b : Iterator) : bool := negb (it a =? it b).
Definition iter_eq (a b : Iterator) : bool := it a =? it b.

(** [operator<<(std::ostream&, Iterator const&)]: [os << it.it << ' '].
    The stream is the sequence of the pointers written so far, each
    followed by a blank. *)
Definition print_Iterator (os : list Z) (i : Iterator) : list Z := os ++ [it i].

(** [operator<<(std::ostream&, FreeList const&)]:
    [for (auto it = fl.begin(); it != fl.end(); ++it) os << it;].
    [None] when the fuel runs out. *)
Fixpoint print_loop (fuel : nat) (i : Iterator) (st : state) (os : list Z)
  : option (list Z) :=
  match fuel with
  | O => None
  | S f =>
      if iter_neq i end_
      then print_loop f (iter_incr i st) st (print_Iterator os i)
      else Some os
  end.

Definition print_FreeList (fuel : nat) (os : list Z) (p : flptr) (st : state)
  : option (list Z) :=
  print_loop fuel (begin p st) st os.

(** [Allocation::operator bool]: [return memory]. *)
Definition to_bool (a : Allocation) : bool := negb (memory a =? 0).

(** The [Allocation] objects of a program, by name: [operator=] takes two
    of them, which may be one and the same object. *)
Definition handles : Type := nat -> Allocation.

Definition set_handle (i : nat) (h : Allocation) (hs : handles) : handles :=
  fun k => if Nat.eqb k i then h else hs k.

Definition set_memory (i : nat) (v : Z) (hs : handles) : handles :=
  set_handle i (mkAllocation v (size (hs i))) hs.

Definition set_size (i : nat) (v : Z) (hs : handles) : handles :=
  set_handle i (mkAllocation (memory (hs i)) v) hs.

(** [Allocation::free] on the object [i]: [Allocator::deallocate( *this)],
    which writes the handle through the reference. *)
Definition free_at (fuel : nat) (i : nat) (hs : handles) (st : state)
  : outcome (handles * state) :=
  match free fuel (hs i) st with
  | Ret (h', st') => Ret (set_handle i h' hs, st')
  | BadAlloc s => BadAlloc s
  | Undefined => Undefined
  | OutOfFuel => OutOfFuel
  end.

(** [Allocation::~Allocation]: [free()]. *)
Definition destroy (fuel : nat) (i : nat) (hs : handles) (st : state)
  : outcome (handles * state) :=
  free_at fuel i hs st.

(** [Allocation::operator=(Allocation &&other)], with [i] for [this] and
    [j] for [other]:
    [free(); memory = std::exchange(other.memory, nullptr);
     size = std::exchange(other.size, 0);]. *)
Definition move_assign (fuel : nat) (i j : nat) (hs : handles) (st : state)
  : outcome (handles * state) :=
  match free_at fuel i hs st with
  | Ret (hs1, st1) =>
      let m := memory (hs1 j) in
      let hs2 := set_memory i m (set_memory j 0 hs1) in
      let z := size (hs2 j) in
      Ret (set_size i z (set_size j 0 hs2), st1)
  | BadAlloc s => BadAlloc s
  | Undefined => Undefined
  | OutOfFuel => OutOfFuel
  end.

(** [is_pow2 v]: [v] is one of [2^0 .. 2^63]. *)
Definition is_pow2 (v : Z) : Prop := exists k, 0 <= k < 64 /\ v = 2 ^ k.

(** A second request, of 100 bytes, after the first. *)
Definition demo2 : Allocation * state := Eval vm_compute in run_allocate 100 (snd demo1).

(** The top list is caught in a loop on the block at [a]: the block is the
    head of the list and its own successor. *)
Definition stuck_on (a : Z) (st : state) : Prop :=
  fList st (maxLevels - 1) = a /\ heap st a = a.

(** The bytes on the free list of one level, and on all of them. *)
Definition level_bytes (s : Spec.store) (l : nat) : Z :=
  Z.of_nat (length (Spec.lists s l)) * Spec.levelSizeOf l.

Definition free_bytes (s : Spec.store) : Z :=
  fold_right Z.add 0 (map (level_bytes s) (seq 0 Spec.levelCount)).

(** [free_total st f]: the free lists of [st] are well-formed and hold [f]
    bytes in all. *)
Definition free_total (st : state) (f : Z) : Prop :=
  exists s, represents st s /\ f = free_bytes s.

(** [tracked hs outs]: every [Allocation] object that holds a block holds
    one of the blocks handed out, and no two objects hold the same one. *)
Definition tracked (hs : handles) (outs : list Allocation) : Prop :=
  (forall k, to_bool (hs k) = true -> In (hs k) outs) /\
  (forall k k', k <> k' -> to_bool (hs k) = true -> hs k <> hs k').

(** Two objects holding a block each, the others empty. *)
Definition two_handles (h0 h1 : Allocation) : handles :=
  fun k => if Nat.eqb k 0 then h0 else if Nat.eqb k 1 then h1 else null_allocation.

(** [covers s F p]: the address [p] lies in a block in circulation. *)
Definition covers (s : Spec.store) (F : Z -> Z -> Prop) (p : Z) : Prop :=
  exists a z, block s F a z /\ a <= p < a + z.

(** The blocks in circulation fill the heap from [b0], the break before
    the first call, to the break of now, which are a whole number of top
    blocks apart. *)
Record tiled (s : Spec.store) (F : Z -> Z -> Prop) (b0 : Z) : Prop := mkTiled {
  ti_start : 0 <= b0 <= Spec.break s;
  ti_whole : (Spec.break s - b0) mod Spec.maxSize = 0;
  ti_above : forall a z, block s F a z -> b0 <= a;
  ti_cover : forall p, b0 <= p < Spec.break s -> covers s F p
}.

(** The request of 40 bytes, given back. *)
Definition demo3 : state := Eval vm_compute in run_deallocate 20 (fst demo1) (snd demo1).

(** * The tables *)

Lemma levelSize_table : levelSize = [32; 64; 128; 256; 512; 1024; 2048; 4096].
Proof. reflexivity. Qed.

Lemma maxSize_value : maxSize = 4096.
Proof. reflexivity. Qed.

Lemma spec_maxSize_value : Spec.maxSize = 4096.
Proof. reflexivity. Qed.

Lemma minSize_power_of_two : popcount minSize = 1.
Proof. reflexivity. Qed.

Lemma levelSizeOf_pow2 l : Spec.levelSizeOf l = 2 ^ (Z.of_nat l + 5).
Proof.
  unfold Spec.levelSizeOf, Spec.minSize.
  rewrite Z.shiftl_mul_pow2 by lia.
  rewrite Z.pow_add_r by lia. change (2 ^ 5) with 32. lia.
Qed.

Lemma levelSizeOf_pos l : 0 < Spec.levelSizeOf l.
Proof. rewrite levelSizeOf_pow2. apply Z.pow_pos_nonneg; lia. Qed.

Lemma levelSizeOf_S l : Spec.levelSizeOf (S l) = 2 * Spec.levelSizeOf l.
Proof.
  rewrite !levelSizeOf_pow2.
  replace (Z.of_nat (S l) + 5) with (Z.succ (Z.of_nat l + 5)) by lia.
  rewrite Z.pow_succ_r by lia. reflexivity.
Qed.

Lemma levelSizeOf_mono l1 l2 :
  (l1 < l2)%nat -> Spec.levelSizeOf l1 < Spec.levelSizeOf l2.
Proof.
  intros H. rewrite !levelSizeOf_pow2. apply Z.pow_lt_mono_r; lia.
Qed.

Lemma levelSizeOf_inj l1 l2 :
  Spec.levelSizeOf l1 = Spec.levelSizeOf l2 -> l1 = l2.
Proof.
  intros H.
  destruct (Nat.lt_trichotomy l1 l2) as [L | [E | L]]; auto;
    apply levelSizeOf_mono in L; lia.
Qed.

Lemma levelSizeOf_le_max l :
  (l < Spec.levelCount)%nat -> Spec.levelSizeOf l <= 4096.
Proof.
  intros H. change 4096 with (Spec.levelSizeOf 7).
  destruct (Nat.eq_dec l 7) as [-> | N]; [lia |].
  apply Z.lt_le_incl, levelSizeOf_mono. unfold Spec.levelCount in H. lia.
Qed.

(** The table of the code holds the sizes of the design, and nothing else. *)
Lemma levelSize_at_spec l :
  levelSize_at l =
  if (l <? maxLevels)%nat then Some (Spec.levelSizeOf l) else None.
Proof.
  do 8 (destruct l as [| l]; [reflexivity |]).
  unfold levelSize_at. rewrite levelSize_table.
  destruct l; reflexivity.
Qed.

Lemma levelSize_at_lt l :
  (l < maxLevels)%nat -> levelSize_at l = Some (Spec.levelSizeOf l).
Proof.
  intros H. rewrite levelSize_at_spec.
  apply Nat.ltb_lt in H. rewrite H. reflexivity.
Qed.

Lemma levelSize_nth l :
  (l < maxLevels)%nat -> nth l levelSize 0 = Spec.levelSizeOf l.
Proof.
  intros H. do 8 (destruct l as [| l]; [reflexivity |]).
  unfold maxLevels in H. lia.
Qed.

Lemma In_levelSize z :
  In z levelSize <-> exists l, (l < maxLevels)%nat /\ z = Spec.levelSizeOf l.
Proof.
  split.
  - intros H. apply In_nth_error in H. destruct H as [l H].
    fold (levelSize_at l) in H. rewrite levelSize_at_spec in H.
    destruct (l <? maxLevels)%nat eqn:E; [| discriminate].
    apply Nat.ltb_lt in E. exists l. split; congruence.
  - intros [l [H ->]]. apply nth_error_In with l.
    apply (levelSize_at_lt l H).
Qed.

Lemma reverseLookup_length : length reverseLookup = 2049%nat.
Proof. reflexivity. Qed.

Lemma reverseLookup_entries : forallb entry_ok (seq 0 2049) = true.
Proof. vm_compute. reflexivity. Qed.

Lemma reverseLookup_at_spec n :
  0 <= n <= 2048 ->
  exists l, reverseLookup_at n = Some l /\ (l < 7)%nat /\
            n <= Spec.levelSizeOf l /\
            (l = 0%nat \/ Spec.levelSizeOf (l - 1) < n).
Proof.
  intros H.
  pose proof reverseLookup_entries as A.
  rewrite forallb_forall in A.
  specialize (A (Z.to_nat n)).
  assert (I : In (Z.to_nat n) (seq 0 2049)) by (apply in_seq; lia).
  apply A in I. unfold entry_ok in I.
  rewrite Z2Nat.id in I by lia.
  destruct (reverseLookup_at n) as [l |]; [| discriminate].
  exists l. split; [reflexivity |].
  apply andb_true_iff in I. destruct I as [I I3].
  apply andb_true_iff in I. destruct I as [I1 I2].
  apply Nat.ltb_lt in I1. apply Z.leb_le in I2.
  apply orb_true_iff in I3.
  repeat split; auto.
  destruct I3 as [I3 | I3]; [left; apply Nat.eqb_eq in I3 | right; apply Z.ltb_lt in I3]; auto.
Qed.

Lemma reverseLookup_at_oob n : 2048 < n -> reverseLookup_at n = None.
Proof.
  intros H. unfold reverseLookup_at. apply nth_error_None.
  rewrite reverseLookup_length. lia.
Qed.

Lemma lookup_level_small n :
  0 <= n <= 2048 -> lookup_level n = reverseLookup_at n.
Proof.
  intros H. unfold lookup_level. rewrite reverseLookup_length.
  destruct (n >? Z.of_nat 2049) eqn:E; [| reflexivity].
  apply Z.gtb_lt in E. lia.
Qed.

Lemma lookup_level_large n : 2049 < n -> lookup_level n = Some 7%nat.
Proof.
  intros H. unfold lookup_level. rewrite reverseLookup_length.
  destruct (n >? Z.of_nat 2049) eqn:E; [reflexivity |].
  rewrite Z.gtb_ltb in E. apply Z.ltb_ge in E. lia.
Qed.

Lemma lookup_level_2049 : lookup_level 2049 = None.
Proof. reflexivity. Qed.

Lemma lookup_level_bound n t :
  0 <= n -> lookup_level n = Some t -> (t < maxLevels)%nat.
Proof.
  intros Hn H. unfold maxLevels.
  destruct (Z_le_gt_dec n 2048) as [L | G].
  - rewrite lookup_level_small in H by lia.
    destruct (reverseLookup_at_spec n) as [l [E [B _]]]; [lia |].
    assert (l = t) by congruence. lia.
  - destruct (Z.eq_dec n 2049) as [-> | N].
    + rewrite lookup_level_2049 in H. discriminate.
    + rewrite lookup_level_large in H by lia.
      assert (t = 7%nat) by congruence. lia.
Qed.

Lemma lookup_level_levelSizeOf l :
  (l < maxLevels)%nat -> lookup_level (Spec.levelSizeOf l) = Some l.
Proof.
  intros H. do 8 (destruct l as [| l]; [reflexivity |]).
  unfold maxLevels in H. lia.
Qed.

Lemma spec_levelOfSize_levelSizeOf l :
  (l < Spec.levelCount)%nat -> Spec.levelOfSize (Spec.levelSizeOf l) = Some l.
Proof.
  intros H. do 8 (destruct l as [| l]; [reflexivity |]).
  unfold Spec.levelCount in H. lia.
Qed.

(** * The bit tricks *)

Lemma lxor_pow2_clear a p :
  0 <= a -> 0 <= p -> Z.testbit a p = false ->
  Z.lxor a (2 ^ p) = a + 2 ^ p /\ Z.land a (Z.lnot (2 ^ p)) = a.
Proof.
  intros Ha Hp Hb. split.
  - symmetry. apply Z.add_nocarry_lxor.
    apply Z.bits_inj'. intros i Hi.
    rewrite Z.land_spec, Z.bits_0, Z.pow2_bits_eqb by lia.
    destruct (Z.eqb_spec p i) as [-> | N].
    + rewrite Hb. reflexivity.
    + apply andb_false_r.
  - apply Z.bits_inj'. intros i Hi.
    rewrite Z.land_spec, Z.lnot_spec, Z.pow2_bits_eqb by lia.
    destruct (Z.eqb_spec p i) as [-> | N].
    + rewrite Hb. reflexivity.
    + apply andb_true_r.
Qed.

Lemma lxor_pow2_set a p :
  0 <= a -> 0 <= p -> Z.testbit a p = true ->
  Z.lxor a (2 ^ p) = a - 2 ^ p /\ Z.land a (Z.lnot (2 ^ p)) = a - 2 ^ p /\
  2 ^ p <= a.
Proof.
  intros Ha Hp Hb.
  set (c := Z.lxor a (2 ^ p)).
  assert (Hc : 0 <= c).
  { apply Z.lxor_nonneg. split; intros _; [apply Z.pow_nonneg; lia | exact Ha]. }
  assert (Hcb : Z.testbit c p = false).
  { unfold c. rewrite Z.lxor_spec, Z.pow2_bits_eqb, Z.eqb_refl, Hb by lia.
    reflexivity. }
  destruct (lxor_pow2_clear c p Hc Hp Hcb) as [E _].
  assert (Ea : Z.lxor c (2 ^ p) = a).
  { unfold c. rewrite Z.lxor_assoc, Z.lxor_nilpotent, Z.lxor_0_r. reflexivity. }
  assert (P : 0 < 2 ^ p) by (apply Z.pow_pos_nonneg; lia).
  assert (Ec : c = a - 2 ^ p) by lia.
  split; [exact Ec |]. split; [| lia].
  rewrite <- Ec. apply Z.bits_inj'. intros i Hi.
  unfold c.
  rewrite Z.land_spec, Z.lnot_spec, Z.lxor_spec, Z.pow2_bits_eqb by lia.
  destruct (Z.eqb_spec p i) as [-> | N].
  - rewrite Hb. reflexivity.
  - rewrite andb_true_r, xorb_false_r. reflexivity.
Qed.

(** The buddy is the neighbour above or below, and the merged block starts
    at the lower of the two. *)
Lemma buddy_cases a l :
  0 <= a ->
  let z := Spec.levelSizeOf l in
  (Z.lxor a z = a + z /\ Z.land a (Z.lnot z) = a) \/
  (Z.lxor a z = a - z /\ Z.land a (Z.lnot z) = a - z /\ z <= a).
Proof.
  intros Ha z. unfold z. rewrite levelSizeOf_pow2.
  destruct (Z.testbit a (Z.of_nat l + 5)) eqn:E.
  - right. apply lxor_pow2_set; auto; lia.
  - left. apply lxor_pow2_clear; auto; lia.
Qed.

Lemma lxor_levelSizeOf_neq a l : 0 <= a -> Z.lxor a (Spec.levelSizeOf l) <> a.
Proof.
  intros Ha. pose proof (levelSizeOf_pos l).
  destruct (buddy_cases a l Ha) as [[E _] | [E _]]; lia.
Qed.

Lemma lxor_levelSizeOf_invol a l :
  Z.lxor (Z.lxor a (Spec.levelSizeOf l)) (Spec.levelSizeOf l) = a.
Proof. rewrite Z.lxor_assoc, Z.lxor_nilpotent, Z.lxor_0_r. reflexivity. Qed.

(** On 64-bit operands the complement taken in the machine word clears the
    same bit as the mathematical one. *)
Lemma land_lnot64 a z :
  0 <= a < word -> Z.land a (lnot64 z) = Z.land a (Z.lnot z).
Proof.
  intros Ha. unfold lnot64, word in *.
  apply Z.bits_inj'. intros i Hi.
  rewrite !Z.land_spec.
  destruct (Z_lt_ge_dec i 64) as [L | G].
  - rewrite Z.mod_pow2_bits_low by lia. reflexivity.
  - rewrite Z.mod_pow2_bits_high by lia.
    assert (Z.testbit a i = false) as ->; [| reflexivity].
    destruct (Z.eq_dec a 0) as [-> | N]; [apply Z.bits_0 |].
    apply Z.bits_above_log2; [lia |].
    apply Z.lt_le_trans with 64; [| lia].
    apply Z.log2_lt_pow2; lia.
Qed.

(** Merging two aligned buddies gives a block aligned to the double size. *)
Lemma merged_aligned a l :
  0 <= a -> a mod Spec.levelSizeOf l = 0 ->
  Z.land a (Z.lnot (Spec.levelSizeOf l)) mod Spec.levelSizeOf (S l) = 0.
Proof.
  intros Ha Hm. rewrite levelSizeOf_S.
  pose proof (levelSizeOf_pos l) as P.
  set (z := Spec.levelSizeOf l) in *.
  apply Z.mod_divide in Hm; [| lia]. destruct Hm as [q Hq].
  pose proof (buddy_cases a l Ha) as C. fold z in C. cbv zeta in C.
  (* the bit of weight z decides between the two cases *)
  destruct (Z.even q) eqn:Ev.
  - apply Z.even_spec in Ev. destruct Ev as [k Hk].
    destruct C as [[_ E] | [E1 [E _]]].
    + rewrite E. apply Z.mod_divide; [lia |]. exists k. lia.
    + exfalso.
      (* a - z = lxor a z >= 0 has the bit of weight z set *)
      assert (T : Z.testbit a (Z.of_nat l + 5) = false).
      { subst a q. unfold z. rewrite levelSizeOf_pow2.
        replace (2 * k * 2 ^ (Z.of_nat l + 5)) with (k * 2 ^ (Z.succ (Z.of_nat l + 5))).
        - rewrite Z.mul_pow2_bits by lia.
          apply Z.testbit_neg_r. lia.
        - rewrite Z.pow_succ_r by lia. lia. }
      unfold z in E1. rewrite levelSizeOf_pow2 in E1.
      destruct (lxor_pow2_clear a (Z.of_nat l + 5) Ha ltac:(lia) T) as [E2 _].
      assert (0 < 2 ^ (Z.of_nat l + 5)) by (apply Z.pow_pos_nonneg; lia).
      lia.
  - rewrite <- Z.negb_odd in Ev. apply negb_false_iff in Ev.
    apply Z.odd_spec in Ev. destruct Ev as [k Hk].
    destruct C as [[E1 _] | [_ [E _]]].
    + exfalso.
      assert (T : Z.testbit a (Z.of_nat l + 5) = true).
      { subst a q. unfold z. rewrite levelSizeOf_pow2.
        rewrite Z.mul_pow2_bits by lia.
        replace (Z.of_nat l + 5 - (Z.of_nat l + 5)) with 0 by lia.
        rewrite Z.bit0_odd. apply Z.odd_spec. exists k. reflexivity. }
      unfold z in E1. rewrite levelSizeOf_pow2 in E1.
      destruct (lxor_pow2_set a (Z.of_nat l + 5) Ha ltac:(lia) T) as [E2 _].
      assert (0 < 2 ^ (Z.of_nat l + 5)) by (apply Z.pow_pos_nonneg; lia).
      lia.
    + rewrite E. apply Z.mod_divide; [lia |]. exists k. lia.
Qed.

(** * Intrusive lists in memory *)

Lemma chain_upd hp a v h xs :
  ~ In a xs -> chain hp h xs -> chain (upd hp a v) h xs.
Proof.
  revert h. induction xs as [| x r IH]; intros h N C; simpl in *; auto.
  destruct C as [E [Z0 C]]. repeat split; auto.
  unfold upd at 2. destruct (Z.eqb_spec x a) as [-> | _].
  - exfalso. apply N. now left.
  - apply IH; auto.
Qed.

Lemma chain_inj hp h xs ys : chain hp h xs -> chain hp h ys -> xs = ys.
Proof.
  revert h ys. induction xs as [| x r IH]; intros h [| y q] C D; simpl in *; auto.
  - destruct D as [E [N _]]. congruence.
  - destruct C as [E [N _]]. congruence.
  - destruct C as [E1 [N1 C]], D as [E2 [N2 D]].
    subst h. subst y. f_equal. eapply IH; eauto.
Qed.

Lemma chain_nonzero hp h xs : chain hp h xs -> ~ In 0 xs.
Proof.
  revert h. induction xs as [| x r IH]; intros h C; simpl in *; auto.
  destruct C as [E [N C]]. intros [F | F]; [congruence |].
  eapply IH; eauto.
Qed.

Lemma chain_head_zero hp h xs : chain hp h xs -> (h = 0 <-> xs = []).
Proof.
  destruct xs; simpl.
  - intros ->. tauto.
  - intros [E [N _]]. split; [congruence | discriminate].
Qed.

Lemma pred_of_cases b xs prev :
  pred_of b xs prev = prev \/ exists y, In y xs /\ pred_of b xs prev = Node y.
Proof.
  revert prev. induction xs as [| x r IH]; intros prev; simpl; auto.
  destruct (x =? b); auto.
  destruct (IH (Node x)) as [E | [y [I E]]]; right.
  - exists x. auto.
  - exists y. auto.
Qed.

Lemma scavenge_absent st b : forall xs fuel prev,
  chain (heap st) (next prev st) xs -> ~ In b xs ->
  (length xs < fuel)%nat ->
  scavenge fuel prev b st = Some None.
Proof.
  induction xs as [| x r IH]; intros fuel prev C N L; simpl in *.
  - destruct fuel; [lia |]. simpl. rewrite C. reflexivity.
  - destruct fuel; [lia |]. simpl.
    destruct C as [E [Z0 C]]. rewrite E.
    destruct (Z.eqb_spec x 0) as [? | _]; [contradiction |].
    destruct (Z.eqb_spec x b) as [? | _]; [exfalso; auto |].
    apply IH; auto. lia.
Qed.

Lemma scavenge_present st b : forall xs fuel prev,
  chain (heap st) (next prev st) xs -> In b xs ->
  (length xs < fuel)%nat ->
  scavenge fuel prev b st = Some (Some (pred_of b xs prev)).
Proof.
  induction xs as [| x r IH]; intros fuel prev C I L; simpl in *.
  - contradiction.
  - destruct fuel; [lia |]. simpl.
    destruct C as [E [Z0 C]]. rewrite E.
    destruct (Z.eqb_spec x 0) as [? | _]; [contradiction |].
    destruct (Z.eqb_spec x b) as [? | Nb]; [reflexivity |].
    apply IH; auto; [| lia].
    destruct I; [contradiction | assumption].
Qed.

Lemma scavenge_mono st b : forall fuel fuel' prev r,
  scavenge fuel prev b st = Some r -> (fuel <= fuel')%nat ->
  scavenge fuel' prev b st = Some r.
Proof.
  induction fuel as [| f IH]; intros fuel' prev r H L; simpl in H.
  - discriminate.
  - destruct fuel' as [| f']; [lia |]. simpl.
    destruct (next prev st =? 0); auto.
    destruct (next prev st =? b); auto.
    apply IH; auto. lia.
Qed.

Lemma heap_set_next p v st :
  heap (set_next p v st) =
  match p with Head _ => heap st | Node a => upd (heap st) a v end.
Proof. destruct p; reflexivity. Qed.

Lemma fList_set_next p v st k :
  fList (set_next p v st) k =
  match p with
  | Head l => if Nat.eqb k l then v else fList st k
  | Node _ => fList st k
  end.
Proof. destruct p; reflexivity. Qed.

Lemma next_set_next_same p v st : next p (set_next p v st) = v.
Proof.
  destruct p; simpl.
  - now rewrite Nat.eqb_refl.
  - now rewrite Z.eqb_refl.
Qed.

Lemma brk_set_next p v st : brk (set_next p v st) = brk st.
Proof. destruct p; reflexivity. Qed.

Lemma rlimit_set_next p v st : rlimit (set_next p v st) = rlimit st.
Proof. destruct p; reflexivity. Qed.

(** Unlinking [b] from the list that starts at [prev]: the walk from [prev]
    afterwards visits the same blocks without [b]. *)
Lemma unlink_chain st b : forall xs prev,
  chain (heap st) (next prev st) xs ->
  NoDup xs -> In b xs ->
  match prev with Node q => ~ In q xs | Head _ => True end ->
  let st' := snd (extract (pred_of b xs prev) st) in
  chain (heap st') (next prev st') (Spec.remove_first b xs).
Proof.
  induction xs as [| x r IH]; intros prev C ND I P; simpl in *.
  - contradiction.
  - destruct C as [E [Z0 C]].
    apply NoDup_cons_iff in ND. destruct ND as [Nx NDr].
    destruct (Z.eqb_spec x b) as [Eb | Nb].
    + unfold extract. cbv zeta. simpl snd.
      rewrite next_set_next_same, heap_set_next. simpl next at 1.
      rewrite E.
      destruct prev as [l | q]; auto.
      apply chain_upd; [tauto | auto].
    + destruct I as [? | I]; [contradiction |].
      specialize (IH (Node x) C NDr I Nx). simpl in IH.
      destruct (pred_of_cases b r (Node x)) as [Ep | [y [Iy Ep]]];
        rewrite Ep in *; unfold extract in *; simpl snd in *;
        simpl heap in *; simpl next in IH.
      * (* the predecessor is [x] itself *)
        assert (Hx : next prev (set_next (Node x) (heap st (heap st x)) st) = x).
        { destruct prev as [l | q]; simpl; auto.
          destruct (Z.eqb_spec q x) as [-> | _]; auto.
          exfalso. apply P. now left. }
        rewrite Hx. repeat split; auto.
      * assert (Hx : next prev (set_next (Node y) (heap st (heap st y)) st) = x).
        { destruct prev as [l | q]; simpl; auto.
          destruct (Z.eqb_spec q y) as [-> | _]; auto.
          exfalso. apply P. now right. }
        rewrite Hx. repeat split; auto.
Qed.

(** * The list model: elementary facts *)

Lemma remove_first_In b x xs : In x (Spec.remove_first b xs) -> In x xs.
Proof.
  induction xs as [| y r IH]; simpl; auto.
  destruct (y =? b); simpl; intuition.
Qed.

Lemma remove_first_NoDup b xs : NoDup xs -> NoDup (Spec.remove_first b xs).
Proof.
  induction 1 as [| y r N ND IH]; simpl; [constructor |].
  destruct (y =? b); auto.
  constructor; auto. intros F. apply N. eapply remove_first_In; eauto.
Qed.

Lemma remove_first_In_iff b x xs :
  NoDup xs -> (In x (Spec.remove_first b xs) <-> In x xs /\ x <> b).
Proof.
  induction 1 as [| y r N ND IH]; simpl; [tauto |].
  destruct (Z.eqb_spec y b) as [-> | Nb]; simpl.
  - split.
    + intros I. split; auto. intros ->. contradiction.
    + intros [[E | I] Nx]; [congruence | exact I].
  - rewrite IH. split.
    + intros [E | [I Nx]]; split; auto; congruence.
    + intros [[E | I] Nx]; auto.
Qed.

Lemma remove_first_length b xs :
  (length (Spec.remove_first b xs) <= length xs)%nat.
Proof.
  induction xs as [| y r IH]; simpl; auto.
  destruct (y =? b); simpl; lia.
Qed.

Lemma existsb_eqb_In b xs : existsb (Z.eqb b) xs = true <-> In b xs.
Proof.
  rewrite existsb_exists. split.
  - intros [x [I E]]. apply Z.eqb_eq in E. congruence.
  - intros I. exists b. split; auto. apply Z.eqb_refl.
Qed.

Lemma store_inv_ext s s' F F' :
  (forall l, Spec.lists s l = Spec.lists s' l) ->
  Spec.break s = Spec.break s' -> Spec.limit s = Spec.limit s' ->
  (forall a z, F a z <-> F' a z) ->
  store_inv s F -> store_inv s' F'.
Proof.
  intros EL EB EM EF I.
  assert (EC : forall l a, cell s' l a <-> cell s l a).
  { intros l a. unfold cell. rewrite EL. tauto. }
  assert (EK : forall a z, block s' F' a z <-> block s F a z).
  { intros a z. unfold block. rewrite EF. split; intros [[l [C E]] | H]; auto;
      left; exists l; split; auto; apply EC; auto. }
  destruct I as [I1 I2 I3 I4 I5 I6]. constructor.
  - rewrite <- EB, <- EM. exact I1.
  - intros l L. rewrite <- EL. auto.
  - intros a z B. rewrite <- EB. apply I3. apply EK. exact B.
  - intros a1 z1 a2 z2 B1 B2. apply I4; apply EK; auto.
  - intros l a C. rewrite <- EF. apply I5. apply EC. exact C.
  - intros l a L. rewrite <- EL. auto.
Qed.

Lemma block_pos s F a z : store_inv s F -> block s F a z -> 0 < z.
Proof.
  intros I B. destruct (si_sound _ _ I a z B) as [_ [_ [l [_ ->]]]].
  apply levelSizeOf_pos.
Qed.

(** Two blocks in circulation that share a byte are the same block. *)
Lemma inv_overlap s F a1 z1 a2 z2 :
  store_inv s F -> block s F a1 z1 -> block s F a2 z2 ->
  a1 < a2 + z2 -> a2 < a1 + z1 -> a1 = a2 /\ z1 = z2.
Proof.
  intros I B1 B2 L1 L2.
  destruct (Z.eq_dec a1 a2) as [Ea | Na], (Z.eq_dec z1 z2) as [Ez | Nz]; auto;
    exfalso;
    (assert (A : apart a1 z1 a2 z2) by (apply (si_apart _ _ I); auto));
    unfold apart in A; lia.
Qed.

Lemma cell_block s F l a : cell s l a -> block s F a (Spec.levelSizeOf l).
Proof. intros C. left. exists l. auto. Qed.

Lemma held_block s (F : Z -> Z -> Prop) a z : F a z -> block s F a z.
Proof. intros H. right. exact H. Qed.

Lemma cell_level_unique s F l1 l2 a :
  store_inv s F -> cell s l1 a -> cell s l2 a -> l1 = l2.
Proof.
  intros I C1 C2.
  pose proof (levelSizeOf_pos l1). pose proof (levelSizeOf_pos l2).
  destruct (inv_overlap s F a (Spec.levelSizeOf l1) a (Spec.levelSizeOf l2) I)
    as [_ E]; try lia; try (eapply cell_block; eauto).
  apply levelSizeOf_inj; auto.
Qed.

Lemma cell_not_held s F l a z : store_inv s F -> cell s l a -> ~ F a z.
Proof.
  intros I C H.
  assert (B : block s F a z) by (right; exact H).
  pose proof (block_pos _ _ _ _ I B). pose proof (levelSizeOf_pos l).
  destruct (inv_overlap s F a (Spec.levelSizeOf l) a z I) as [_ E];
    try lia; auto; [eapply cell_block; eauto |].
  subst z. eapply si_excl; eauto.
Qed.

Lemma lists_with_list l xs s k :
  Spec.lists (Spec.with_list l xs s) k =
  if Nat.eqb k l then xs else Spec.lists s k.
Proof. reflexivity. Qed.

Lemma cell_with_list_remove s l b k x :
  cell (Spec.with_list l (Spec.remove_first b (Spec.lists s l)) s) k x ->
  cell s k x.
Proof.
  unfold cell. rewrite lists_with_list.
  destruct (Nat.eqb_spec k l) as [-> | N]; intros [L I]; split; auto.
  eapply remove_first_In; eauto.
Qed.

(** Taking a block off its free list makes it the floating block. *)
Lemma inv_take s G l b :
  store_inv s G -> (l < Spec.levelCount)%nat -> In b (Spec.lists s l) ->
  floating (Spec.with_list l (Spec.remove_first b (Spec.lists s l)) s)
           G b (Spec.levelSizeOf l).
Proof.
  intros I L Ib.
  set (s' := Spec.with_list l (Spec.remove_first b (Spec.lists s l)) s).
  assert (C0 : cell s l b) by (split; auto).
  assert (NG : ~ G b (Spec.levelSizeOf l)) by (eapply si_excl; eauto).
  assert (BK : forall x z, block s' (plus G b (Spec.levelSizeOf l)) x z ->
                           block s G x z).
  { intros x z [[k [C E]] | [H | [-> ->]]].
    - left. exists k. split; auto. eapply cell_with_list_remove; eauto.
    - right. exact H.
    - eapply cell_block; eauto. }
  split; auto. destruct I as [I1 I2 I3 I4 I5 I6]. constructor.
  - exact I1.
  - intros k K. unfold s'. rewrite lists_with_list.
    destruct (Nat.eqb k l); auto. apply remove_first_NoDup; auto.
  - intros x z B. apply (I3 x z). auto.
  - intros a1 z1 a2 z2 B1 B2. apply I4; auto.
  - intros k x C [H | [E1 E2]].
    + apply (I5 k x); auto. eapply cell_with_list_remove; eauto.
    + apply levelSizeOf_inj in E2. subst k x.
      destruct C as [_ C]. unfold s' in C. rewrite lists_with_list in C.
      rewrite Nat.eqb_refl in C.
      apply remove_first_In_iff in C; auto. tauto.
  - intros k x K. unfold s'. rewrite lists_with_list.
    destruct (Nat.eqb_spec k l) as [-> | N]; auto.
    intros Ix Ib'. apply remove_first_In in Ix. apply remove_first_In in Ib'.
    exact (I6 l x K Ix Ib').
Qed.

(** Putting the floating block on the free list of its level. *)
Lemma inv_push s G l a :
  floating s G a (Spec.levelSizeOf l) -> (l < Spec.levelCount)%nat ->
  ((S l < Spec.levelCount)%nat ->
   ~ In (Z.lxor a (Spec.levelSizeOf l)) (Spec.lists s l)) ->
  store_inv (Spec.insert l a s) G.
Proof.
  intros [I NG] L NP.
  set (z := Spec.levelSizeOf l) in *.
  assert (Fa : plus G a z a z) by (right; auto).
  assert (Pa : 0 < a).
  { destruct (si_sound _ _ I a z) as [P _]; auto. right. exact Fa. }
  assert (Na : ~ In a (Spec.lists s l)).
  { intros Ia. eapply (si_excl _ _ I l a); [split; auto | exact Fa]. }
  assert (CE : forall k x, cell (Spec.insert l a s) k x ->
                           cell s k x \/ (k = l /\ x = a)).
  { intros k x [K Ix]. unfold Spec.insert in Ix. rewrite lists_with_list in Ix.
    destruct (Nat.eqb_spec k l) as [-> | N].
    - destruct Ix as [<- | Ix]; [right; auto | left; split; auto].
    - left. split; auto. }
  assert (BK : forall x y, block (Spec.insert l a s) G x y ->
                           block s (plus G a z) x y).
  { intros x y [[k [C E]] | H].
    - destruct (CE k x C) as [C' | [-> ->]].
      + left. exists k. auto.
      + right. right. auto.
    - right. left. exact H. }
  constructor.
  - exact (si_break _ _ I).
  - intros k K. unfold Spec.insert. rewrite lists_with_list.
    destruct (Nat.eqb_spec k l) as [-> | N].
    + constructor; auto. apply (si_nodup _ _ I); auto.
    + apply (si_nodup _ _ I); auto.
  - intros x y B. apply (si_sound _ _ I x y). auto.
  - intros a1 z1 a2 z2 B1 B2. apply (si_apart _ _ I); auto.
  - intros k x C H. destruct (CE k x C) as [C' | [-> ->]].
    + apply (si_excl _ _ I k x C'). left. exact H.
    + apply NG. exact H.
  - intros k x K. unfold Spec.insert. rewrite lists_with_list.
    destruct (Nat.eqb_spec k l) as [-> | N].
    + fold z. intros [<- | Ix] [E | Ib].
      * symmetry in E. revert E. apply lxor_levelSizeOf_neq. lia.
      * apply NP; auto.
      * apply NP; auto.
        rewrite E. unfold z. rewrite lxor_levelSizeOf_invol. exact Ix.
      * apply (si_nopair _ _ I l x K Ix). exact Ib.
    + apply (si_nopair _ _ I); auto.
Qed.

(** One step of the split: the floating block is halved, its upper half
    goes to the (empty) free list of the level below. *)
Lemma inv_split_step s G a k :
  floating s G a (Spec.levelSizeOf (S k)) -> (S k < Spec.levelCount)%nat ->
  Spec.lists s k = [] ->
  floating (Spec.insert k (a + Spec.levelSizeOf k) s) G a (Spec.levelSizeOf k).
Proof.
  intros [I NG] K EM.
  pose proof (levelSizeOf_pos k) as Pz.
  pose proof (levelSizeOf_S k) as E2.
  set (z := Spec.levelSizeOf k) in *.
  set (z2 := Spec.levelSizeOf (S k)) in *.
  set (s' := Spec.insert k (a + z) s).
  assert (Fa : block s (plus G a z2) a z2) by (right; right; auto).
  destruct (si_sound _ _ I a z2 Fa) as [Pa [Ba _]].
  (* every other block in circulation lies outside the floating block *)
  assert (OUT : forall x y, block s (plus G a z2) x y ->
                  x <> a \/ y <> z2 -> x + y <= a \/ a + z2 <= x).
  { intros x y B N. apply (si_apart _ _ I x y a z2 B Fa N). }
  assert (POS : forall x y, block s (plus G a z2) x y -> 0 < y).
  { intros x y B. eapply block_pos; eauto. }
  assert (CL : forall x y, block s' (plus G a z) x y ->
            (block s (plus G a z2) x y /\ (x <> a \/ y <> z2)) \/
            (x = a /\ y = z) \/ (x = a + z /\ y = z)).
  { intros x y [[j [[J Ix] E]] | [H | [-> ->]]].
    - unfold s', Spec.insert in Ix. rewrite lists_with_list, EM in Ix.
      destruct (Nat.eqb_spec j k) as [-> | N].
      + destruct Ix as [<- | []]. right. right. auto.
      + left. split; [left; exists j; split; [split |]; auto |].
        destruct (Z.eq_dec x a) as [-> | Nx]; auto. right. subst y.
        intros Ej. apply levelSizeOf_inj in Ej. subst j.
        apply (si_excl _ _ I (S k) a); [split; auto | right; auto].
    - left. split; [right; left; exact H |].
      destruct (Z.eq_dec x a) as [-> | Nx]; auto. right. intros ->. auto.
    - right. left. auto. }
  assert (NGlo : ~ G a z).
  { intros H. assert (B : block s (plus G a z2) a z) by (right; left; exact H).
    destruct (OUT a z B); lia. }
  assert (NGhi : ~ G (a + z) z).
  { intros H. assert (B : block s (plus G a z2) (a + z) z) by (right; left; exact H).
    destruct (OUT (a + z) z B); lia. }
  split; auto. constructor.
  - exact (si_break _ _ I).
  - intros j J. unfold s', Spec.insert. rewrite lists_with_list, EM.
    destruct (Nat.eqb_spec j k) as [-> | N].
    + constructor; [intros [] | constructor].
    + apply (si_nodup _ _ I); auto.
  - intros x y B. change (Spec.break s') with (Spec.break s).
    destruct (CL x y B) as [[B' _] | [[-> ->] | [-> ->]]].
    + apply (si_sound _ _ I x y B').
    + split; [lia | split; [lia | exists k; split; [lv | reflexivity]]].
    + split; [lia | split; [lia | exists k; split; [lv | reflexivity]]].
  - intros a1 z1 a2 z2' B1 B2 N. unfold apart.
    destruct (CL a1 z1 B1) as [[B1' N1] | [[-> ->] | [-> ->]]];
      destruct (CL a2 z2' B2) as [[B2' N2] | [[-> ->] | [-> ->]]];
      try (pose proof (OUT _ _ B1' N1)); try (pose proof (OUT _ _ B2' N2));
      try (pose proof (POS _ _ B1')); try (pose proof (POS _ _ B2'));
      try lia.
    apply (si_apart _ _ I); auto.
  - intros j x [J Ix] [H | [-> Ej]].
    + unfold s', Spec.insert in Ix. rewrite lists_with_list, EM in Ix.
      destruct (Nat.eqb_spec j k) as [-> | N].
      * destruct Ix as [<- | []]. auto.
      * apply (si_excl _ _ I j x); [split; auto | left; exact H].
    + apply levelSizeOf_inj in Ej. subst j.
      unfold s', Spec.insert in Ix. rewrite lists_with_list, EM in Ix.
      rewrite Nat.eqb_refl in Ix. destruct Ix as [E | []]. lia.
  - intros j x J. unfold s', Spec.insert. rewrite lists_with_list, EM.
    destruct (Nat.eqb_spec j k) as [-> | N].
    + intros [<- | []] [E | []]. symmetry in E. revert E.
      apply lxor_levelSizeOf_neq. lia.
    + apply (si_nopair _ _ I); auto.
Qed.

(** One step of the merge: the buddy leaves its free list and the floating
    block becomes the block made of the two. *)
Lemma inv_merge s G a k :
  floating s G a (Spec.levelSizeOf k) -> (S k < Spec.levelCount)%nat ->
  In (Z.lxor a (Spec.levelSizeOf k)) (Spec.lists s k) ->
  floating
    (Spec.with_list k
       (Spec.remove_first (Z.lxor a (Spec.levelSizeOf k)) (Spec.lists s k)) s)
    G (Z.land a (Z.lnot (Spec.levelSizeOf k))) (Spec.levelSizeOf (S k)).
Proof.
  intros [I NG] K Ib.
  pose proof (levelSizeOf_pos k) as Pz.
  pose proof (levelSizeOf_S k) as E2.
  assert (Fa : block s (plus G a (Spec.levelSizeOf k)) a (Spec.levelSizeOf k))
    by (right; right; auto).
  destruct (si_sound _ _ I a _ Fa) as [Pa [Ba _]].
  pose proof (buddy_cases a k ltac:(lia)) as BC. cbv zeta in BC.
  set (z := Spec.levelSizeOf k) in *.
  set (z2 := Spec.levelSizeOf (S k)) in *.
  set (b := Z.lxor a z) in *.
  set (a' := Z.land a (Z.lnot z)) in *.
  set (s' := Spec.with_list k (Spec.remove_first b (Spec.lists s k)) s).
  assert (Cb : cell s k b) by (split; [lv | exact Ib]).
  assert (Fb : block s (plus G a z) b z) by (left; exists k; auto).
  destruct (si_sound _ _ I b z Fb) as [Pb [Bb _]].
  assert (OUTa : forall x y, block s (plus G a z) x y ->
                  x <> a \/ y <> z -> x + y <= a \/ a + z <= x).
  { intros x y B N. apply (si_apart _ _ I x y a z B Fa N). }
  assert (OUTb : forall x y, block s (plus G a z) x y ->
                  x <> b \/ y <> z -> x + y <= b \/ b + z <= x).
  { intros x y B N. apply (si_apart _ _ I x y b z B Fb N). }
  assert (POS : forall x y, block s (plus G a z) x y -> 0 < y).
  { intros x y B. eapply block_pos; eauto. }
  assert (CL : forall x y, block s' (plus G a' z2) x y ->
            (block s (plus G a z) x y /\ (x <> a \/ y <> z) /\ (x <> b \/ y <> z)) \/
            (x = a' /\ y = z2)).
  { intros x y [[j [C E]] | [H | [-> ->]]].
    - left.
      assert (Cx : cell s j x) by (eapply cell_with_list_remove; eauto).
      destruct C as [J Ix].
      unfold s' in Ix. rewrite lists_with_list in Ix.
      split; [left; exists j; auto |]. subst y. split.
      + destruct (Z.eq_dec x a) as [-> | Nx]; auto. right.
        intros Ej. apply levelSizeOf_inj in Ej. subst j.
        apply (si_excl _ _ I k a Cx). right. auto.
      + destruct (Z.eq_dec x b) as [-> | Nx]; auto. right.
        intros Ej. apply levelSizeOf_inj in Ej. subst j.
        rewrite Nat.eqb_refl in Ix.
        apply remove_first_In_iff in Ix; [tauto |].
        apply (si_nodup _ _ I). lv.
    - left. split; [right; left; exact H |]. split.
      + destruct (Z.eq_dec x a) as [-> | Nx]; auto. right. intros ->. auto.
      + destruct (Z.eq_dec x b) as [-> | Nx]; auto. right. intros ->.
        apply (si_excl _ _ I k b Cb). left. exact H.
    - right. auto. }
  assert (NG' : ~ G a' z2).
  { intros H. assert (B : block s (plus G a z) a' z2) by (right; left; exact H).
    assert (N : a' <> a \/ z2 <> z) by lia.
    assert (N' : a' <> b \/ z2 <> z) by lia.
    pose proof (OUTa _ _ B N). pose proof (OUTb _ _ B N').
    destruct BC as [[? ?] | [? [? ?]]]; lia. }
  split; auto. constructor.
  - exact (si_break _ _ I).
  - intros j J. unfold s'. rewrite lists_with_list.
    destruct (Nat.eqb j k); [apply remove_first_NoDup |];
      apply (si_nodup _ _ I); auto; lv.
  - intros x y B. change (Spec.break s') with (Spec.break s).
    destruct (CL x y B) as [[B' _] | [-> ->]].
    + apply (si_sound _ _ I x y B').
    + split; [| split; [| exists (S k); split; [lv | reflexivity]]];
        destruct BC as [[? ?] | [? [? ?]]]; lia.
  - intros a1 z1 a2 z2' B1 B2 N. unfold apart.
    destruct (CL a1 z1 B1) as [[B1' [N1 M1]] | [-> ->]];
      destruct (CL a2 z2' B2) as [[B2' [N2 M2]] | [-> ->]].
    + apply (si_apart _ _ I); auto.
    + pose proof (OUTa _ _ B1' N1). pose proof (OUTb _ _ B1' M1).
      pose proof (POS _ _ B1').
      destruct BC as [[? ?] | [? [? ?]]]; lia.
    + pose proof (OUTa _ _ B2' N2). pose proof (OUTb _ _ B2' M2).
      pose proof (POS _ _ B2').
      destruct BC as [[? ?] | [? [? ?]]]; lia.
    + lia.
  - intros j x C [H | [-> Ej]].
    + assert (Cx : cell s j x) by (eapply cell_with_list_remove; eauto).
      apply (si_excl _ _ I j x Cx). left. exact H.
    + apply levelSizeOf_inj in Ej. subst j.
      assert (Cx : cell s (S k) a') by (eapply cell_with_list_remove; eauto).
      assert (B : block s (plus G a z) a' z2) by (left; exists (S k); auto).
      assert (N : a' <> a \/ z2 <> z) by lia.
      assert (N' : a' <> b \/ z2 <> z) by lia.
      pose proof (OUTa _ _ B N). pose proof (OUTb _ _ B N').
      destruct BC as [[? ?] | [? [? ?]]]; lia.
  - intros j x J. unfold s'. rewrite lists_with_list.
    destruct (Nat.eqb_spec j k) as [-> | N].
    + intros Ix Iy. apply remove_first_In in Ix. apply remove_first_In in Iy.
      exact (si_nopair _ _ I k x J Ix Iy).
    + apply (si_nopair _ _ I); auto.
Qed.

(** Growing the heap: the fresh region floats as one top-level block. *)
Lemma inv_grow s G :
  store_inv s G -> Spec.break s + Spec.maxSize <= Spec.limit s ->
  floating (Spec.mkStore (Spec.lists s) (Spec.break s + Spec.maxSize) (Spec.limit s))
           G (Spec.break s) Spec.maxSize.
Proof.
  intros I L. rewrite spec_maxSize_value in *.
  set (s' := Spec.mkStore (Spec.lists s) (Spec.break s + 4096) (Spec.limit s)).
  destruct (si_break _ _ I) as [B1 [B2 B3]].
  assert (CL : forall x y, block s' (plus G (Spec.break s) 4096) x y ->
                 block s G x y \/ (x = Spec.break s /\ y = 4096)).
  { intros x y [[j C] | [H | E]]; auto.
    - left. left. exists j. exact C.
    - left. right. exact H. }
  assert (NG : ~ G (Spec.break s) 4096).
  { intros H. destruct (si_sound _ _ I (Spec.break s) 4096) as [_ [X _]]; [| lia].
    right. exact H. }
  split; auto. constructor.
  - simpl. lia.
  - intros j J. apply (si_nodup _ _ I); auto.
  - intros x y B. simpl Spec.break.
    destruct (CL x y B) as [B' | [-> ->]].
    + destruct (si_sound _ _ I x y B') as [X1 [X2 X3]].
      split; [| split]; auto. lia.
    + split; [| split; [| exists 7%nat; split; [lv | reflexivity]]]; lia.
  - intros a1 z1 a2 z2 Ba Bb N. unfold apart.
    destruct (CL a1 z1 Ba) as [Ba' | [-> ->]];
      destruct (CL a2 z2 Bb) as [Bb' | [-> ->]].
    + apply (si_apart _ _ I); auto.
    + destruct (si_sound _ _ I _ _ Ba') as [_ [X _]]. lia.
    + destruct (si_sound _ _ I _ _ Bb') as [_ [X _]]. lia.
    + lia.
  - intros j x C [H | [-> Ej]].
    + apply (si_excl _ _ I j x C H).
    + destruct (si_sound _ _ I (Spec.break s) (Spec.levelSizeOf j)) as [_ [X _]].
      * eapply cell_block. exact C.
      * pose proof (levelSizeOf_pos j). lia.
  - intros j x J. apply (si_nopair _ _ I); auto.
Qed.

(** The blocks held by the callers, before and after a call. *)
Lemma held_cons_iff h outs a z :
  held (h :: outs) a z <-> plus (held outs) (memory h) (size h) a z.
Proof.
  unfold held, plus. simpl. destruct h as [m y]. simpl. split.
  - intros [E | I]; [right; inversion E; auto | left; exact I].
  - intros [I | [-> ->]]; auto.
Qed.

Lemma held_remove_iff h outs a z :
  In h outs ->
  (held outs a z <->
   plus (held (remove Allocation_eq_dec h outs)) (memory h) (size h) a z).
Proof.
  intros Ih. unfold held, plus. split.
  - intros I. destruct (Allocation_eq_dec (mkAllocation a z) h) as [<- | N].
    + right. auto.
    + left. apply in_in_remove; auto.
  - intros [I | [-> ->]].
    + apply in_remove in I. tauto.
    + destruct h. exact Ih.
Qed.

Lemma not_held_remove h outs :
  ~ held (remove Allocation_eq_dec h outs) (memory h) (size h).
Proof.
  unfold held. destruct h as [m y]. simpl. apply remove_In.
Qed.

(** * The code against the list model: the free-list primitives *)

Lemma represents_empty st s l :
  represents st s -> (l < maxLevels)%nat ->
  empty (Head l) st = Spec.isEmpty l s.
Proof.
  intros [R _] L. specialize (R l L). unfold free_list in R.
  unfold empty, Spec.isEmpty. simpl next.
  destruct (Spec.lists s l) as [| x r]; simpl in R.
  - rewrite R. reflexivity.
  - destruct R as [E [N _]]. rewrite E. apply Z.eqb_neq. exact N.
Qed.

Lemma represents_extract st s l m r :
  represents st s -> (l < maxLevels)%nat -> Spec.lists s l = m :: r ->
  fst (extract (Head l) st) = m /\
  represents (snd (extract (Head l) st)) (Spec.with_list l r s).
Proof.
  intros [R [RB RL]] L E.
  pose proof (R l L) as C. unfold free_list in C. rewrite E in C.
  destruct C as [Eh [N C]].
  unfold extract. simpl. split; [exact Eh |].
  split; [| split; auto].
  intros k K. unfold free_list. rewrite lists_with_list. simpl.
  destruct (Nat.eqb_spec k l) as [-> | Nk].
  - rewrite Eh. exact C.
  - apply R. exact K.
Qed.

Lemma represents_emplace st s l a :
  represents st s -> (l < maxLevels)%nat -> a <> 0 ->
  (forall k, (k < maxLevels)%nat -> ~ In a (Spec.lists s k)) ->
  represents (emplace (Head l) a st) (Spec.insert l a s).
Proof.
  intros [R [RB RL]] L N Fr.
  split; [| split; auto].
  intros k K. unfold free_list, emplace, Spec.insert.
  rewrite lists_with_list. simpl.
  fold (upd (heap st) a (fList st l)).
  destruct (Nat.eqb_spec k l) as [-> | Nk].
  - simpl. repeat split; auto.
    unfold upd at 2. rewrite Z.eqb_refl.
    apply chain_upd; auto. apply R. exact L.
  - apply chain_upd; auto. apply R. exact K.
Qed.

Lemma represents_absent st s l b fuel :
  represents st s -> (l < maxLevels)%nat ->
  ~ In b (Spec.lists s l) -> (length (Spec.lists s l) < fuel)%nat ->
  scavenge fuel (Head l) b st = Some None.
Proof.
  intros [R _] L N F. eapply scavenge_absent; eauto. apply R. exact L.
Qed.

Lemma represents_remove st s l b fuel :
  represents st s -> (l < maxLevels)%nat ->
  NoDup (Spec.lists s l) ->
  (forall k a, (k < maxLevels)%nat -> k <> l ->
               In a (Spec.lists s l) -> ~ In a (Spec.lists s k)) ->
  In b (Spec.lists s l) -> (length (Spec.lists s l) < fuel)%nat ->
  exists p,
    scavenge fuel (Head l) b st = Some (Some p) /\
    represents (snd (extract p st))
               (Spec.with_list l (Spec.remove_first b (Spec.lists s l)) s).
Proof.
  intros [R [RB RL]] L ND X Ib F.
  pose proof (R l L) as C. unfold free_list in C.
  exists (pred_of b (Spec.lists s l) (Head l)). split.
  - apply scavenge_present; auto.
  - pose proof (unlink_chain st b (Spec.lists s l) (Head l) C ND Ib I) as U.
    cbv zeta in U.
    split; [| split].
    + intros k K. unfold free_list. rewrite lists_with_list.
      destruct (Nat.eqb_spec k l) as [-> | Nk]; [exact U |].
      unfold extract. simpl snd.
      destruct (pred_of_cases b (Spec.lists s l) (Head l)) as [E | [y [Iy E]]];
        rewrite E.
      * simpl. destruct (Nat.eqb_spec k l); [contradiction |].
        apply R. exact K.
      * simpl. apply chain_upd; [apply X; auto |]. apply R. exact K.
    + unfold extract. simpl snd. rewrite brk_set_next. exact RB.
    + unfold extract. simpl snd. rewrite rlimit_set_next. exact RL.
Qed.

(** * The code against the list model: [allocate] *)

Lemma scan_some n : forall t s l m s1,
  Spec.scan n t s = Some (l, m, s1) ->
  (t <= l < t + n)%nat /\
  (forall k, (t <= k < l)%nat -> Spec.lists s k = []) /\
  exists r, Spec.lists s l = m :: r /\ s1 = Spec.with_list l r s.
Proof.
  induction n as [| n IH]; intros t s l m s1 H; simpl in H; [discriminate |].
  unfold Spec.isEmpty, Spec.takeHead in H.
  destruct (Spec.lists s t) as [| x r] eqn:E.
  - apply IH in H. destruct H as [B [Em R]].
    split; [lia |]. split; auto.
    intros k K. destruct (Nat.eq_dec k t) as [-> | N]; auto. apply Em. lia.
  - inversion H; subst. split; [lia |]. split; [intros; lia |].
    exists r. auto.
Qed.

Lemma scan_none n : forall t s,
  Spec.scan n t s = None ->
  forall k, (t <= k < t + n)%nat -> Spec.lists s k = [].
Proof.
  induction n as [| n IH]; intros t s H k K; simpl in H; [lia |].
  unfold Spec.isEmpty, Spec.takeHead in H.
  destruct (Spec.lists s t) as [| x r] eqn:E; [| discriminate].
  destruct (Nat.eq_dec k t) as [-> | N]; auto.
  apply (IH (S t) s H). lia.
Qed.

Lemma find_block_refines st s : forall n t,
  represents st s -> (t + n <= maxLevels)%nat ->
  find_block n t st =
  match Spec.scan n t s with
  | Some (l, m, _) => (m, Some l, snd (extract (Head l) st))
  | None => (0, None, st)
  end.
Proof.
  induction n as [| n IH]; intros t R B; simpl; [reflexivity |].
  rewrite (represents_empty st s t R) by lia.
  unfold Spec.isEmpty, Spec.takeHead.
  destruct (Spec.lists s t) as [| x r] eqn:E; simpl.
  - apply IH; auto. lia.
  - destruct (represents_extract st s t x r R ltac:(lia) E) as [E1 _].
    unfold extract in *. simpl in *. rewrite E1. reflexivity.
Qed.

Lemma splitDown_lists c : forall t m s k,
  Spec.lists (Spec.splitDown c t m s) k =
  if ((t <=? k) && (k <? c))%nat
  then (m + Spec.levelSizeOf k) :: Spec.lists s k
  else Spec.lists s k.
Proof.
  induction c as [| c IH]; intros t m s k; simpl.
  - rewrite andb_false_r. reflexivity.
  - destruct (Nat.ltb_spec t (S c)) as [L | G].
    + rewrite IH. unfold Spec.insert. rewrite lists_with_list.
      destruct (Nat.leb_spec t k), (Nat.ltb_spec k c), (Nat.ltb_spec k (S c)),
        (Nat.eqb_spec k c); simpl; try lia; subst; auto.
    + destruct (Nat.leb_spec t k), (Nat.ltb_spec k (S c)); simpl; auto; lia.
Qed.

Lemma splitDown_break c : forall t m s,
  Spec.break (Spec.splitDown c t m s) = Spec.break s /\
  Spec.limit (Spec.splitDown c t m s) = Spec.limit s.
Proof.
  induction c as [| c IH]; intros t m s; simpl; auto.
  destruct (t <? S c)%nat; auto.
  destruct (IH t m (Spec.insert c (m + Spec.levelSizeOf c) s)) as [E1 E2].
  rewrite E1, E2. auto.
Qed.

(** A block that floats is on no free list. *)
Lemma floating_fresh s G a z k :
  floating s G a z -> (k < Spec.levelCount)%nat -> ~ In a (Spec.lists s k).
Proof.
  intros [I _] K Ia.
  eapply (cell_not_held s (plus G a z) k a z I); [split; auto | right; auto].
Qed.

Lemma inserted_fresh s G l a k :
  store_inv (Spec.insert l a s) G -> (l < Spec.levelCount)%nat ->
  (k < Spec.levelCount)%nat -> ~ In a (Spec.lists s k).
Proof.
  intros I L K Ia.
  destruct (Nat.eq_dec k l) as [-> | N].
  - pose proof (si_nodup _ _ I l L) as ND.
    unfold Spec.insert in ND. rewrite lists_with_list, Nat.eqb_refl in ND.
    apply NoDup_cons_iff in ND. tauto.
  - apply N. apply (cell_level_unique (Spec.insert l a s) G k l a I).
    + split; auto. unfold Spec.insert. rewrite lists_with_list.
      destruct (Nat.eqb_spec k l); [contradiction | exact Ia].
    + split; auto. unfold Spec.insert. rewrite lists_with_list, Nat.eqb_refl.
      now left.
Qed.

Lemma split_refines : forall c t m st s G,
  represents st s -> floating s G m (Spec.levelSizeOf c) ->
  (t <= c < maxLevels)%nat ->
  (forall k, (t <= k < c)%nat -> Spec.lists s k = []) ->
  exists st',
    split c t m st = Ret st' /\
    represents st' (Spec.splitDown c t m s) /\
    floating (Spec.splitDown c t m s) G m (Spec.levelSizeOf t).
Proof.
  induction c as [| c IH]; intros t m st s G R Fl B Em; simpl.
  - exists st. assert (t = 0)%nat by lia. subst t. auto.
  - destruct (Nat.ltb_spec t (S c)) as [L | Ge].
    + rewrite levelSize_at_lt by lia.
      pose proof (inv_split_step s G m c Fl ltac:(lv) (Em c ltac:(lia))) as Fl'.
      destruct Fl as [I NG].
      destruct (si_sound _ _ I m (Spec.levelSizeOf (S c))) as [Pm [Bm _]];
        [right; right; auto |].
      destruct (si_break _ _ I) as [_ [B2 B3]].
      pose proof (levelSizeOf_pos c) as Pz.
      pose proof (levelSizeOf_S c) as E2.
      rewrite Z.mod_small by lia.
      assert (R' : represents (emplace (Head c) (m + Spec.levelSizeOf c) st)
                              (Spec.insert c (m + Spec.levelSizeOf c) s)).
      { apply represents_emplace; auto; [lia | lia |].
        intros k K. eapply inserted_fresh; [exact (proj1 Fl') | lv | lv]. }
      apply (IH t m _ _ G R' Fl'); [lia |].
      intros k K. unfold Spec.insert. rewrite lists_with_list.
      destruct (Nat.eqb_spec k c); [lia |]. apply Em. lia.
    + exists st. assert (t = S c) by lia. subst t. auto.
Qed.

(** [allocate] does what the design says, on every well-formed store. *)
Lemma allocate_refines st s G n t :
  represents st s -> store_inv s G ->
  lookup_level n = Some t -> (t < maxLevels)%nat ->
  match Spec.allocateAt t s with
  | Some (a, z, s') =>
      exists st', allocate n st = Ret (mkAllocation a z, st') /\
                  represents st' s' /\ floating s' G a z /\
                  z = Spec.levelSizeOf t
  | None => allocate n st = BadAlloc st
  end.
Proof.
  intros R I LK T.
  unfold allocate, Spec.allocateAt. rewrite LK.
  rewrite (find_block_refines st s) by (auto; lia).
  change Spec.levelCount with maxLevels.
  destruct (Spec.scan (maxLevels - t) t s) as [[[l m] s1] |] eqn:SC.
  - destruct (scan_some _ _ _ _ _ _ SC) as [B [Em [r [E ->]]]].
    destruct (represents_extract st s l m r R ltac:(lia) E) as [_ R1].
    assert (C : cell s l m) by (split; [lv | rewrite E; now left]).
    destruct (si_sound _ _ I m _ (cell_block s G l m C)) as [Pm [Bm _]].
    destruct (si_break _ _ I) as [_ [B2 B3]].
    pose proof (levelSizeOf_pos l) as Pz.
    assert (Fl : floating (Spec.with_list l r s) G m (Spec.levelSizeOf l)).
    { pose proof (inv_take s G l m I ltac:(lv) ltac:(rewrite E; now left)) as X.
      rewrite E in X. simpl in X. rewrite Z.eqb_refl in X. exact X. }
    destruct (split_refines l t m _ _ G R1 Fl ltac:(lia)) as [st' [S1 [R' Fl']]].
    { intros k K. rewrite lists_with_list.
      destruct (Nat.eqb_spec k l); [lia |]. apply Em. lia. }
    exists st'.
    destruct (Z.eqb_spec m 0) as [? | _]; [lia |].
    destruct (Z.eqb_spec m sbrk_failed) as [Ef | _];
      [unfold sbrk_failed in Ef; lia |].
    rewrite levelSize_at_lt by auto. rewrite S1. auto.
  - pose proof (scan_none _ _ _ SC) as Em.
    destruct R as [RL [RB RM]].
    destruct (si_break _ _ I) as [B1 [B2 B3]].
    rewrite Z.eqb_refl. unfold sbrk, Spec.growByMaxBlock.
    rewrite RB, RM, maxSize_value, spec_maxSize_value.
    destruct (Z.leb_spec (Spec.break s + 4096) (Spec.limit s)) as [Le | Gt].
    + set (st1 := mkState (fList st) (heap st) (Spec.break s + 4096) (Spec.limit s)).
      set (s1 := Spec.mkStore (Spec.lists s) (Spec.break s + 4096) (Spec.limit s)).
      assert (R1 : represents st1 s1).
      { split; [| split]; auto. }
      assert (Fl : floating s1 G (Spec.break s) (Spec.levelSizeOf 7)).
      { apply (inv_grow s G I). rewrite spec_maxSize_value. exact Le. }
      destruct (split_refines 7 t (Spec.break s) _ _ G R1 Fl ltac:(lv))
        as [st' [S1 [R' Fl']]].
      { intros k K. apply Em. lv. }
      exists st'.
      destruct (Z.eqb_spec (Spec.break s) sbrk_failed) as [Ef | _];
        [unfold sbrk_failed in Ef; lia |].
      rewrite levelSize_at_lt by auto.
      change (maxLevels - 1)%nat with 7%nat.
      change (Spec.levelCount - 1)%nat with 7%nat.
      rewrite S1. auto.
    + rewrite Z.eqb_refl. reflexivity.
Qed.

(** * The code against the list model: [deallocate] *)

Lemma cross_level_distinct s G l k a :
  store_inv s G -> (l < maxLevels)%nat -> (k < maxLevels)%nat -> k <> l ->
  In a (Spec.lists s l) -> ~ In a (Spec.lists s k).
Proof.
  intros I L K N Ia Ik. apply N.
  apply (cell_level_unique s G k l a I); split; auto; lv.
Qed.

Lemma bubble_S n fuel mem sz lv st :
  bubble (S n) fuel mem sz lv st =
  if sz =? maxSize then Ret (mem, sz, lv, st)
  else
    match levelSize_at lv with
    | None => Undefined
    | Some s =>
        match scavenge fuel (Head lv) (Z.lxor mem s) st with
        | None => OutOfFuel
        | Some None => Ret (mem, sz, lv, st)
        | Some (Some prev) =>
            bubble n fuel (Z.land mem (lnot64 s)) (Z.shiftl sz 1 mod word)
                   (S lv) (snd (extract prev st))
        end
    end.
Proof. reflexivity. Qed.

Lemma coalesce_S n address sz level s :
  Spec.coalesce (S n) address sz level s =
  if sz =? Spec.maxSize then (address, level, s)
  else
    match Spec.removeIfPresent level (Z.lxor address (Spec.levelSizeOf level)) s with
    | (false, _) => (address, level, s)
    | (true, s') =>
        Spec.coalesce n (Z.land address (Z.lnot (Spec.levelSizeOf level)))
                      (2 * sz) (S level) s'
    end.
Proof. reflexivity. Qed.

Lemma bubble_refines : forall n ns fuel a lv st s G,
  represents st s -> floating s G a (Spec.levelSizeOf lv) ->
  (lv < maxLevels)%nat -> (maxLevels - lv <= n)%nat -> (maxLevels - lv <= ns)%nat ->
  (forall l, (l < maxLevels)%nat -> (length (Spec.lists s l) < fuel)%nat) ->
  exists a' lv' s' st',
    Spec.coalesce ns a (Spec.levelSizeOf lv) lv s = (a', lv', s') /\
    bubble n fuel a (Spec.levelSizeOf lv) lv st =
      Ret (a', Spec.levelSizeOf lv', lv', st') /\
    represents st' s' /\
    floating s' G a' (Spec.levelSizeOf lv') /\
    (lv <= lv' < maxLevels)%nat /\
    ((S lv' < maxLevels)%nat ->
     ~ In (Z.lxor a' (Spec.levelSizeOf lv')) (Spec.lists s' lv')).
Proof.
  induction n as [| n IH]; intros ns fuel a lv st s G R Fl L N NS F.
  - lv.
  - destruct ns as [| ns]; [lv |]. rewrite bubble_S, coalesce_S.
    rewrite maxSize_value, spec_maxSize_value.
    destruct (Z.eqb_spec (Spec.levelSizeOf lv) 4096) as [E | NE].
    + change 4096 with (Spec.levelSizeOf 7) in E. apply levelSizeOf_inj in E.
      subst lv. exists a, 7%nat, s, st.
      split; [reflexivity |]. split; [reflexivity |]. split; [exact R |].
      split; [exact Fl |]. split; [lv |]. intros X. lv.
    + assert (L7 : (S lv < maxLevels)%nat).
      { destruct (Nat.eq_dec lv 7) as [-> | X]; [exfalso; apply NE; reflexivity | lv]. }
      rewrite levelSize_at_lt by auto.
      destruct Fl as [I NG].
      destruct (si_sound _ _ I a (Spec.levelSizeOf lv)) as [Pa [Ba _]];
        [right; right; auto |].
      destruct (si_break _ _ I) as [_ [B2 B3]].
      pose proof (levelSizeOf_pos lv) as Pz.
      unfold Spec.removeIfPresent.
      destruct (existsb (Z.eqb (Z.lxor a (Spec.levelSizeOf lv))) (Spec.lists s lv)) eqn:EX.
      * apply existsb_eqb_In in EX.
        destruct (represents_remove st s lv (Z.lxor a (Spec.levelSizeOf lv)) fuel R L)
          as [p [SV R1]]; auto.
        { apply (si_nodup _ _ I). lv. }
        { intros k x K Nk Ix. apply (cross_level_distinct s _ lv k x I); auto. }
        rewrite SV.
        pose proof (inv_merge s G a lv (conj I NG) ltac:(lv) EX) as Fl1.
        rewrite land_lnot64 by lia.
        rewrite Z.shiftl_mul_pow2 by lia. change (2 ^ 1) with 2.
        rewrite Z.mod_small.
        2:{ pose proof (levelSizeOf_le_max lv ltac:(lv)). unfold word. lia. }
        replace (Spec.levelSizeOf lv * 2) with (Spec.levelSizeOf (S lv))
          by (rewrite levelSizeOf_S; lia).
        replace (2 * Spec.levelSizeOf lv) with (Spec.levelSizeOf (S lv))
          by (rewrite levelSizeOf_S; lia).
        destruct (IH ns fuel _ (S lv) _ _ G R1 Fl1 L7 ltac:(lv) ltac:(lv))
          as [a' [lv' [s' [st' [C1 [C2 [C3 [C4 [C5 C6]]]]]]]]].
        { intros l Ll. rewrite lists_with_list.
          destruct (Nat.eqb_spec l lv) as [-> | X]; auto.
          eapply Nat.le_lt_trans; [apply remove_first_length | auto]. }
        exists a', lv', s', st'.
        split; [exact C1 |]. split; [exact C2 |]. split; [exact C3 |].
        split; [exact C4 |]. split; [lia | exact C6].
      * assert (NI : ~ In (Z.lxor a (Spec.levelSizeOf lv)) (Spec.lists s lv)).
        { intros X. apply existsb_eqb_In in X. congruence. }
        rewrite (represents_absent st s lv (Z.lxor a (Spec.levelSizeOf lv)) fuel R L NI (F lv L)).
        exists a, lv, s, st.
        split; [reflexivity |]. split; [reflexivity |]. split; [exact R |].
        split; [exact (conj I NG) |]. split; [lia |]. intros _. exact NI.
Qed.

Lemma fold_max_ge (f : nat -> nat) xs x :
  In x xs -> (f x <= fold_right Nat.max 0 (map f xs))%nat.
Proof.
  induction xs as [| y r IH]; simpl; [tauto |].
  intros [-> | I]; [lia |]. specialize (IH I). lia.
Qed.

Lemma longest_ge s l :
  (l < maxLevels)%nat -> (length (Spec.lists s l) <= longest s)%nat.
Proof.
  intros L. unfold longest.
  apply (fold_max_ge (fun l => length (Spec.lists s l))).
  apply in_seq. lv.
Qed.

Lemma deallocate_refines st s G h fuel :
  represents st s -> floating s G (memory h) (size h) ->
  (maxLevels + longest s < fuel)%nat ->
  exists s' st',
    Spec.deallocate (memory h) (size h) s = (0, 0, s') /\
    deallocate fuel h st = Ret (null_allocation, st') /\
    represents st' s' /\ store_inv s' G.
Proof.
  intros R Fl F.
  destruct (si_sound _ _ (proj1 Fl) (memory h) (size h)) as [Pm [Bm [l [L E]]]];
    [right; right; auto |].
  rewrite E in *.
  assert (L' : (l < maxLevels)%nat) by lv.
  destruct (bubble_refines fuel Spec.levelCount fuel (memory h) l st s G R Fl L')
    as [a' [lv' [s' [st' [C1 [C2 [C3 [C4 [C5 C6]]]]]]]]]; try lv.
  { intros k K. pose proof (longest_ge s k K). lia. }
  exists (Spec.insert lv' a' s'), (emplace (Head lv') a' st').
  destruct (si_sound _ _ (proj1 C4) a' (Spec.levelSizeOf lv')) as [Pa _];
    [right; right; auto |].
  split; [| split; [| split]].
  - unfold Spec.deallocate.
    destruct (Z.eqb_spec (memory h) 0); [lia |].
    rewrite spec_levelOfSize_levelSizeOf by auto. rewrite C1. reflexivity.
  - unfold deallocate.
    destruct (Z.eqb_spec (memory h) 0); [lia |].
    rewrite E, lookup_level_levelSizeOf by auto. rewrite C2.
    destruct (Nat.ltb_spec lv' maxLevels); [reflexivity | lia].
  - apply represents_emplace; auto; [lia | lia |].
    intros k K. eapply floating_fresh; eauto.
  - apply inv_push; auto. lv.
Qed.

Lemma bubble_mono : forall n n' fuel fuel' mem sz lv st r,
  bubble n fuel mem sz lv st = Ret r ->
  (n <= n')%nat -> (fuel <= fuel')%nat ->
  bubble n' fuel' mem sz lv st = Ret r.
Proof.
  induction n as [| n IH]; intros n' fuel fuel' mem sz lv st r H N F.
  - discriminate.
  - destruct n' as [| n']; [lia |]. rewrite bubble_S in *.
    destruct (sz =? maxSize); auto.
    destruct (levelSize_at lv) as [z |]; [| discriminate].
    destruct (scavenge fuel (Head lv) (Z.lxor mem z) st) as [o |] eqn:SV;
      [| discriminate].
    rewrite (scavenge_mono st _ fuel fuel' _ o SV F).
    destruct o as [p |]; auto.
    apply (IH n' fuel fuel'); auto. lia.
Qed.

Lemma deallocate_mono fuel fuel' h st r :
  deallocate fuel h st = Ret r -> (fuel <= fuel')%nat ->
  deallocate fuel' h st = Ret r.
Proof.
  unfold deallocate. intros H F.
  destruct (memory h =? 0); auto.
  destruct (lookup_level (size h)) as [lv |]; [| discriminate].
  destruct (bubble fuel fuel (memory h) (size h) lv st) as [x | | |] eqn:B;
    try discriminate.
  rewrite (bubble_mono _ fuel' _ fuel' _ _ _ _ _ B F F). exact H.
Qed.

(** * Every reachable state is a well-formed store *)

Lemma initial_inv st :
  initial st ->
  let s := Spec.mkStore (fun _ => []) (brk st) (rlimit st) in
  represents st s /\ store_inv s (held []).
Proof.
  intros [H0 [H1 [H2 H3]]] s. split.
  - split; [| split]; auto.
  - assert (NB : forall a z, ~ block s (held []) a z).
    { intros a z [[l [[_ []] _]] | []]. }
    constructor.
    + simpl. auto.
    + intros. simpl. constructor.
    + intros a z B. destruct (NB a z B).
    + intros a1 z1 a2 z2 B. destruct (NB a1 z1 B).
    + intros l a [_ []].
    + intros l a _ [].
Qed.

Lemma allocate_level sz st h st' :
  allocate sz st = Ret (h, st') -> exists t, lookup_level sz = Some t.
Proof.
  unfold allocate. destruct (lookup_level sz) as [t |]; [eauto | discriminate].
Qed.

Lemma allocate_inv st s outs sz h st' :
  represents st s -> store_inv s (held outs) -> 0 <= sz ->
  allocate sz st = Ret (h, st') ->
  exists t s',
    lookup_level sz = Some t /\ (t < maxLevels)%nat /\
    Spec.allocateAt t s = Some (memory h, size h, s') /\
    size h = Spec.levelSizeOf t /\
    represents st' s' /\ store_inv s' (held (h :: outs)) /\
    floating s' (held outs) (memory h) (size h).
Proof.
  intros R I P A.
  destruct (allocate_level _ _ _ _ A) as [t LK].
  pose proof (lookup_level_bound sz t P LK) as T.
  pose proof (allocate_refines st s (held outs) sz t R I LK T) as X.
  destruct (Spec.allocateAt t s) as [[[a z] s'] |] eqn:SA.
  - destruct X as [st'' [A' [R' [Fl Ez]]]].
    rewrite A in A'. inversion A'; subst h st''. simpl.
    exists t, s'.
    split; [exact LK |]. split; [exact T |]. split; [exact SA |].
    split; [exact Ez |]. split; [exact R' |]. split; [| exact Fl].
    eapply store_inv_ext; [| | | | exact (proj1 Fl)]; auto.
    intros x y. symmetry. apply (held_cons_iff (mkAllocation a z)).
  - rewrite A in X. discriminate.
Qed.

Lemma deallocate_inv st s outs fuel h h' st' :
  represents st s -> store_inv s (held outs) -> In h outs ->
  deallocate fuel h st = Ret (h', st') ->
  exists s',
    Spec.deallocate (memory h) (size h) s = (0, 0, s') /\
    h' = null_allocation /\
    represents st' s' /\
    store_inv s' (held (remove Allocation_eq_dec h outs)).
Proof.
  intros R I Ih D.
  assert (Fl : floating s (held (remove Allocation_eq_dec h outs))
                        (memory h) (size h)).
  { split; [| apply not_held_remove].
    eapply store_inv_ext; [| | | | exact I]; auto.
    intros a z. apply held_remove_iff. exact Ih. }
  set (f := (fuel + S (maxLevels + longest s))%nat).
  destruct (deallocate_refines st s _ h f R Fl ltac:(lia))
    as [s' [st'' [D1 [D2 [R' I']]]]].
  rewrite (deallocate_mono fuel f h st _ D ltac:(lia)) in D2.
  inversion D2; subst. exists s'. auto.
Qed.

(** Every reachable state represents a store that satisfies the invariant,
    with the callers' handles as the held blocks. *)
Theorem reachable_inv st outs :
  reachable st outs -> exists s, represents st s /\ store_inv s (held outs).
Proof.
  induction 1 as [st H | st outs sz h st' H IH P A | st outs fuel h h' st' H IH Ih D].
  - eexists. apply initial_inv. exact H.
  - destruct IH as [s [R I]].
    destruct (allocate_inv st s outs sz h st' R I ltac:(lia) A)
      as [t [s' [_ [_ [_ [_ [R' [I' _]]]]]]]].
    exists s'. auto.
  - destruct IH as [s [R I]].
    destruct (deallocate_inv st s outs fuel h h' st' R I Ih D)
      as [s' [_ [_ [R' I']]]].
    exists s'. auto.
Qed.

(** The blocks on the free lists of a reachable state are at least
    [minSize] bytes apart: the [next] words of two free blocks never share
    a byte. *)
Theorem free_blocks_apart st outs l1 l2 xs1 xs2 a1 a2 :
  reachable st outs ->
  (l1 < maxLevels)%nat -> (l2 < maxLevels)%nat ->
  free_list st l1 xs1 -> free_list st l2 xs2 ->
  In a1 xs1 -> In a2 xs2 -> a1 <> a2 ->
  a1 + minSize <= a2 \/ a2 + minSize <= a1.
Proof.
  intros H L1 L2 F1 F2 I1 I2 N.
  destruct (reachable_inv st outs H) as [s [[R _] I]].
  rewrite (chain_inj _ _ _ _ F1 (R l1 L1)) in I1.
  rewrite (chain_inj _ _ _ _ F2 (R l2 L2)) in I2.
  assert (B1 : block s (held outs) a1 (Spec.levelSizeOf l1))
    by (left; exists l1; split; [split; [lv | exact I1] | reflexivity]).
  assert (B2 : block s (held outs) a2 (Spec.levelSizeOf l2))
    by (left; exists l2; split; [split; [lv | exact I2] | reflexivity]).
  pose proof (si_apart _ _ I _ _ _ _ B1 B2 (or_introl N)) as A.
  assert (M : forall l, minSize <= Spec.levelSizeOf l).
  { intros l. change minSize with (Spec.levelSizeOf 0).
    destruct l; [lia |]. apply Z.lt_le_incl, levelSizeOf_mono. lia. }
  pose proof (M l1). pose proof (M l2). unfold apart in A. lia.
Qed.

Lemma represents_lists_unique st s l xs :
  represents st s -> (l < maxLevels)%nat -> free_list st l xs ->
  xs = Spec.lists s l.
Proof.
  intros [R _] L C. eapply chain_inj; eauto. apply R. exact L.
Qed.

(** * Allocate, release, allocate again *)

Lemma scan_finds n : forall t s l m r,
  (forall k, (t <= k < l)%nat -> Spec.lists s k = []) ->
  Spec.lists s l = m :: r -> (t <= l < t + n)%nat ->
  Spec.scan n t s = Some (l, m, Spec.with_list l r s).
Proof.
  induction n as [| n IH]; intros t s l m r Em E B; [lia |].
  simpl. unfold Spec.isEmpty, Spec.takeHead.
  destruct (Nat.eq_dec t l) as [-> | N].
  - rewrite E. reflexivity.
  - rewrite (Em t) by lia. apply IH; auto; [| lia].
    intros k K. apply Em. lia.
Qed.

(** The merge loop leaves the levels below its starting level and the heap
    break alone. *)
Lemma coalesce_frame ns : forall a z lv s a' l' s',
  Spec.coalesce ns a z lv s = (a', l', s') ->
  (lv <= l')%nat /\
  (forall k, (k < lv)%nat -> Spec.lists s' k = Spec.lists s k) /\
  Spec.break s' = Spec.break s /\ Spec.limit s' = Spec.limit s.
Proof.
  induction ns as [| ns IH]; intros a z lv s a' l' s' H.
  - simpl in H. inversion H; subst. auto.
  - rewrite coalesce_S in H.
    destruct (z =? Spec.maxSize); [inversion H; subst; auto |].
    unfold Spec.removeIfPresent in H.
    destruct (existsb _ _); [| inversion H; subst; auto].
    apply IH in H. destruct H as [H1 [H2 [H3 H4]]].
    split; [lia |]. split; [| auto].
    intros k K. rewrite H2 by lia. rewrite lists_with_list.
    destruct (Nat.eqb_spec k lv); [lia | reflexivity].
Qed.

(** After a split that left [m + levelSizeOf k] alone on each level
    [t <= k < l], releasing [m] at level [t] gives [m] back as the first
    block a scan from [t] meets. *)
Lemma coalesce_regain : forall d t l m s ns a' l' s',
  l = (t + d)%nat -> (l < Spec.levelCount)%nat -> 0 <= m ->
  (forall k, (t <= k < l)%nat -> Spec.lists s k = [m + Spec.levelSizeOf k]) ->
  ((S l < Spec.levelCount)%nat ->
   ~ In (Z.lxor m (Spec.levelSizeOf l)) (Spec.lists s l)) ->
  (Spec.levelCount - t <= ns)%nat ->
  Spec.coalesce ns m (Spec.levelSizeOf t) t s = (a', l', s') ->
  a' = m /\ (t <= l' <= l)%nat /\
  (forall k, (t <= k < l')%nat -> Spec.lists s' k = []).
Proof.
  induction d as [| d IH]; intros t l m s ns a' l' s' El L Pm Sp NP NS H.
  - rewrite Nat.add_0_r in El. subst l.
    destruct ns as [| ns]; [lv |]. rewrite coalesce_S in H.
    destruct (Z.eqb_spec (Spec.levelSizeOf t) Spec.maxSize) as [E | NE].
    + inversion H; subst. split; auto. split; [lia |]. intros; lia.
    + assert (L7 : (S t < Spec.levelCount)%nat).
      { destruct (Nat.eq_dec t 7) as [-> | X]; [exfalso; apply NE; reflexivity | lv]. }
      unfold Spec.removeIfPresent in H.
      destruct (existsb _ _) eqn:EX.
      * apply existsb_eqb_In in EX. exfalso. apply NP; auto.
      * inversion H; subst. split; auto. split; [lia |]. intros; lia.
  - destruct ns as [| ns]; [lv |]. rewrite coalesce_S in H.
    assert (L7 : (S t < Spec.levelCount)%nat) by lia.
    destruct (Z.eqb_spec (Spec.levelSizeOf t) Spec.maxSize) as [E | NE].
    { change Spec.maxSize with (Spec.levelSizeOf 7) in E.
      apply levelSizeOf_inj in E. lv. }
    pose proof (levelSizeOf_pos t) as Pz.
    destruct (buddy_cases m t Pm) as [[E1 E2] | [E1 [E2 E3]]].
    + assert (RP : Spec.removeIfPresent t (m + Spec.levelSizeOf t) s =
                   (true, Spec.with_list t [] s)).
      { unfold Spec.removeIfPresent. rewrite (Sp t) by lia. simpl.
        rewrite Z.eqb_refl. reflexivity. }
      rewrite E1, E2, RP in H.
      rewrite <- levelSizeOf_S in H.
      pose proof (coalesce_frame _ _ _ _ _ _ _ _ H) as [F1 [F2 _]].
      assert (Sp' : forall k, (S t <= k < l)%nat ->
                Spec.lists (Spec.with_list t [] s) k = [m + Spec.levelSizeOf k]).
      { intros k K. rewrite lists_with_list.
        destruct (Nat.eqb_spec k t); [lia |]. apply Sp. lia. }
      assert (NP' : (S l < Spec.levelCount)%nat ->
                ~ In (Z.lxor m (Spec.levelSizeOf l))
                     (Spec.lists (Spec.with_list t [] s) l)).
      { rewrite lists_with_list. destruct (Nat.eqb_spec l t); [lia | exact NP]. }
      destruct (IH (S t) l m _ ns a' l' s' ltac:(lia) L Pm Sp' NP' ltac:(lv) H)
        as [H1 [H2 H3]].
      split; auto. split; [lia |].
      intros k K. destruct (Nat.eq_dec k t) as [-> | N].
      * rewrite F2 by lia. rewrite lists_with_list, Nat.eqb_refl. reflexivity.
      * apply H3. lia.
    + assert (RP : Spec.removeIfPresent t (m - Spec.levelSizeOf t) s = (false, s)).
      { unfold Spec.removeIfPresent. rewrite (Sp t) by lia. simpl.
        destruct (Z.eqb_spec (m - Spec.levelSizeOf t) (m + Spec.levelSizeOf t));
          [lia | reflexivity]. }
      rewrite E1, RP in H.
      inversion H; subst. split; auto. split; [lia |]. intros; lia.
Qed.

Lemma spec_roundtrip s G t m z s1 s2 :
  store_inv s G -> (t < Spec.levelCount)%nat ->
  Spec.allocateAt t s = Some (m, z, s1) ->
  Spec.deallocate m z s1 = (0, 0, s2) ->
  exists s3, Spec.allocateAt t s2 = Some (m, z, s3) /\
             Spec.break s3 = Spec.break s2.
Proof.
  intros I T A D.
  assert (X : exists l, (t <= l < Spec.levelCount)%nat /\ 0 < m /\
            z = Spec.levelSizeOf t /\
            (forall k, (t <= k < l)%nat ->
                       Spec.lists s1 k = [m + Spec.levelSizeOf k]) /\
            ((S l < Spec.levelCount)%nat ->
             ~ In (Z.lxor m (Spec.levelSizeOf l)) (Spec.lists s1 l))).
  { unfold Spec.allocateAt in A.
    destruct (Spec.scan (Spec.levelCount - t) t s) as [[[l a] s0] |] eqn:SC.
    - assert (A1 : m = a) by congruence.
      assert (A2 : z = Spec.levelSizeOf t) by congruence.
      assert (A3 : s1 = Spec.splitDown l t a s0) by congruence.
      clear A. subst a z s1.
      destruct (scan_some _ _ _ _ _ _ SC) as [B [Em [r [E ->]]]].
      exists l. split; [lia |].
      assert (C : cell s l m) by (split; [lia | rewrite E; now left]).
      destruct (si_sound _ _ I m _ (cell_block s G l m C)) as [Pm _].
      split; [exact Pm |]. split; [reflexivity |]. split.
      + intros k K. rewrite splitDown_lists, lists_with_list.
        destruct (Nat.leb_spec t k), (Nat.ltb_spec k l), (Nat.eqb_spec k l);
          try lia. simpl. rewrite Em by lia. reflexivity.
      + intros L7. rewrite splitDown_lists, lists_with_list.
        destruct (Nat.leb_spec t l), (Nat.ltb_spec l l); try lia; simpl;
          rewrite Nat.eqb_refl;
          intros Ib; apply (si_nopair _ _ I l m L7);
          rewrite E; simpl; auto.
    - pose proof (scan_none _ _ _ SC) as Em.
      unfold Spec.growByMaxBlock in A.
      destruct (Spec.break s + Spec.maxSize <=? Spec.limit s); [| discriminate].
      assert (A1 : m = Spec.break s) by congruence.
      assert (A2 : z = Spec.levelSizeOf t) by congruence.
      assert (A3 : s1 = Spec.splitDown (Spec.levelCount - 1) t (Spec.break s)
                     (Spec.mkStore (Spec.lists s) (Spec.break s + Spec.maxSize)
                                   (Spec.limit s))) by congruence.
      clear A. subst m z s1.
      exists 7%nat. split; [lv |].
      split; [exact (proj1 (si_break _ _ I)) |]. split; [reflexivity |]. split.
      + intros k K. rewrite splitDown_lists. simpl Spec.lists.
        change (Spec.levelCount - 1)%nat with 7%nat.
        destruct (Nat.leb_spec t k), (Nat.ltb_spec k 7); try lia. simpl.
        rewrite Em by lv. reflexivity.
      + intros L7. lv. }
  destruct X as [l [B [Pm [-> [Sp NP]]]]].
  unfold Spec.deallocate in D.
  destruct (Z.eqb_spec m 0); [lia |].
  rewrite spec_levelOfSize_levelSizeOf in D by auto.
  destruct (Spec.coalesce Spec.levelCount m (Spec.levelSizeOf t) t s1)
    as [[a' l'] s'] eqn:CO.
  inversion D; subst s2. clear D.
  destruct (coalesce_regain (l - t) t l m s1 Spec.levelCount a' l' s' ltac:(lia) ltac:(lia)
              ltac:(lia) Sp NP ltac:(lia) CO) as [-> [B' Em']].
  unfold Spec.allocateAt.
  rewrite (scan_finds _ t _ l' m (Spec.lists s' l')).
  - eexists. split; [reflexivity |].
    rewrite (proj1 (splitDown_break _ _ _ _)). reflexivity.
  - intros k K. unfold Spec.insert. rewrite lists_with_list.
    destruct (Nat.eqb_spec k l'); [lia |]. apply Em'. lia.
  - unfold Spec.insert. rewrite lists_with_list, Nat.eqb_refl. reflexivity.
  - lia.
Qed.

(** * Alignment *)

Lemma mod_levelSizeOf_le a k l :
  (k <= l)%nat -> a mod Spec.levelSizeOf l = 0 -> a mod Spec.levelSizeOf k = 0.
Proof.
  intros K H. pose proof (levelSizeOf_pos k). pose proof (levelSizeOf_pos l).
  apply Z.mod_divide in H; [| lia]. apply Z.mod_divide; [lia |].
  apply Z.divide_trans with (Spec.levelSizeOf l); auto.
  rewrite !levelSizeOf_pow2.
  exists (2 ^ (Z.of_nat l - Z.of_nat k)).
  rewrite <- Z.pow_add_r by lia. f_equal. lia.
Qed.

Lemma aligned_ext s s' F F' :
  (forall l, Spec.lists s l = Spec.lists s' l) ->
  (forall a z, F a z <-> F' a z) ->
  aligned s F -> aligned s' F'.
Proof.
  intros EL EF A a z [[l [[L Ia] E]] | H]; apply A.
  - left. exists l. split; auto. split; auto. rewrite EL. exact Ia.
  - right. apply EF. exact H.
Qed.

Lemma aligned_splitDown c t m s G :
  (t <= c)%nat ->
  aligned s (plus G m (Spec.levelSizeOf c)) ->
  aligned (Spec.splitDown c t m s) (plus G m (Spec.levelSizeOf t)).
Proof.
  intros B A.
  assert (Am : m mod Spec.levelSizeOf c = 0) by (apply A; right; right; auto).
  intros x y [[k [[K Ix] E]] | [H | [-> ->]]].
  - rewrite splitDown_lists in Ix. subst y.
    destruct (Nat.leb_spec t k), (Nat.ltb_spec k c); simpl in Ix;
      try (apply A; left; exists k; split; [split |]; auto; fail).
    destruct Ix as [<- | Ix];
      [| apply A; left; exists k; split; [split |]; auto].
    pose proof (levelSizeOf_pos k).
    rewrite <- (Z.mul_1_l (Spec.levelSizeOf k)) at 1.
    rewrite Z.mod_add by lia. apply (mod_levelSizeOf_le m k c); auto. lia.
  - apply A. right. left. exact H.
  - apply (mod_levelSizeOf_le m t c); auto.
Qed.

Lemma aligned_coalesce ns : forall a lv s G a' l' s',
  0 <= a ->
  aligned s (plus G a (Spec.levelSizeOf lv)) ->
  Spec.coalesce ns a (Spec.levelSizeOf lv) lv s = (a', l', s') ->
  aligned s' (plus G a' (Spec.levelSizeOf l')).
Proof.
  induction ns as [| ns IH]; intros a lv s G a' l' s' Pa A H.
  - simpl in H. injection H as <- <- <-. exact A.
  - rewrite coalesce_S in H.
    destruct (Spec.levelSizeOf lv =? Spec.maxSize);
      [injection H as <- <- <-; exact A |].
    unfold Spec.removeIfPresent in H.
    destruct (existsb _ _); [| injection H as <- <- <-; exact A].
    rewrite <- levelSizeOf_S in H.
    assert (Am : a mod Spec.levelSizeOf lv = 0) by (apply A; right; right; auto).
    refine (IH _ (S lv) _ G a' l' s' _ _ H).
    + apply Z.land_nonneg. auto.
    + intros x y [[k C] | [Hg | [-> ->]]].
      * apply A. left. exists k. split; [| tauto].
        eapply cell_with_list_remove. exact (proj1 C).
      * apply A. right. left. exact Hg.
      * apply merged_aligned; auto.
Qed.

Lemma aligned_insert s G l a :
  aligned s (plus G a (Spec.levelSizeOf l)) -> aligned (Spec.insert l a s) G.
Proof.
  intros A x y [[k [[K Ix] E]] | H].
  - unfold Spec.insert in Ix. rewrite lists_with_list in Ix.
    destruct (Nat.eqb_spec k l) as [-> | N].
    + destruct Ix as [<- | Ix].
      * apply A. right. right. auto.
      * apply A. left. exists l. split; [split |]; auto.
    + apply A. left. exists k. split; [split |]; auto.
  - apply A. right. left. exact H.
Qed.

Lemma allocateAt_break t s a z s' :
  Spec.allocateAt t s = Some (a, z, s') ->
  Spec.break s' = Spec.break s \/ Spec.break s' = Spec.break s + Spec.maxSize.
Proof.
  unfold Spec.allocateAt. intros H.
  destruct (Spec.scan _ t s) as [[[l m] s0] |] eqn:SC.
  - destruct (scan_some _ _ _ _ _ _ SC) as [_ [_ [r [_ ->]]]].
    left. assert (E : s' = Spec.splitDown l t m (Spec.with_list l r s)) by congruence.
    rewrite E. rewrite (proj1 (splitDown_break _ _ _ _)). reflexivity.
  - unfold Spec.growByMaxBlock in H.
    destruct (Spec.break s + Spec.maxSize <=? Spec.limit s); [| discriminate].
    right.
    assert (E : s' = Spec.splitDown (Spec.levelCount - 1) t (Spec.break s)
                 (Spec.mkStore (Spec.lists s) (Spec.break s + Spec.maxSize)
                               (Spec.limit s))) by congruence.
    rewrite E. rewrite (proj1 (splitDown_break _ _ _ _)). reflexivity.
Qed.

Lemma allocateAt_aligned t s G a z s' :
  (t < Spec.levelCount)%nat ->
  Spec.break s mod Spec.maxSize = 0 -> aligned s G ->
  Spec.allocateAt t s = Some (a, z, s') ->
  aligned s' (plus G a z).
Proof.
  unfold Spec.allocateAt. intros T Bk A H.
  destruct (Spec.scan _ t s) as [[[l m] s0] |] eqn:SC.
  - destruct (scan_some _ _ _ _ _ _ SC) as [B [_ [r [E ->]]]].
    assert (A1 : a = m) by congruence.
    assert (A2 : z = Spec.levelSizeOf t) by congruence.
    assert (A3 : s' = Spec.splitDown l t m (Spec.with_list l r s)) by congruence.
    clear H. subst a z s'.
    apply aligned_splitDown; [lia |].
    intros x y [[k [[K Ix] Ey]] | [Hg | [-> ->]]].
    + rewrite lists_with_list in Ix. apply A. left. exists k.
      split; [split |]; auto.
      destruct (Nat.eqb_spec k l) as [-> | N]; auto. rewrite E. now right.
    + apply A. right. exact Hg.
    + apply A. left. exists l. split; [split |]; auto; [lia |].
      rewrite E. now left.
  - unfold Spec.growByMaxBlock in H.
    destruct (Spec.break s + Spec.maxSize <=? Spec.limit s); [| discriminate].
    assert (A1 : a = Spec.break s) by congruence.
    assert (A2 : z = Spec.levelSizeOf t) by congruence.
    assert (A3 : s' = Spec.splitDown (Spec.levelCount - 1) t (Spec.break s)
                 (Spec.mkStore (Spec.lists s) (Spec.break s + Spec.maxSize)
                               (Spec.limit s))) by congruence.
    clear H. subst a z s'.
    apply aligned_splitDown; [lv |].
    intros x y [[k C] | [Hg | [-> ->]]].
    + apply A. left. exists k. exact C.
    + apply A. right. exact Hg.
    + exact Bk.
Qed.

Lemma deallocate_aligned s G a l s' :
  (l < Spec.levelCount)%nat -> 0 < a ->
  aligned s (plus G a (Spec.levelSizeOf l)) ->
  Spec.deallocate a (Spec.levelSizeOf l) s = (0, 0, s') ->
  aligned s' G.
Proof.
  intros L Pa A H. unfold Spec.deallocate in H.
  destruct (Z.eqb_spec a 0); [lia |].
  rewrite spec_levelOfSize_levelSizeOf in H by auto.
  destruct (Spec.coalesce Spec.levelCount a (Spec.levelSizeOf l) l s)
    as [[a' l'] s1] eqn:CO.
  assert (E : s' = Spec.insert l' a' s1) by congruence. subst s'.
  apply aligned_insert with (a := a').
  eapply aligned_coalesce; eauto. lia.
Qed.

Lemma deallocate_break s a z s' :
  Spec.deallocate a z s = (0, 0, s') -> Spec.break s' = Spec.break s.
Proof.
  unfold Spec.deallocate. intros H.
  destruct (a =? 0); [congruence |].
  destruct (Spec.levelOfSize z) as [l |]; [| congruence].
  destruct (Spec.coalesce Spec.levelCount a z l s) as [[a' l'] s1] eqn:CO.
  assert (E : s' = Spec.insert l' a' s1) by congruence. subst s'.
  simpl. apply (coalesce_frame _ _ _ _ _ _ _ _ CO).
Qed.

(** The same, with the alignment of every block when the heap break is a
    multiple of [maxSize]. *)
Theorem reachable_aligned st outs :
  reachable st outs ->
  exists s, represents st s /\ store_inv s (held outs) /\
            (Spec.break s mod Spec.maxSize = 0 -> aligned s (held outs)).
Proof.
  induction 1 as [st H | st outs sz h st' H IH P A | st outs fuel h h' st' H IH Ih D].
  - eexists. split; [| split]; try apply initial_inv; auto.
    intros _ a z [[l [[_ []] _]] | []].
  - destruct IH as [s [R [I AL]]].
    destruct (allocate_inv st s outs sz h st' R I ltac:(lia) A)
      as [t [s' [_ [T [SA [_ [R' [I' _]]]]]]]].
    exists s'. split; [| split]; auto.
    intros Bk.
    assert (Bk0 : Spec.break s mod Spec.maxSize = 0).
    { destruct (allocateAt_break _ _ _ _ _ SA) as [E | E]; rewrite E in Bk; auto.
      rewrite <- (Z.mul_1_l Spec.maxSize) in Bk at 1.
      rewrite Z.mod_add in Bk; auto. rewrite spec_maxSize_value. lia. }
    eapply aligned_ext; [reflexivity | | ].
    + intros a z. symmetry. apply held_cons_iff.
    + eapply allocateAt_aligned; eauto.
  - destruct IH as [s [R [I AL]]].
    destruct (deallocate_inv st s outs fuel h h' st' R I Ih D)
      as [s' [SD [_ [R' I']]]].
    exists s'. split; [| split]; auto.
    intros Bk. rewrite (deallocate_break _ _ _ _ SD) in Bk.
    destruct (si_sound _ _ I (memory h) (size h)) as [Pm [_ [l [L E]]]].
    { right. unfold held. destruct h. exact Ih. }
    rewrite E in SD.
    eapply deallocate_aligned; eauto.
    rewrite <- E.
    eapply aligned_ext; [reflexivity | | exact (AL Bk)].
    intros a z. apply held_remove_iff. exact Ih.
Qed.

Lemma fresh_state_initial b room :
  0 < b -> 0 <= room -> b + room < word -> initial (fresh_state b room).
Proof.
  intros H1 H2 H3. unfold initial, fresh_state. simpl.
  repeat split; auto; lia.
Qed.

Lemma deallocate_total st s outs h :
  represents st s -> store_inv s (held outs) -> In h outs ->
  exists s' st',
    Spec.deallocate (memory h) (size h) s = (0, 0, s') /\
    releases h st st' /\
    represents st' s' /\
    store_inv s' (held (remove Allocation_eq_dec h outs)).
Proof.
  intros R I Ih.
  assert (Fl : floating s (held (remove Allocation_eq_dec h outs))
                        (memory h) (size h)).
  { split; [| apply not_held_remove].
    eapply store_inv_ext; [| | | | exact I]; auto.
    intros a z. apply held_remove_iff. exact Ih. }
  destruct (deallocate_refines st s _ h (S (maxLevels + longest s)) R Fl ltac:(lia))
    as [s' [st' [D1 [D2 [R' I']]]]].
  exists s', st'. split; [exact D1 |]. split; [| auto].
  exists (S (maxLevels + longest s)). intros fuel F.
  eapply deallocate_mono; eauto.
Qed.

(** * The claims *)

Lemma allocate_size n st h st' :
  allocate n st = Ret (h, st') ->
  exists t, lookup_level n = Some t /\ levelSize_at t = Some (size h).
Proof.
  unfold allocate. intros H.
  destruct (lookup_level n) as [t |]; [| discriminate].
  exists t. split; [reflexivity |].
  destruct (find_block (maxLevels - t) t st) as [[mem0 lvl0] st0].
  destruct (if mem0 =? 0
            then let '(r, s) := sbrk maxSize st0 in (r, Some (maxLevels - 1)%nat, s)
            else (mem0, lvl0, st0)) as [[mem cl] st1].
  destruct (mem =? sbrk_failed); [discriminate |].
  destruct cl as [c |]; [| discriminate].
  destruct (levelSize_at t) as [g |]; [| discriminate].
  destruct (split c t mem st1); try discriminate.
  inversion H. reflexivity.
Qed.

(** C1 (amended).  Whenever [allocate n] returns normally for [n > 0], the
    granted size is one of the configured level sizes; for
    [0 < n <= maxSize] it is the smallest level size that is at least [n];
    for [n > maxSize] the request is clamped to the top level and the
    granted size is [maxSize], less than [n]. *)
Theorem allocate_granted_size : forall n st h st',
  0 < n -> allocate n st = Ret (h, st') ->
  In (size h) levelSize /\
  (n <= maxSize ->
   n <= size h /\ forall z, In z levelSize -> n <= z -> size h <= z) /\
  (maxSize < n -> size h = maxSize).
Proof.
  intros n st h st' Pn A.
  destruct (allocate_size _ _ _ _ A) as [t [LK LS]].
  pose proof (lookup_level_bound n t ltac:(lia) LK) as T.
  rewrite levelSize_at_lt in LS by auto.
  assert (Es : size h = Spec.levelSizeOf t) by congruence.
  rewrite maxSize_value.
  split; [apply In_levelSize; exists t; auto |].
  destruct (Z_le_gt_dec n 2048) as [Le | Gt].
  - rewrite lookup_level_small in LK by lia.
    destruct (reverseLookup_at_spec n ltac:(lia)) as [l [E [B [C1 C2]]]].
    assert (l = t) by congruence. subst l. rewrite Es.
    split; [| lia]. intros _. split; [exact C1 |].
    intros z Iz Nz. apply In_levelSize in Iz. destruct Iz as [k [K ->]].
    destruct C2 as [-> | C2].
    + destruct k; [lia |]. apply Z.lt_le_incl, levelSizeOf_mono. lia.
    + destruct (Nat.le_gt_cases t k) as [Le' | Gt'].
      * destruct (Nat.eq_dec t k) as [-> | N]; [lia |].
        apply Z.lt_le_incl, levelSizeOf_mono. lia.
      * exfalso. assert (X : Spec.levelSizeOf k <= Spec.levelSizeOf (t - 1)).
        { destruct (Nat.eq_dec k (t - 1)) as [-> | N]; [lia |].
          apply Z.lt_le_incl, levelSizeOf_mono. lia. }
        lia.
  - destruct (Z.eq_dec n 2049) as [-> | N].
    { rewrite lookup_level_2049 in LK. discriminate. }
    rewrite lookup_level_large in LK by lia.
    assert (t = 7%nat) by congruence. subst t. rewrite Es.
    change (Spec.levelSizeOf 7) with 4096.
    split; [| reflexivity]. intros Le. split; [lia |].
    intros z Iz Nz. apply In_levelSize in Iz. destruct Iz as [k [K ->]].
    destruct (Nat.eq_dec k 7) as [-> | N7]; [reflexivity |].
    assert (X : Spec.levelSizeOf k <= Spec.levelSizeOf 6).
    { destruct (Nat.eq_dec k 6) as [-> | N6]; [lia |].
      apply Z.lt_le_incl, levelSizeOf_mono. lv. }
    change (Spec.levelSizeOf 6) with 2048 in X. lia.
Qed.

Lemma allocate_granted_size_witness :
  exists h st',
    allocate 40 (fresh_state 8192 65536) = Ret (h, st') /\
    size h = 64 /\
    In (size h) levelSize /\
    (40 <= maxSize ->
     40 <= size h /\ forall z, In z levelSize -> 40 <= z -> size h <= z) /\
    (maxSize < 40 -> size h = maxSize).
Proof.
  eexists. eexists. split; [vm_compute; reflexivity |].
  split; [reflexivity |].
  eapply (allocate_granted_size 40 (fresh_state 8192 65536)); [lia |].
  vm_compute. reflexivity.
Defined.

(** C1, as stated, fails: a request above [maxSize] returns normally with
    a block smaller than the request. *)
Lemma clamped_request_is_too_small :
  ~ (forall n st h st',
       0 < n -> allocate n st = Ret (h, st') ->
       n <= size h /\ In (size h) levelSize).
Proof.
  intros H.
  assert (E : exists h st',
             allocate 5000 (fresh_state 8192 65536) = Ret (h, st') /\ size h = 4096).
  { eexists. eexists. split; [vm_compute; reflexivity | reflexivity]. }
  destruct E as [h [st' [E Es]]].
  destruct (H 5000 (fresh_state 8192 65536) h st' ltac:(lia) E) as [X _].
  lia.
Qed.

(** C2: the code at the failing input.  [2049] is above [maxSize / 2] and
    at most [maxSize]; the table has the indices [0 .. maxSize / 2]; the
    guard [sz > reverseLookup.size()] does not catch [2049], so the table
    is read at index [2049], past its end. *)
Theorem table_read_past_end_at_2049 :
  maxSize / 2 < 2049 <= maxSize /\
  Z.of_nat (length reverseLookup) = maxSize / 2 + 1 /\
  (2049 >? Z.of_nat (length reverseLookup)) = false /\
  reverseLookup_at 2049 = None /\
  lookup_level 2049 = None /\
  forall st, allocate 2049 st = Undefined.
Proof.
  split; [rewrite maxSize_value; change (4096 / 2) with 2048; lia |].
  do 4 (split; [reflexivity |]).
  intros st. unfold allocate. rewrite lookup_level_2049. reflexivity.
Qed.

(** Every other request above [maxSize / 2] does resolve to the top level. *)
Lemma lookup_level_top n :
  maxSize / 2 < n -> n <> 2049 -> lookup_level n = Some (maxLevels - 1)%nat.
Proof.
  rewrite maxSize_value. change (4096 / 2) with 2048. intros H N.
  apply lookup_level_large. lia.
Qed.

Lemma demo0_reachable : reachable demo0 [].
Proof. apply reach_init, fresh_state_initial; unfold word; lia. Qed.

Lemma demo1_allocated : allocate 40 demo0 = Ret (fst demo1, snd demo1).
Proof. vm_compute. reflexivity. Qed.

Lemma demo1_reachable : reachable (snd demo1) [fst demo1].
Proof.
  apply (reach_allocate demo0 [] 40 (fst demo1) (snd demo1) demo0_reachable).
  - unfold word. lia.
  - vm_compute. reflexivity.
Qed.

(** C3.  On every block that a caller holds, [deallocate] does on the
    memory what the merge loop of the design does on the lists: starting
    at the level of the block's size, the buddy is [address XOR
    levelSizeOf level]; if and only if that address is on the level's free
    list it is removed and the block becomes [address AND NOT levelSizeOf
    level] one level up, while the size is not [maxSize]; otherwise the
    loop stops; the final block is inserted at its final level.  Only the
    buddy ever leaves a list. *)
Theorem deallocate_follows_design : forall st outs h,
  reachable st outs -> In h outs ->
  exists s s' st',
    represents st s /\
    Spec.deallocate (memory h) (size h) s = (0, 0, s') /\
    releases h st st' /\
    represents st' s'.
Proof.
  intros st outs h H Ih.
  destruct (reachable_inv st outs H) as [s [R I]].
  destruct (deallocate_total st s outs h R I Ih) as [s' [st' [D [Rl [R' _]]]]].
  exists s, s', st'. auto.
Qed.

Lemma deallocate_follows_design_witness :
  reachable (snd demo1) [fst demo1] /\ In (fst demo1) [fst demo1] /\
  exists s s' st',
    represents (snd demo1) s /\
    Spec.deallocate (memory (fst demo1)) (size (fst demo1)) s = (0, 0, s') /\
    releases (fst demo1) (snd demo1) st' /\
    represents st' s'.
Proof.
  split; [exact demo1_reachable |]. split; [left; reflexivity |].
  apply (deallocate_follows_design (snd demo1) [fst demo1] (fst demo1)).
  - exact demo1_reachable.
  - left. reflexivity.
Defined.

(** C4.  [allocate] does on the memory what steps 2 to 5 of the design do
    on the lists: it takes the head of the first non-empty list from the
    target level upwards, or grows the heap by one top-level block when
    all of them are empty (raising [bad_alloc], state untouched, when the
    heap cannot grow); it then inserts the upper half [address +
    levelSizeOf level] at every level from the found one down to the
    target and returns the lower address with [levelSizeOf target]. *)
Theorem allocate_follows_design : forall st outs n t,
  reachable st outs -> 0 <= n -> lookup_level n = Some t ->
  exists s,
    represents st s /\
    match Spec.allocateAt t s with
    | Some (a, z, s') =>
        exists st', allocate n st = Ret (mkAllocation a z, st') /\
                    represents st' s'
    | None => allocate n st = BadAlloc st
    end.
Proof.
  intros st outs n t H P LK.
  destruct (reachable_inv st outs H) as [s [R I]].
  exists s. split; [exact R |].
  pose proof (lookup_level_bound n t P LK) as T.
  pose proof (allocate_refines st s (held outs) n t R I LK T) as X.
  destruct (Spec.allocateAt t s) as [[[a z] s'] |]; [| exact X].
  destruct X as [st' [A [R' _]]]. exists st'. auto.
Qed.

Lemma allocate_follows_design_witness :
  reachable (snd demo1) [fst demo1] /\ 0 <= 100 /\ lookup_level 100 = Some 2%nat /\
  exists s,
    represents (snd demo1) s /\
    match Spec.allocateAt 2 s with
    | Some (a, z, s') =>
        exists st', allocate 100 (snd demo1) = Ret (mkAllocation a z, st') /\
                    represents st' s'
    | None => allocate 100 (snd demo1) = BadAlloc (snd demo1)
    end.
Proof.
  split; [exact demo1_reachable |]. split; [lia |].
  split; [vm_compute; reflexivity |].
  apply (allocate_follows_design (snd demo1) [fst demo1] 100 2).
  - exact demo1_reachable.
  - lia.
  - vm_compute. reflexivity.
Defined.

Lemma lookup_level_defined n :
  0 < n <= maxSize -> n <> 2049 ->
  exists t, lookup_level n = Some t /\ (t < maxLevels)%nat.
Proof.
  rewrite maxSize_value. intros P N.
  destruct (Z_le_gt_dec n 2048) as [L | G].
  - destruct (reverseLookup_at_spec n) as [l [E [B _]]]; [lia |].
    exists l. rewrite lookup_level_small by lia. split; [exact E |].
    unfold maxLevels. lia.
  - exists 7%nat. split; [apply lookup_level_large; lia | unfold maxLevels; lia].
Qed.

(** C5: the code at the failing input.  [2049] is a size in the range
    [0 < n <= maxSize] of the round trip, and the fresh machine [demo0] is a
    reachable state.  There, and in every other state, [allocate 2049]
    reads [reverseLookup] past its end before it looks at any free list:
    it returns no handle, so there is nothing to release and to allocate
    again.  (The read is the one of C2.) *)
Theorem round_trip_undefined_at_2049 :
  0 < 2049 <= maxSize /\
  reachable demo0 [] /\
  allocate 2049 demo0 = Undefined /\
  forall st h1 st1, allocate 2049 st <> Ret (h1, st1).
Proof.
  split; [rewrite maxSize_value; lia |].
  split; [exact demo0_reachable |].
  assert (U : forall st, allocate 2049 st = Undefined).
  { intros st. unfold allocate. rewrite lookup_level_2049. reflexivity. }
  split; [apply U |].
  intros st h1 st1. rewrite U. discriminate.
Qed.

(** X21.  The round trip at every other size.  In every reachable state,
    for [0 < n <= maxSize] other than [2049], [allocate n] either raises
    [bad_alloc] and leaves the state as it was, or returns a handle; in
    that case releasing the handle succeeds, and allocating [n] again
    returns the same handle (same address, same size) without moving the
    heap break. *)
Theorem allocate_release_allocate : forall st outs n,
  reachable st outs -> 0 < n <= maxSize -> n <> 2049 ->
  allocate n st = BadAlloc st \/
  exists h1 st1 st2 h2 st3,
    allocate n st = Ret (h1, st1) /\
    releases h1 st1 st2 /\
    allocate n st2 = Ret (h2, st3) /\
    h2 = h1 /\ brk st3 = brk st2.
Proof.
  intros st outs n H Pn N.
  destruct (reachable_inv st outs H) as [s [R I]].
  destruct (lookup_level_defined n Pn N) as [t [LK T]].
  pose proof (allocate_refines st s (held outs) n t R I LK T) as X0.
  destruct (Spec.allocateAt t s) as [[[a z] s0] |] eqn:SA0; [| left; exact X0].
  right. destruct X0 as [st1 [A _]].
  set (h1 := mkAllocation a z) in *.
  destruct (allocate_inv st s outs n h1 st1 R I ltac:(lia) A)
    as [t' [s1 [LK' [_ [SA [Ez [R1 [I1 _]]]]]]]].
  assert (t' = t) by congruence. subst t'.
  destruct (deallocate_total st1 s1 (h1 :: outs) h1 R1 I1 ltac:(now left))
    as [s2 [st2 [SD [Rl [R2 I2]]]]].
  destruct (spec_roundtrip s (held outs) t _ _ s1 s2 I ltac:(lv) SA SD)
    as [s3 [SA2 Bk]].
  pose proof (allocate_refines st2 s2 _ n t R2 I2 LK T) as X.
  rewrite SA2 in X. destruct X as [st3 [A2 [R3 _]]].
  exists h1, st1, st2, h1, st3.
  split; [exact A |]. split; [exact Rl |]. split; [exact A2 |].
  split; [reflexivity |].
  destruct R3 as [_ [E3 _]], R2 as [_ [E2 _]]. congruence.
Qed.

Lemma allocate_release_allocate_witness :
  reachable demo0 [] /\ 0 < 40 <= maxSize /\ 40 <> 2049 /\
  (allocate 40 demo0 = BadAlloc demo0 \/
   exists h1 st1 st2 h2 st3,
     allocate 40 demo0 = Ret (h1, st1) /\
     releases h1 st1 st2 /\
     allocate 40 st2 = Ret (h2, st3) /\
     h2 = h1 /\ brk st3 = brk st2).
Proof.
  assert (B : 0 < 40 <= maxSize) by (rewrite maxSize_value; lia).
  assert (N : 40 <> 2049) by lia.
  split; [exact demo0_reachable |]. split; [exact B |]. split; [exact N |].
  exact (allocate_release_allocate demo0 [] 40 demo0_reachable B N).
Defined.

Lemma full0_reachable : reachable full0 [].
Proof. apply reach_init, fresh_state_initial; unfold word; lia. Qed.

Lemma allocateAt_none t s :
  Spec.allocateAt t s = None ->
  Spec.scan (Spec.levelCount - t) t s = None /\ Spec.growByMaxBlock s = None.
Proof.
  unfold Spec.allocateAt.
  destruct (Spec.scan _ t s) as [[[l m] s0] |]; [discriminate |].
  destruct (Spec.growByMaxBlock s) as [[a s1] |]; [discriminate | auto].
Qed.

(** C8.  In a reachable state [allocate] raises [bad_alloc] if and only if
    every free list from the target level to the top is empty and [sbrk]
    returns its failure value; the state in which it raises is the state
    in which it was called. *)
Theorem bad_alloc_iff : forall st outs n t,
  reachable st outs -> 0 <= n -> lookup_level n = Some t ->
  ((exists st', allocate n st = BadAlloc st') <->
   (forall l, (t <= l < maxLevels)%nat -> empty (Head l) st = true) /\
   fst (sbrk maxSize st) = sbrk_failed) /\
  (forall st', allocate n st = BadAlloc st' -> st' = st).
Proof.
  intros st outs n t H P LK.
  destruct (reachable_inv st outs H) as [s [R I]].
  pose proof (lookup_level_bound n t P LK) as T.
  pose proof (allocate_refines st s (held outs) n t R I LK T) as X.
  destruct (si_break _ _ I) as [B1 [B2 B3]].
  assert (SB : fst (sbrk maxSize st) = sbrk_failed <->
               Spec.growByMaxBlock s = None).
  { unfold sbrk, Spec.growByMaxBlock.
    destruct R as [_ [-> ->]]. rewrite maxSize_value, spec_maxSize_value.
    destruct (Spec.break s + 4096 <=? Spec.limit s) eqn:E; simpl.
    - apply Z.leb_le in E. unfold sbrk_failed.
      split; [lia | discriminate].
    - tauto. }
  destruct (Spec.allocateAt t s) as [[[a z] s'] |] eqn:SA.
  - destruct X as [st' [A _]]. split; [split |].
    + intros [st'' A']. rewrite A in A'. discriminate.
    + intros [Em Sb]. exfalso. apply SB in Sb.
      unfold Spec.allocateAt in SA. rewrite Sb in SA.
      destruct (Spec.scan (Spec.levelCount - t) t s) as [[[l m] s0] |] eqn:SC;
        [| discriminate].
      destruct (scan_some _ _ _ _ _ _ SC) as [B [_ [r [E _]]]].
      specialize (Em l ltac:(lv)).
      rewrite (represents_empty st s l R ltac:(lv)) in Em.
      unfold Spec.isEmpty in Em. rewrite E in Em. discriminate.
    + intros st'' A'. rewrite A in A'. discriminate.
  - destruct (allocateAt_none _ _ SA) as [SC GR]. split; [split |].
    + intros _. split; [| apply SB; exact GR].
      intros l L. rewrite (represents_empty st s l R ltac:(lia)).
      unfold Spec.isEmpty. rewrite (scan_none _ _ _ SC l ltac:(lv)).
      reflexivity.
    + intros _. exists st. exact X.
    + intros st' A'. rewrite X in A'. congruence.
Qed.

Lemma bad_alloc_iff_witness :
  reachable full0 [] /\ 0 <= 40 /\ lookup_level 40 = Some 1%nat /\
  allocate 40 full0 = BadAlloc full0 /\
  ((exists st', allocate 40 full0 = BadAlloc st') <->
   (forall l, (1 <= l < maxLevels)%nat -> empty (Head l) full0 = true) /\
   fst (sbrk maxSize full0) = sbrk_failed) /\
  (forall st', allocate 40 full0 = BadAlloc st' -> st' = full0).
Proof.
  assert (LK : lookup_level 40 = Some 1%nat) by (vm_compute; reflexivity).
  split; [exact full0_reachable |]. split; [lia |]. split; [exact LK |].
  split; [vm_compute; reflexivity |].
  exact (bad_alloc_iff full0 [] 40 1 full0_reachable ltac:(lia) LK).
Defined.

(** C9.  [deallocate] on an empty handle returns at once, with the handle
    and the whole state unchanged; a [deallocate] that returns on a
    non-empty handle leaves the handle [{nullptr, 0}], on which a second
    [deallocate] changes nothing. *)
Theorem deallocate_empty_handle : forall fuel e h st h' st',
  memory e = 0 -> memory h <> 0 ->
  deallocate fuel h st = Ret (h', st') ->
  deallocate fuel e st = Ret (e, st) /\
  h' = null_allocation /\
  forall fuel', deallocate fuel' h' st' = Ret (h', st').
Proof.
  intros fuel e h st h' st' Ee Nh D.
  split.
  - unfold deallocate. rewrite Ee. reflexivity.
  - assert (E : h' = null_allocation).
    { unfold deallocate in D.
      destruct (Z.eqb_spec (memory h) 0); [contradiction |].
      destruct (lookup_level (size h)) as [lv |]; [| discriminate].
      destruct (bubble fuel fuel (memory h) (size h) lv st)
        as [[[[mem sz] lv'] st1] | | |]; try discriminate.
      destruct (lv' <? maxLevels)%nat; [| discriminate].
      congruence. }
    split; [exact E |]. subst h'. intros fuel'. reflexivity.
Qed.

Lemma deallocate_empty_handle_witness :
  memory null_allocation = 0 /\ memory (fst demo1) <> 0 /\
  (exists st', deallocate 20 (fst demo1) (snd demo1) = Ret (null_allocation, st') /\
   deallocate 20 null_allocation (snd demo1) = Ret (null_allocation, snd demo1) /\
   null_allocation = null_allocation /\
   forall fuel', deallocate fuel' null_allocation st' = Ret (null_allocation, st')).
Proof.
  split; [reflexivity |]. split; [discriminate |].
  eexists. split; [vm_compute; reflexivity |].
  eapply (deallocate_empty_handle 20 null_allocation (fst demo1) (snd demo1)).
  - reflexivity.
  - discriminate.
  - vm_compute. reflexivity.
Defined.

(** C10 (amended).  In every reachable state and at every level below the
    top one, the free list never holds a block together with its buddy
    [address XOR levelSizeOf level]. *)
Theorem no_free_buddies_below_top : forall st outs l,
  reachable st outs -> (S l < maxLevels)%nat ->
  exists xs,
    free_list st l xs /\
    forall a, In a xs -> ~ In (Z.lxor a (nth l levelSize 0)) xs.
Proof.
  intros st outs l H L.
  destruct (reachable_inv st outs H) as [s [R I]].
  exists (Spec.lists s l). split; [apply (proj1 R); lia |].
  intros a Ia. rewrite levelSize_nth by lia.
  apply (si_nopair _ _ I l a); auto.
Qed.

Lemma no_free_buddies_below_top_witness :
  reachable (snd demo1) [fst demo1] /\ (S 1 < maxLevels)%nat /\
  exists xs,
    free_list (snd demo1) 1 xs /\
    forall a, In a xs -> ~ In (Z.lxor a (nth 1%nat levelSize 0)) xs.
Proof.
  split; [exact demo1_reachable |]. split; [unfold maxLevels; lia |].
  apply (no_free_buddies_below_top (snd demo1) [fst demo1] 1 demo1_reachable).
  unfold maxLevels. lia.
Defined.

Lemma top4_reachable : reachable top4 [].
Proof.
  assert (R1 : reachable (snd top1) [fst top1]).
  { apply (reach_allocate _ _ 4096 _ _ demo0_reachable);
      [unfold word; lia | vm_compute; reflexivity]. }
  assert (R2 : reachable (snd top2) [fst top2; fst top1]).
  { apply (reach_allocate _ _ 4096 _ _ R1);
      [unfold word; lia | vm_compute; reflexivity]. }
  assert (R3 : reachable top3 [fst top2]).
  { apply (reach_deallocate _ _ 20 (fst top1) null_allocation top3 R2);
      [right; left; reflexivity | vm_compute; reflexivity]. }
  apply (reach_deallocate _ _ 20 (fst top2) null_allocation top4 R3);
    [left; reflexivity | vm_compute; reflexivity].
Qed.

(** What the run is: the two blocks are at 8192 and at 12288 = 8192 XOR
    4096, and both end on the top list. *)
Lemma top4_trace :
  fst top1 = mkAllocation 8192 4096 /\ fst top2 = mkAllocation 12288 4096 /\
  free_list top4 7 [12288; 8192] /\ Z.lxor 8192 (nth 7%nat levelSize 0) = 12288.
Proof.
  split; [reflexivity |]. split; [reflexivity |]. split; [| reflexivity].
  vm_compute. repeat split; discriminate.
Qed.

(** C10, as stated, fails at the top level: two top-level blocks that
    come from consecutive heap growths are each other's address
    complement, are never merged, and sit together on the top list. *)
Lemma free_buddies_at_top_level :
  ~ (forall st outs l xs a,
       reachable st outs -> (l < maxLevels)%nat ->
       free_list st l xs -> In a xs ->
       ~ In (Z.lxor a (nth l levelSize 0)) xs).
Proof.
  intros H.
  apply (H top4 [] 7%nat [12288; 8192] 8192 top4_reachable).
  - unfold maxLevels. lia.
  - vm_compute. repeat split; discriminate.
  - right. left. reflexivity.
  - left. reflexivity.
Qed.

(** * Two buddies of the smallest size *)

Lemma aligned_buddy m k :
  0 <= m -> m mod 4096 = 0 -> (k < 7)%nat ->
  Z.lxor m (Spec.levelSizeOf k) = m + Spec.levelSizeOf k /\
  Z.land m (Z.lnot (Spec.levelSizeOf k)) = m.
Proof.
  intros Pm Am K. rewrite levelSizeOf_pow2.
  apply lxor_pow2_clear; [exact Pm | lia |].
  apply Z.mod_divide in Am; [| lia]. destruct Am as [q ->].
  change 4096 with (2 ^ 12). rewrite Z.mul_pow2_bits by lia.
  apply Z.testbit_neg_r. lia.
Qed.

Lemma coalesce_full : forall d t m s ns a' l' s',
  (t + d = 7)%nat -> 0 <= m -> m mod 4096 = 0 ->
  (forall k, (t <= k < 7)%nat -> Spec.lists s k = [m + Spec.levelSizeOf k]) ->
  (Spec.levelCount - t <= ns)%nat ->
  Spec.coalesce ns m (Spec.levelSizeOf t) t s = (a', l', s') ->
  a' = m /\ l' = 7%nat /\
  forall k, Spec.lists s' k =
            if ((t <=? k) && (k <? 7))%nat then [] else Spec.lists s k.
Proof.
  induction d as [| d IH]; intros t m s ns a' l' s' E Pm Am Sp NS H;
    (destruct ns as [| ns]; [lv |]); rewrite coalesce_S in H.
  - assert (t = 7%nat) by lia. subst t.
    change (Spec.levelSizeOf 7 =? Spec.maxSize) with true in H.
    injection H as <- <- <-. split; auto. split; auto.
    intros k. destruct (Nat.leb_spec 7 k), (Nat.ltb_spec k 7); simpl; auto; lia.
  - destruct (Z.eqb_spec (Spec.levelSizeOf t) Spec.maxSize) as [X | _].
    { change Spec.maxSize with (Spec.levelSizeOf 7) in X.
      apply levelSizeOf_inj in X. lia. }
    destruct (aligned_buddy m t Pm Am ltac:(lia)) as [E1 E2].
    assert (RP : Spec.removeIfPresent t (m + Spec.levelSizeOf t) s =
                 (true, Spec.with_list t [] s)).
    { unfold Spec.removeIfPresent. rewrite (Sp t) by lia. simpl.
      rewrite Z.eqb_refl. reflexivity. }
    rewrite E1, E2, RP in H. rewrite <- levelSizeOf_S in H.
    apply (IH (S t)) in H; auto; try lia; try lv.
    + destruct H as [-> [-> H]]. split; auto. split; auto.
      intros k. rewrite H, lists_with_list.
      destruct (Nat.leb_spec (S t) k), (Nat.leb_spec t k), (Nat.ltb_spec k 7),
        (Nat.eqb_spec k t); simpl; auto; lia.
    + intros k K. rewrite lists_with_list.
      destruct (Nat.eqb_spec k t); [lia |]. apply Sp. lia.
Qed.

Lemma spec_deallocate_unfold a l s :
  a <> 0 -> (l < Spec.levelCount)%nat ->
  Spec.deallocate a (Spec.levelSizeOf l) s =
  let '(a', l', s') := Spec.coalesce Spec.levelCount a (Spec.levelSizeOf l) l s in
  (0, 0, Spec.insert l' a' s').
Proof.
  intros N L. unfold Spec.deallocate.
  destruct (Z.eqb_spec a 0); [contradiction |].
  rewrite spec_levelOfSize_levelSizeOf by auto. reflexivity.
Qed.

Lemma spec_release_lower_first s b s3 s4 :
  after_two s b -> 0 < b -> b mod 4096 = 0 ->
  Spec.deallocate b (Spec.levelSizeOf 0) s = (0, 0, s3) ->
  Spec.deallocate (b + Spec.levelSizeOf 0) (Spec.levelSizeOf 0) s3 = (0, 0, s4) ->
  just_max s4 b.
Proof.
  intros A Pb Ab D3 D4.
  destruct (aligned_buddy b 0 ltac:(lia) Ab ltac:(lia)) as [E1 E2].
  pose proof (levelSizeOf_pos 0) as Pz.
  rewrite spec_deallocate_unfold in D3 by (lia || lv).
  change Spec.levelCount with 8%nat in D3. rewrite coalesce_S in D3.
  change (Spec.levelSizeOf 0 =? Spec.maxSize) with false in D3.
  unfold Spec.removeIfPresent in D3. rewrite (A 0%nat) in D3. simpl in D3.
  assert (E3 : s3 = Spec.insert 0 b s) by congruence. subst s3. clear D3.
  rewrite spec_deallocate_unfold in D4 by (lia || lv).
  change Spec.levelCount with 8%nat in D4. rewrite coalesce_S in D4.
  change (Spec.levelSizeOf 0 =? Spec.maxSize) with false in D4.
  assert (X1 : Z.lxor (b + Spec.levelSizeOf 0) (Spec.levelSizeOf 0) = b).
  { rewrite <- E1. apply lxor_levelSizeOf_invol. }
  assert (X2 : Z.land (b + Spec.levelSizeOf 0) (Z.lnot (Spec.levelSizeOf 0)) = b).
  { destruct (buddy_cases (b + Spec.levelSizeOf 0) 0 ltac:(lia))
      as [[Y _] | [_ [Y _]]]; lia. }
  assert (RP : Spec.removeIfPresent 0 b (Spec.insert 0 b s) =
               (true, Spec.with_list 0 [] (Spec.insert 0 b s))).
  { unfold Spec.removeIfPresent, Spec.insert. rewrite lists_with_list.
    rewrite (A 0%nat). simpl. rewrite Z.eqb_refl. reflexivity. }
  rewrite X1, X2, RP in D4. rewrite <- levelSizeOf_S in D4.
  destruct (Spec.coalesce 7 b (Spec.levelSizeOf 1) 1
              (Spec.with_list 0 [] (Spec.insert 0 b s))) as [[a' l'] s'] eqn:CO.
  assert (E4 : s4 = Spec.insert l' a' s') by congruence. subst s4. clear D4.
  apply (coalesce_full 6 1) in CO; auto; try lia; try lv.
  - destruct CO as [-> [-> H]]. intros k. unfold Spec.insert.
    rewrite lists_with_list. rewrite !H. unfold Spec.insert.
    rewrite !lists_with_list. rewrite !A.
    destruct (Nat.eqb_spec k 7) as [-> | N7]; [reflexivity |].
    destruct (Nat.leb_spec 1 k), (Nat.ltb_spec k 7), (Nat.eqb_spec k 0);
      simpl; auto; lia.
  - intros k K. rewrite lists_with_list. unfold Spec.insert.
    rewrite lists_with_list, (A k).
    destruct (Nat.leb_spec 1 k), (Nat.ltb_spec k 7), (Nat.eqb_spec k 0);
      simpl; auto; lia.
Qed.

Lemma spec_release_upper_first s b s3 s4 :
  after_two s b -> 0 < b -> b mod 4096 = 0 ->
  Spec.deallocate (b + Spec.levelSizeOf 0) (Spec.levelSizeOf 0) s = (0, 0, s3) ->
  Spec.deallocate b (Spec.levelSizeOf 0) s3 = (0, 0, s4) ->
  just_max s4 b.
Proof.
  intros A Pb Ab D3 D4.
  pose proof (levelSizeOf_pos 0) as Pz.
  rewrite spec_deallocate_unfold in D3 by (lia || lv).
  change Spec.levelCount with 8%nat in D3. rewrite coalesce_S in D3.
  change (Spec.levelSizeOf 0 =? Spec.maxSize) with false in D3.
  unfold Spec.removeIfPresent in D3. rewrite (A 0%nat) in D3. simpl in D3.
  assert (E3 : s3 = Spec.insert 0 (b + Spec.levelSizeOf 0) s) by congruence.
  subst s3. clear D3.
  rewrite spec_deallocate_unfold in D4 by (lia || lv).
  destruct (Spec.coalesce Spec.levelCount b (Spec.levelSizeOf 0) 0
              (Spec.insert 0 (b + Spec.levelSizeOf 0) s)) as [[a' l'] s'] eqn:CO.
  assert (E4 : s4 = Spec.insert l' a' s') by congruence. subst s4. clear D4.
  apply (coalesce_full 7 0) in CO; auto; try lia; try lv.
  - destruct CO as [-> [-> H]]. intros k. unfold Spec.insert.
    rewrite lists_with_list. rewrite !H. unfold Spec.insert.
    rewrite !lists_with_list. rewrite !A.
    destruct (Nat.eqb_spec k 7) as [-> | N7]; [reflexivity |].
    destruct (Nat.leb_spec 0 k), (Nat.leb_spec 1 k), (Nat.ltb_spec k 7),
      (Nat.eqb_spec k 0); simpl; auto; lia.
  - intros k K. unfold Spec.insert. rewrite lists_with_list. rewrite !A.
    destruct (Nat.eqb_spec k 0) as [-> | N0]; [reflexivity |].
    destruct (Nat.leb_spec 1 k), (Nat.ltb_spec k 7); simpl; auto; lia.
Qed.

Lemma lookup_level_min n : 0 < n <= minSize -> lookup_level n = Some 0%nat.
Proof.
  unfold minSize. intros H. rewrite lookup_level_small by lia.
  destruct (reverseLookup_at_spec n ltac:(lia)) as [l [E [_ [_ [-> | C]]]]]; auto.
  exfalso. assert (X : Spec.levelSizeOf 0 <= Spec.levelSizeOf (l - 1)).
  { destruct (Nat.eq_dec (l - 1) 0) as [-> | N]; [lia |].
    apply Z.lt_le_incl, levelSizeOf_mono. lia. }
  change (Spec.levelSizeOf 0) with 32 in X. lia.
Qed.

Lemma first_allocation st n h st' :
  initial st -> 0 < n <= minSize -> allocate n st = Ret (h, st') ->
  exists s1,
    represents st' s1 /\ store_inv s1 (held [h]) /\
    memory h = brk st /\ size h = minSize /\
    forall k, Spec.lists s1 k =
              if (k <? 7)%nat then [brk st + Spec.levelSizeOf k] else [].
Proof.
  intros In0 Pn A.
  destruct (initial_inv st In0) as [R0 I0]. cbv zeta in R0, I0.
  destruct (allocate_inv st _ [] n h st' R0 I0 ltac:(lia) A)
    as [t [s1 [LK [T [SA [Ez [R1 [I1 _]]]]]]]].
  rewrite (lookup_level_min n Pn) in LK.
  assert (t = 0%nat) by congruence. subst t.
  exists s1. split; [exact R1 |]. split; [exact I1 |].
  unfold Spec.allocateAt in SA.
  change (Spec.scan (Spec.levelCount - 0) 0
            (Spec.mkStore (fun _ => []) (brk st) (rlimit st))) with
    (@None (nat * Z * Spec.store)) in SA.
  unfold Spec.growByMaxBlock in SA. simpl Spec.break in SA. simpl Spec.limit in SA.
  simpl Spec.lists in SA.
  destruct (brk st + Spec.maxSize <=? rlimit st); [| discriminate].
  assert (E1 : memory h = brk st) by congruence.
  assert (E3 : s1 = Spec.splitDown (Spec.levelCount - 1) 0 (brk st)
                 (Spec.mkStore (fun _ => []) (brk st + Spec.maxSize) (rlimit st)))
    by congruence.
  split; [exact E1 |]. split; [exact Ez |].
  intros k. rewrite E3, splitDown_lists. simpl Spec.lists.
  change (Spec.levelCount - 1)%nat with 7%nat.
  destruct (Nat.ltb_spec k 7); reflexivity.
Qed.

Lemma second_allocation st1 s1 b n h1 h2 st2 :
  represents st1 s1 -> store_inv s1 (held [h1]) ->
  (forall k, Spec.lists s1 k =
             if (k <? 7)%nat then [b + Spec.levelSizeOf k] else []) ->
  0 < n <= minSize -> allocate n st1 = Ret (h2, st2) ->
  exists s2,
    represents st2 s2 /\ store_inv s2 (held [h2; h1]) /\
    memory h2 = b + minSize /\ size h2 = minSize /\
    after_two s2 b.
Proof.
  intros R1 I1 L1 Pn A.
  destruct (allocate_inv st1 s1 [h1] n h2 st2 R1 I1 ltac:(lia) A)
    as [t [s2 [LK [T [SA [Ez [R2 [I2 _]]]]]]]].
  rewrite (lookup_level_min n Pn) in LK.
  assert (t = 0%nat) by congruence. subst t.
  exists s2. split; [exact R2 |]. split; [exact I2 |].
  unfold Spec.allocateAt in SA.
  rewrite (scan_finds _ 0 s1 0 (b + Spec.levelSizeOf 0) []) in SA.
  - assert (E1 : memory h2 = b + Spec.levelSizeOf 0) by congruence.
    assert (E3 : s2 = Spec.with_list 0 [] s1) by (simpl in SA; congruence).
    split; [exact E1 |]. split; [exact Ez |].
    intros k. rewrite E3, lists_with_list, L1.
    destruct (Nat.eqb_spec k 0) as [-> | N]; [reflexivity |].
    destruct (Nat.leb_spec 1 k), (Nat.ltb_spec k 7); simpl; auto; lia.
  - intros k K. lia.
  - rewrite L1. reflexivity.
  - lv.
Qed.

Lemma just_max_one_max_block st s b :
  represents st s -> just_max s b -> one_max_block st b.
Proof.
  intros [R _] J. split.
  - change (maxLevels - 1)%nat with 7%nat.
    pose proof (R 7%nat ltac:(lv)) as X. rewrite (J 7%nat) in X. exact X.
  - intros l L. change (maxLevels - 1)%nat with 7%nat in L.
    pose proof (R l ltac:(lv)) as X. rewrite (J l) in X.
    destruct (Nat.eqb_spec l 7); [lia | exact X].
Qed.

(** C6 (amended).  Start from empty free lists with the heap break a
    multiple of [maxSize]; two requests of the smallest size return the
    two halves of one 64-byte block of the one top-level block that the
    first request obtained and split.  Releasing both, in either order,
    leaves exactly that top-level block on the free lists, and nothing at
    any smaller level. *)
Theorem two_buddies_coalesce : forall st n1 n2 h1 st1 h2 st2,
  initial st -> brk st mod maxSize = 0 ->
  0 < n1 <= minSize -> 0 < n2 <= minSize ->
  allocate n1 st = Ret (h1, st1) -> allocate n2 st1 = Ret (h2, st2) ->
  size h1 = minSize /\ size h2 = minSize /\
  memory h2 = Z.lxor (memory h1) minSize /\
  (exists st3 st4,
     releases h1 st2 st3 /\ releases h2 st3 st4 /\
     one_max_block st4 (brk st)) /\
  (exists st3 st4,
     releases h2 st2 st3 /\ releases h1 st3 st4 /\
     one_max_block st4 (brk st)).
Proof.
  intros st n1 n2 h1 st1 h2 st2 In0 Ab P1 P2 A1 A2.
  rewrite maxSize_value in Ab.
  destruct In0 as [In1 [Pb In3]].
  destruct (first_allocation st n1 h1 st1 (conj In1 (conj Pb In3)) P1 A1)
    as [s1 [R1 [I1 [M1 [Z1 L1]]]]].
  destruct (second_allocation st1 s1 (brk st) n2 h1 h2 st2 R1 I1 L1 P2 A2)
    as [s2 [R2 [I2 [M2 [Z2 L2]]]]].
  destruct (aligned_buddy (brk st) 0 ltac:(lia) Ab ltac:(lia)) as [X1 _].
  change (Spec.levelSizeOf 0) with minSize in X1.
  assert (Nh : h2 <> h1) by (intros ->; unfold minSize in *; lia).
  split; [exact Z1 |]. split; [exact Z2 |].
  split; [rewrite M1, M2, X1; reflexivity |].
  split.
  - destruct (deallocate_total st2 s2 _ h1 R2 I2 ltac:(right; left; reflexivity))
      as [s3 [st3 [D3 [Rl3 [R3 I3]]]]].
    destruct (deallocate_total st3 s3 _ h2 R3 I3) as [s4 [st4 [D4 [Rl4 [R4 _]]]]].
    { apply in_in_remove; [exact Nh | left; reflexivity]. }
    exists st3, st4. split; [exact Rl3 |]. split; [exact Rl4 |].
    apply (just_max_one_max_block st4 s4 _ R4).
    rewrite M1, Z1 in D3. rewrite M2, Z2 in D4.
    exact (spec_release_lower_first s2 (brk st) s3 s4 L2 Pb Ab D3 D4).
  - destruct (deallocate_total st2 s2 _ h2 R2 I2 ltac:(left; reflexivity))
      as [s3 [st3 [D3 [Rl3 [R3 I3]]]]].
    destruct (deallocate_total st3 s3 _ h1 R3 I3) as [s4 [st4 [D4 [Rl4 [R4 _]]]]].
    { apply in_in_remove; [intros E; apply Nh; auto | right; left; reflexivity]. }
    exists st3, st4. split; [exact Rl3 |]. split; [exact Rl4 |].
    apply (just_max_one_max_block st4 s4 _ R4).
    rewrite M2, Z2 in D3. rewrite M1, Z1 in D4.
    exact (spec_release_upper_first s2 (brk st) s3 s4 L2 Pb Ab D3 D4).
Qed.

Lemma demo0_initial : initial demo0.
Proof. apply fresh_state_initial; unfold word; lia. Qed.

Lemma two_buddies_coalesce_witness :
  initial demo0 /\ brk demo0 mod maxSize = 0 /\
  0 < 32 <= minSize /\
  allocate 32 demo0 = Ret (fst two1, snd two1) /\
  allocate 32 (snd two1) = Ret (fst two2, snd two2) /\
  size (fst two1) = minSize /\ size (fst two2) = minSize /\
  memory (fst two2) = Z.lxor (memory (fst two1)) minSize /\
  (exists st3 st4,
     releases (fst two1) (snd two2) st3 /\ releases (fst two2) st3 st4 /\
     one_max_block st4 (brk demo0)) /\
  (exists st3 st4,
     releases (fst two2) (snd two2) st3 /\ releases (fst two1) st3 st4 /\
     one_max_block st4 (brk demo0)).
Proof.
  assert (A1 : allocate 32 demo0 = Ret (fst two1, snd two1))
    by (vm_compute; reflexivity).
  assert (A2 : allocate 32 (snd two1) = Ret (fst two2, snd two2))
    by (vm_compute; reflexivity).
  assert (B : brk demo0 mod maxSize = 0) by reflexivity.
  assert (P : 0 < 32 <= minSize) by (unfold minSize; lia).
  split; [exact demo0_initial |]. split; [exact B |]. split; [exact P |].
  split; [exact A1 |]. split; [exact A2 |].
  exact (two_buddies_coalesce demo0 32 32 (fst two1) (snd two1)
           (fst two2) (snd two2) demo0_initial B P P A1 A2).
Defined.

Lemma skew0_initial : initial skew0.
Proof. apply fresh_state_initial; unfold word; lia. Qed.

Lemma releases_deterministic h st st1 st2 :
  releases h st st1 -> releases h st st2 -> st1 = st2.
Proof.
  intros [f1 H1] [f2 H2].
  specialize (H1 (f1 + f2)%nat ltac:(lia)).
  specialize (H2 (f1 + f2)%nat ltac:(lia)). congruence.
Qed.

Lemma releases_run fuel h st st' :
  deallocate fuel h st = Ret (null_allocation, st') -> releases h st st'.
Proof.
  intros D. exists fuel. intros f F. eapply deallocate_mono; eauto.
Qed.

(** What the run is: the break is at 20544 = 5 * 4096 + 64; the two
    blocks are at 20544 and 20576 = 20544 XOR 32; after both releases the
    64-byte block at 20544 sits on level 1 next to the upper half that the
    split left there, and the top list is empty. *)
Lemma skew4_trace :
  fst skew1 = mkAllocation 20544 32 /\ fst skew2 = mkAllocation 20576 32 /\
  Z.lxor 20544 32 = 20576 /\
  free_list skew4 0 [] /\ free_list skew4 1 [20544; 20608] /\
  free_list skew4 7 [].
Proof.
  do 3 (split; [reflexivity |]).
  vm_compute. repeat split; discriminate.
Qed.

(** C6, as stated, fails when the heap break is not a multiple of
    [maxSize]: the two 32-byte blocks are the two halves of one 64-byte
    block and each other's address complement, they merge, and the merge
    stops there. *)
Lemma unaligned_pair_stays_split :
  ~ (forall st h1 st1 h2 st2 st3 st4,
       initial st ->
       allocate minSize st = Ret (h1, st1) ->
       allocate minSize st1 = Ret (h2, st2) ->
       memory h2 = Z.lxor (memory h1) minSize ->
       releases h1 st2 st3 -> releases h2 st3 st4 ->
       exists a, one_max_block st4 a).
Proof.
  intros H.
  destruct (H skew0 (fst skew1) (snd skew1) (fst skew2) (snd skew2) skew3 skew4
              skew0_initial) as [a [_ E]].
  - vm_compute. reflexivity.
  - vm_compute. reflexivity.
  - reflexivity.
  - apply (releases_run 20). vm_compute. reflexivity.
  - apply (releases_run 20). vm_compute. reflexivity.
  - specialize (E 1%nat ltac:(unfold maxLevels; lia)).
    vm_compute in E. discriminate.
Qed.

(** C7 (amended).  In every reachable state in which the heap break is a
    multiple of [maxSize] (so that every block obtained from heap growth
    is), every block in circulation, held by a caller or on the free list
    of its level, is a multiple of its size: splitting and merging
    preserve the alignment. *)
Theorem blocks_aligned : forall st outs,
  reachable st outs -> brk st mod maxSize = 0 ->
  (forall h, In h outs -> memory h mod size h = 0) /\
  (forall l, (l < maxLevels)%nat ->
     exists xs, free_list st l xs /\
                forall a, In a xs -> a mod nth l levelSize 0 = 0).
Proof.
  intros st outs H Bk.
  destruct (reachable_aligned st outs H) as [s [R [I AL]]].
  pose proof R as [RL [RB _]].
  rewrite RB in Bk. change maxSize with Spec.maxSize in Bk.
  specialize (AL Bk). split.
  - intros h Ih. apply AL. right. unfold held. destruct h. exact Ih.
  - intros l L. exists (Spec.lists s l). split; [apply RL; exact L |].
    intros a Ia. rewrite levelSize_nth by exact L.
    apply AL. left. exists l. split; [split; [lv | exact Ia] | reflexivity].
Qed.

Lemma blocks_aligned_witness :
  reachable (snd demo1) [fst demo1] /\ brk (snd demo1) mod maxSize = 0 /\
  (forall h, In h [fst demo1] -> memory h mod size h = 0) /\
  (forall l, (l < maxLevels)%nat ->
     exists xs, free_list (snd demo1) l xs /\
                forall a, In a xs -> a mod nth l levelSize 0 = 0).
Proof.
  split; [exact demo1_reachable |]. split; [reflexivity |].
  apply (blocks_aligned (snd demo1) [fst demo1] demo1_reachable).
  reflexivity.
Defined.

Lemma skewtop_trace :
  fst skewtop = mkAllocation 20544 4096 /\ 20544 mod 4096 = 64.
Proof. split; reflexivity. Qed.

(** C7, as stated, fails: nothing aligns what [sbrk] returns, and a
    top-level block is wherever the heap break was. *)
Lemma unaligned_break_gives_unaligned_block :
  ~ (forall st outs,
       reachable st outs ->
       forall h, In h outs -> memory h mod size h = 0).
Proof.
  intros H.
  assert (R : reachable (snd skewtop) [fst skewtop]).
  { apply (reach_allocate skew0 [] 4096 _ _ (reach_init _ skew0_initial));
      [unfold word; lia | vm_compute; reflexivity]. }
  specialize (H _ _ R (fst skewtop) ltac:(left; reflexivity)).
  vm_compute in H. discriminate.
Qed.

(** * Further properties of the code *)

(** ** [popcount] *)

Lemma popcount_loop_ge bits : forall v s, 0 <= v -> s <= popcount_loop bits v s.
Proof.
  induction bits as [| b IH]; intros v s Hv; simpl; [lia |].
  destruct (v =? 0); [lia |].
  assert (0 <= Z.land v 1) by (apply Z.land_nonneg; lia).
  etransitivity; [| apply IH; apply Z.shiftr_nonneg; lia]. lia.
Qed.

Lemma popcount_loop_zero bits : forall v s,
  0 <= v < 2 ^ Z.of_nat bits ->
  (popcount_loop bits v s = s <-> v = 0).
Proof.
  induction bits as [| b IH]; intros v s Hv.
  - simpl in *. split; [lia | reflexivity].
  - cbn [popcount_loop].
    destruct (Z.eqb_spec v 0) as [-> | N]; [tauto |].
    split; [| contradiction]. intros E. exfalso.
    rewrite Z.shiftr_div_pow2 in E by lia. change (2 ^ 1) with 2 in E.
    rewrite Z.land_ones with (n := 1) in E by lia. change (2 ^ 1) with 2 in E.
    assert (Hd : 0 <= v / 2 < 2 ^ Z.of_nat b).
    { rewrite Nat2Z.inj_succ, Z.pow_succ_r in Hv by lia.
      split; [apply Z.div_pos; lia | apply Z.div_lt_upper_bound; lia]. }
    pose proof (popcount_loop_ge b (v / 2) (s + v mod 2) ltac:(lia)) as G.
    pose proof (Z.mod_pos_bound v 2 ltac:(lia)) as M.
    assert (M0 : v mod 2 = 0) by lia.
    rewrite M0, Z.add_0_r in E. apply IH in E; [| exact Hd].
    pose proof (Z.div_mod v 2 ltac:(lia)). lia.
Qed.

Lemma popcount_loop_one bits : forall v s,
  0 <= v < 2 ^ Z.of_nat bits ->
  (popcount_loop bits v s = s + 1 <->
   exists k, 0 <= k < Z.of_nat bits /\ v = 2 ^ k).
Proof.
  induction bits as [| b IH]; intros v s Hv.
  - simpl in *. assert (v = 0) by lia. subst v. split; [lia |].
    intros [k [K _]]. lia.
  - cbn [popcount_loop].
    assert (Hd : 0 <= v / 2 < 2 ^ Z.of_nat b).
    { rewrite Nat2Z.inj_succ, Z.pow_succ_r in Hv by lia.
      split; [apply Z.div_pos; lia | apply Z.div_lt_upper_bound; lia]. }
    pose proof (Z.mod_pos_bound v 2 ltac:(lia)) as M.
    pose proof (Z.div_mod v 2 ltac:(lia)) as DM.
    destruct (Z.eqb_spec v 0) as [-> | N].
    { split; [lia |]. intros [k [K E]].
      assert (0 < 2 ^ k) by (apply Z.pow_pos_nonneg; lia). lia. }
    rewrite Z.shiftr_div_pow2 by lia. change (2 ^ 1) with 2.
    rewrite Z.land_ones with (n := 1) by lia. change (2 ^ 1) with 2.
    destruct (Z.eq_dec (v mod 2) 0) as [M0 | M1].
    + rewrite M0, Z.add_0_r. rewrite IH by exact Hd. split.
      * intros [k [K E]]. exists (k + 1). split; [lia |].
        rewrite Z.pow_add_r by lia. change (2 ^ 1) with 2. lia.
      * intros [k [K E]].
        destruct (Z.eq_dec k 0) as [-> | Nk].
        { change (2 ^ 0) with 1 in E. subst v. discriminate M0. }
        exists (k - 1). split; [lia |].
        replace k with (Z.succ (k - 1)) in E by lia.
        rewrite Z.pow_succ_r in E by lia. lia.
    + assert (M2 : v mod 2 = 1) by lia. rewrite M2.
      rewrite (popcount_loop_zero b (v / 2) (s + 1) Hd). split.
      * intros E. exists 0. split; [lia |]. change (2 ^ 0) with 1. lia.
      * intros [k [K E]].
        destruct (Z.eq_dec k 0) as [-> | Nk].
        { change (2 ^ 0) with 1 in E. subst v. reflexivity. }
        exfalso. replace k with (Z.succ (k - 1)) in E by lia.
        rewrite Z.pow_succ_r in E by lia. subst v.
        rewrite Z.mul_comm, Z.mod_mul in M2 by lia. discriminate.
Qed.

(** X1.  [popcount] of a 64-bit value is 1 exactly on the powers of two: this
    is what the [static_assert] on [minSize] relies on. *)
Theorem popcount_one_iff_pow2 : forall v,
  0 <= v < word -> (popcount v = 1 <-> is_pow2 v).
Proof.
  intros v Hv. unfold popcount, is_pow2.
  apply (popcount_loop_one 64 v 0). exact Hv.
Qed.

Lemma popcount_one_iff_pow2_witness :
  0 <= 32 < word /\ (popcount 32 = 1 <-> is_pow2 32).
Proof.
  assert (H : 0 <= 32 < word) by (unfold word; lia).
  split; [exact H | exact (popcount_one_iff_pow2 32 H)].
Defined.

(** ** The table of level sizes *)

(** X2.  The loop that fills [levelSize] keeps its size in an [int].  As
    long as no shift of the loop leaves the range of an [int], that is
    [sz << n < 2^31] for the [n] levels, it puts [sz << i] at index [i] for
    every [i < n] and nothing beyond, and every entry is a non-negative
    [int].  The code's constants, 8 levels from 32 bytes, are in that
    range. *)
Theorem levelSize_loop_nth : forall n sz i,
  0 <= sz -> Z.shiftl sz (Z.of_nat n) < 2 ^ 31 ->
  nth_error (levelSize_loop n sz) i =
  (if (i <? n)%nat then Some (Z.shiftl sz (Z.of_nat i)) else None) /\
  ((i < n)%nat -> 0 <= Z.shiftl sz (Z.of_nat i) < 2 ^ 31).
Proof.
  intros n sz i P B. split.
  - clear P B. revert sz i. induction n as [| n IH]; intros sz i.
    + destruct i; reflexivity.
    + cbn [levelSize_loop]. destruct i as [| i].
      * cbn [nth_error]. rewrite Z.shiftl_0_r. reflexivity.
      * cbn [nth_error]. rewrite IH.
        change (S i <? S n)%nat with (i <? n)%nat.
        destruct (i <? n)%nat; [| reflexivity].
        rewrite Z.shiftl_shiftl by lia. do 2 f_equal. lia.
  - intros L. rewrite Z.shiftl_mul_pow2 in * by lia.
    assert (0 < 2 ^ Z.of_nat i) by (apply Z.pow_pos_nonneg; lia).
    assert (2 ^ Z.of_nat i <= 2 ^ Z.of_nat n) by (apply Z.pow_le_mono_r; lia).
    split; [apply Z.mul_nonneg_nonneg; lia |].
    apply Z.le_lt_trans with (sz * 2 ^ Z.of_nat n); [| exact B].
    apply Z.mul_le_mono_nonneg_l; lia.
Qed.

Lemma levelSize_loop_nth_witness :
  0 <= minSize /\ Z.shiftl minSize (Z.of_nat maxLevels) < 2 ^ 31 /\
  nth_error (levelSize_loop maxLevels minSize) 7 =
  (if (7 <? maxLevels)%nat then Some (Z.shiftl minSize (Z.of_nat 7)) else None) /\
  ((7 < maxLevels)%nat -> 0 <= Z.shiftl minSize (Z.of_nat 7) < 2 ^ 31).
Proof.
  assert (P : 0 <= minSize) by (unfold minSize; lia).
  assert (B : Z.shiftl minSize (Z.of_nat maxLevels) < 2 ^ 31)
    by (vm_compute; reflexivity).
  split; [exact P |]. split; [exact B |].
  exact (levelSize_loop_nth maxLevels minSize 7 P B).
Defined.

(** ** The level of a request and the level of a handle *)

(** X3.  [deallocate] recomputes, from the size recorded in the handle, the
    level at which [allocate] served the request. *)
Theorem handle_level_is_request_level : forall n st h st',
  allocate n st = Ret (h, st') ->
  lookup_level (size h) = lookup_level n.
Proof.
  intros n st h st' A.
  destruct (allocate_size _ _ _ _ A) as [t [LK LS]].
  rewrite levelSize_at_spec in LS.
  destruct (Nat.ltb_spec t maxLevels) as [T | T]; [| discriminate].
  assert (E : size h = Spec.levelSizeOf t) by congruence.
  rewrite E, LK. apply lookup_level_levelSizeOf. exact T.
Qed.

Lemma handle_level_is_request_level_witness :
  allocate 40 demo0 = Ret (fst demo1, snd demo1) /\
  lookup_level (size (fst demo1)) = lookup_level 40.
Proof.
  split; [exact demo1_allocated |].
  exact (handle_level_is_request_level 40 demo0 _ _ demo1_allocated).
Defined.

(** X4.  Requests of at most [minSize] bytes, the empty request included, are
    all served alike. *)
Theorem small_requests_alike : forall n st,
  0 <= n <= minSize -> allocate n st = allocate minSize st.
Proof.
  intros n st H. unfold allocate.
  assert (E : lookup_level n = Some 0%nat).
  { destruct (Z.eq_dec n 0) as [-> | N]; [reflexivity |].
    apply lookup_level_min. lia. }
  rewrite E. reflexivity.
Qed.

Lemma small_requests_alike_witness :
  0 <= 0 <= minSize /\ allocate 0 demo0 = allocate minSize demo0.
Proof.
  assert (H : 0 <= 0 <= minSize) by (unfold minSize; lia).
  split; [exact H | exact (small_requests_alike 0 demo0 H)].
Defined.

(** ** The heap break *)

Lemma find_block_brk n : forall l st m c st',
  find_block n l st = (m, c, st') ->
  brk st' = brk st /\ rlimit st' = rlimit st /\
  (m = 0 ->
   st' = st /\ forall k, (l <= k < l + n)%nat -> empty (Head k) st = true).
Proof.
  induction n as [| n IH]; intros l st m c st' H; simpl in H.
  - injection H as <- <- <-. repeat split; auto. intros k K. lia.
  - destruct (empty (Head l) st) eqn:E; simpl in H.
    + destruct (IH _ _ _ _ _ H) as [B [R Z0]]. repeat split; auto.
      * apply Z0; auto.
      * destruct (Z0 H0) as [_ X]. intros k K.
        destruct (Nat.eq_dec k l) as [-> | N]; [exact E | apply X; lia].
    + injection H as <- <- <-. repeat split; auto;
        unfold empty in E; simpl in E; apply Z.eqb_neq in E; intros; contradiction.
Qed.

Lemma split_brk c : forall t m st st',
  split c t m st = Ret st' -> brk st' = brk st /\ rlimit st' = rlimit st.
Proof.
  induction c as [| c IH]; intros t m st st' H; simpl in H.
  - injection H as <-. auto.
  - destruct (t <? S c)%nat; [| injection H as <-; auto].
    destruct (levelSize_at c) as [z |]; [| discriminate].
    apply IH in H. simpl in H. exact H.
Qed.

(** X5.  [allocate] moves the heap break by nothing or by exactly [maxSize];
    it moves it only when every free list from the target level up is
    empty, and the block it then returns is the fresh region. *)
Theorem heap_grows_only_when_needed : forall n t st h st',
  lookup_level n = Some t -> allocate n st = Ret (h, st') ->
  rlimit st' = rlimit st /\
  (brk st' = brk st \/
   (brk st' = brk st + maxSize /\ memory h = brk st /\
    forall l, (t <= l < maxLevels)%nat -> empty (Head l) st = true)).
Proof.
  intros n t st h st' LK A. unfold allocate in A. rewrite LK in A.
  destruct (find_block (maxLevels - t) t st) as [[mem0 lvl0] st0] eqn:FB.
  destruct (find_block_brk _ _ _ _ _ _ FB) as [B0 [R0 Z0]].
  destruct (Z.eqb_spec mem0 0) as [E0 | N0].
  - destruct (Z0 E0) as [-> Em]. unfold sbrk in A.
    destruct (brk st + maxSize <=? rlimit st) eqn:LE.
    + destruct (brk st =? sbrk_failed); [discriminate |].
      destruct (levelSize_at t) as [g |]; [| discriminate].
      destruct (split _ t (brk st) _) as [st2 | | |] eqn:SP; try discriminate.
      injection A as <- <-. apply split_brk in SP. simpl in SP.
      destruct SP as [-> ->]. split; [reflexivity |]. right.
      split; [reflexivity |]. split; [reflexivity |].
      intros l L. apply Em. unfold maxLevels in *. lia.
    + rewrite Z.eqb_refl in A. discriminate.
  - destruct (mem0 =? sbrk_failed); [discriminate |].
    destruct lvl0 as [c |]; [| discriminate].
    destruct (levelSize_at t) as [g |]; [| discriminate].
    destruct (split c t mem0 st0) as [st2 | | |] eqn:SP; try discriminate.
    injection A as <- <-. apply split_brk in SP.
    destruct SP as [-> ->]. split; [exact R0 |]. left. exact B0.
Qed.

Lemma heap_grows_only_when_needed_witness :
  lookup_level 40 = Some 1%nat /\
  allocate 40 demo0 = Ret (fst demo1, snd demo1) /\
  rlimit (snd demo1) = rlimit demo0 /\
  (brk (snd demo1) = brk demo0 \/
   (brk (snd demo1) = brk demo0 + maxSize /\ memory (fst demo1) = brk demo0 /\
    forall l, (1 <= l < maxLevels)%nat -> empty (Head l) demo0 = true)).
Proof.
  assert (LK : lookup_level 40 = Some 1%nat) by (vm_compute; reflexivity).
  split; [exact LK |]. split; [exact demo1_allocated |].
  exact (heap_grows_only_when_needed 40 1 demo0 _ _ LK demo1_allocated).
Defined.

Lemma bubble_brk n : forall fuel mem sz lv st r,
  bubble n fuel mem sz lv st = Ret r ->
  brk (snd r) = brk st /\ rlimit (snd r) = rlimit st.
Proof.
  induction n as [| n IH]; intros fuel mem sz lv st r H; [discriminate |].
  rewrite bubble_S in H.
  destruct (sz =? maxSize); [injection H as <-; auto |].
  destruct (levelSize_at lv) as [z |]; [| discriminate].
  destruct (scavenge fuel (Head lv) (Z.lxor mem z) st) as [[p |] |];
    [| injection H as <-; auto | discriminate].
  apply IH in H. unfold extract in H. simpl snd in H.
  rewrite brk_set_next, rlimit_set_next in H. exact H.
Qed.

(** X6.  [deallocate] never moves the heap break: memory that was obtained
    from the operating system is never given back. *)
Theorem deallocate_keeps_break : forall fuel h st h' st',
  deallocate fuel h st = Ret (h', st') ->
  brk st' = brk st /\ rlimit st' = rlimit st.
Proof.
  intros fuel h st h' st' D. unfold deallocate in D.
  destruct (memory h =? 0); [injection D as <- <-; auto |].
  destruct (lookup_level (size h)) as [lv |]; [| discriminate].
  destruct (bubble fuel fuel (memory h) (size h) lv st)
    as [[[[mem sz] lv'] st1] | | |] eqn:B; try discriminate.
  destruct (lv' <? maxLevels)%nat; [| discriminate].
  injection D as <- <-. apply bubble_brk in B. simpl in B.
  simpl. exact B.
Qed.

Lemma deallocate_keeps_break_witness :
  exists st',
    deallocate 20 (fst demo1) (snd demo1) = Ret (null_allocation, st') /\
    brk st' = brk (snd demo1) /\ rlimit st' = rlimit (snd demo1).
Proof.
  eexists. split; [vm_compute; reflexivity |].
  eapply (deallocate_keeps_break 20 (fst demo1) (snd demo1)).
  vm_compute. reflexivity.
Defined.

(** ** Blocks never overlap *)

Lemma NoDup_remove_all h (outs : list Allocation) :
  NoDup outs -> NoDup (remove Allocation_eq_dec h outs).
Proof.
  induction 1 as [| x r N ND IH]; simpl; [constructor |].
  destruct (Allocation_eq_dec h x); auto.
  constructor; auto. intros I. apply in_remove in I. tauto.
Qed.

Lemma reachable_NoDup st outs : reachable st outs -> NoDup outs.
Proof.
  induction 1 as [st H | st outs sz h st' H IH P A | st outs fuel h h' st' H IH Ih D].
  - constructor.
  - destruct (reachable_inv st outs H) as [s [R I]].
    destruct (allocate_inv st s outs sz h st' R I ltac:(lia) A)
      as [t [s' [_ [_ [_ [_ [_ [_ [_ NH]]]]]]]]].
    constructor; auto. intros Ih. apply NH. unfold held. destruct h. exact Ih.
  - apply NoDup_remove_all. exact IH.
Qed.

(** X7.  Every handle a caller holds is non-empty, has one of the level sizes,
    and its block lies below the heap break (which lies inside the address
    space); no handle is held twice and no two held blocks share a byte. *)
Theorem held_blocks_disjoint : forall st outs,
  reachable st outs ->
  NoDup outs /\
  (forall h, In h outs ->
     to_bool h = true /\ 0 < memory h /\ memory h + size h <= brk st /\
     brk st < word /\ In (size h) levelSize) /\
  (forall h1 h2, In h1 outs -> In h2 outs -> h1 <> h2 ->
     memory h1 + size h1 <= memory h2 \/ memory h2 + size h2 <= memory h1).
Proof.
  intros st outs H.
  destruct (reachable_inv st outs H) as [s [[_ [RB _]] I]].
  split; [exact (reachable_NoDup st outs H) |]. split.
  - intros h Ih.
    destruct (si_sound _ _ I (memory h) (size h)) as [P [B [l [L E]]]].
    { right. unfold held. destruct h. exact Ih. }
    destruct (si_break _ _ I) as [_ [B2 B3]].
    split; [unfold to_bool; destruct (Z.eqb_spec (memory h) 0); [lia | reflexivity] |].
    split; [exact P |]. split; [lia |]. split; [lia |].
    apply In_levelSize. exists l. split; [lv | exact E].
  - intros h1 h2 I1 I2 N.
    apply (si_apart _ _ I).
    + right. unfold held. destruct h1. exact I1.
    + right. unfold held. destruct h2. exact I2.
    + destruct h1 as [m1 z1], h2 as [m2 z2]. simpl.
      destruct (Z.eq_dec m1 m2) as [-> | Nm]; [| left; exact Nm].
      right. intros ->. apply N. reflexivity.
Qed.

Lemma demo2_reachable : reachable (snd demo2) [fst demo2; fst demo1].
Proof.
  apply (reach_allocate _ _ 100 _ _ demo1_reachable);
    [unfold word; lia | vm_compute; reflexivity].
Qed.

Lemma held_blocks_disjoint_witness :
  reachable (snd demo2) [fst demo2; fst demo1] /\
  NoDup [fst demo2; fst demo1] /\
  (forall h, In h [fst demo2; fst demo1] ->
     to_bool h = true /\ 0 < memory h /\ memory h + size h <= brk (snd demo2) /\
     brk (snd demo2) < word /\ In (size h) levelSize) /\
  (forall h1 h2, In h1 [fst demo2; fst demo1] -> In h2 [fst demo2; fst demo1] ->
     h1 <> h2 ->
     memory h1 + size h1 <= memory h2 \/ memory h2 + size h2 <= memory h1).
Proof.
  split; [exact demo2_reachable |].
  exact (held_blocks_disjoint _ _ demo2_reachable).
Defined.

(** X8.  A block on a free list shares no byte with a block a caller holds:
    [allocate] never hands out memory that is still free, and [deallocate]
    never leaves a held block on a list. *)
Theorem held_and_free_disjoint : forall st outs h l xs a,
  reachable st outs -> In h outs ->
  (l < maxLevels)%nat -> free_list st l xs -> In a xs ->
  memory h + size h <= a \/ a + nth l levelSize 0 <= memory h.
Proof.
  intros st outs h l xs a H Ih L F Ia.
  destruct (reachable_inv st outs H) as [s [R I]].
  rewrite (represents_lists_unique st s l xs R L F) in Ia.
  rewrite levelSize_nth by exact L.
  assert (C : cell s l a) by (split; [lv | exact Ia]).
  assert (Hh : held outs (memory h) (size h)) by (unfold held; destruct h; exact Ih).
  apply (si_apart _ _ I (memory h) (size h) a (Spec.levelSizeOf l)).
  - right. exact Hh.
  - eapply cell_block. exact C.
  - destruct (Z.eq_dec (memory h) a) as [E | N]; [| left; exact N].
    right. intros E2. apply (si_excl _ _ I l a C). rewrite <- E, <- E2. exact Hh.
Qed.

Lemma held_and_free_disjoint_witness :
  reachable (snd demo1) [fst demo1] /\ In (fst demo1) [fst demo1] /\
  (1 < maxLevels)%nat /\ free_list (snd demo1) 1 [8256] /\ In 8256 [8256] /\
  (memory (fst demo1) + size (fst demo1) <= 8256 \/
   8256 + nth 1%nat levelSize 0 <= memory (fst demo1)).
Proof.
  assert (F : free_list (snd demo1) 1 [8256])
    by (vm_compute; repeat split; discriminate).
  assert (L : (1 < maxLevels)%nat) by (unfold maxLevels; lia).
  split; [exact demo1_reachable |]. split; [left; reflexivity |].
  split; [exact L |]. split; [exact F |]. split; [left; reflexivity |].
  exact (held_and_free_disjoint _ _ (fst demo1) 1%nat [8256] 8256
           demo1_reachable (or_introl eq_refl) L F (or_introl eq_refl)).
Defined.

(** X9.  A block is on at most one free list and at most once, and no two free
    blocks share a byte. *)
Theorem free_blocks_disjoint : forall st outs l1 l2 xs1 xs2 a1 a2,
  reachable st outs ->
  (l1 < maxLevels)%nat -> (l2 < maxLevels)%nat ->
  free_list st l1 xs1 -> free_list st l2 xs2 ->
  In a1 xs1 -> In a2 xs2 ->
  NoDup xs1 /\
  (l1 <> l2 \/ a1 <> a2 ->
   a1 + nth l1 levelSize 0 <= a2 \/ a2 + nth l2 levelSize 0 <= a1).
Proof.
  intros st outs l1 l2 xs1 xs2 a1 a2 H L1 L2 F1 F2 I1 I2.
  destruct (reachable_inv st outs H) as [s [R I]].
  rewrite (represents_lists_unique st s l1 xs1 R L1 F1) in *.
  rewrite (represents_lists_unique st s l2 xs2 R L2 F2) in *.
  split; [apply (si_nodup _ _ I); lv |].
  intros N. rewrite !levelSize_nth by assumption.
  apply (si_apart _ _ I a1 _ a2 _).
  - left. exists l1. split; [split; [lv | exact I1] | reflexivity].
  - left. exists l2. split; [split; [lv | exact I2] | reflexivity].
  - destruct N as [N | N]; [| left; exact N].
    right. intros E. apply N. apply levelSizeOf_inj. exact E.
Qed.

Lemma free_blocks_disjoint_witness :
  reachable (snd demo1) [fst demo1] /\
  (1 < maxLevels)%nat /\ (2 < maxLevels)%nat /\
  free_list (snd demo1) 1 [8256] /\ free_list (snd demo1) 2 [8320] /\
  In 8256 [8256] /\ In 8320 [8320] /\
  NoDup [8256] /\
  (1%nat <> 2%nat \/ 8256 <> 8320 ->
   8256 + nth 1%nat levelSize 0 <= 8320 \/ 8320 + nth 2%nat levelSize 0 <= 8256).
Proof.
  assert (F1 : free_list (snd demo1) 1 [8256])
    by (vm_compute; repeat split; discriminate).
  assert (F2 : free_list (snd demo1) 2 [8320])
    by (vm_compute; repeat split; discriminate).
  assert (L1 : (1 < maxLevels)%nat) by (unfold maxLevels; lia).
  assert (L2 : (2 < maxLevels)%nat) by (unfold maxLevels; lia).
  split; [exact demo1_reachable |]. split; [exact L1 |]. split; [exact L2 |].
  split; [exact F1 |]. split; [exact F2 |].
  split; [left; reflexivity |]. split; [left; reflexivity |].
  exact (free_blocks_disjoint _ _ 1%nat 2%nat [8256] [8320] 8256 8320
           demo1_reachable L1 L2 F1 F2 (or_introl eq_refl) (or_introl eq_refl)).
Defined.

(** ** [FreeList] is a stack *)



(** ** Printing a [FreeList] *)

Lemma print_loop_chain st : forall xs fuel h os,
  chain (heap st) h xs -> (length xs < fuel)%nat ->
  print_loop fuel (mkIterator h) st os = Some (os ++ xs).
Proof.
  induction xs as [| x r IH]; intros fuel h os C F; simpl in *.
  - destruct fuel; [lia |]. subst h. simpl. rewrite app_nil_r. reflexivity.
  - destruct fuel; [lia |]. destruct C as [-> [N C]].
    cbn [print_loop]. unfold iter_neq, end_. cbn [it].
    destruct (Z.eqb_spec x 0) as [? | _]; [contradiction |]. cbn [negb].
    unfold iter_incr, print_Iterator. cbn [it].
    rewrite (IH fuel (heap st x) (os ++ [x]) C ltac:(lia)).
    rewrite <- app_assoc. reflexivity.
Qed.

(** X11.  Printing the free list of a level writes the addresses of exactly the
    blocks that are free at that level, head first, after what the stream
    held, and ends when the walk has one step more than the list is long. *)
Theorem print_FreeList_writes_the_list : forall st l xs os fuel,
  free_list st l xs -> (length xs < fuel)%nat ->
  print_FreeList fuel os (Head l) st = Some (os ++ xs).
Proof.
  intros st l xs os fuel C F. unfold print_FreeList, begin.
  apply print_loop_chain; auto.
Qed.

Lemma print_FreeList_writes_the_list_witness :
  free_list (snd demo1) 1 [8256] /\ (length [8256%Z] < 5)%nat /\
  print_FreeList 5 [] (Head 1) (snd demo1) = Some ([] ++ [8256]).
Proof.
  assert (F : free_list (snd demo1) 1 [8256])
    by (vm_compute; repeat split; discriminate).
  assert (L : (length [8256%Z] < 5)%nat) by (simpl; lia).
  split; [exact F |]. split; [exact L |].
  exact (print_FreeList_writes_the_list (snd demo1) 1 [8256] [] 5 F L).
Defined.

(** ** Releasing a block twice *)

Lemma deallocate_top st fuel h h' st' :
  memory h <> 0 -> size h = maxSize ->
  deallocate fuel h st = Ret (h', st') ->
  st' = emplace (Head (maxLevels - 1)) (memory h) st.
Proof.
  intros N Z D. unfold deallocate in D.
  destruct (Z.eqb_spec (memory h) 0); [contradiction |].
  rewrite Z in D. change (lookup_level maxSize) with (Some 7%nat) in D.
  destruct fuel as [| f]; [discriminate |].
  rewrite bubble_S, Z.eqb_refl in D.
  change (7 <? maxLevels)%nat with true in D.
  injection D as _ <-. reflexivity.
Qed.

Lemma stuck_on_allocate st a n :
  stuck_on a st -> a <> 0 -> a <> sbrk_failed -> 2049 < n ->
  exists st',
    allocate n st = Ret (mkAllocation a maxSize, st') /\
    stuck_on a st' /\ brk st' = brk st.
Proof.
  intros [Hh Hn] N0 N1 P.
  change (maxLevels - 1)%nat with 7%nat in Hh.
  unfold allocate. rewrite (lookup_level_large n P).
  change (maxLevels - 7)%nat with 1%nat. cbn [find_block].
  unfold empty, extract. cbn [next]. rewrite Hh, Hn.
  destruct (Z.eqb_spec a 0) as [? | _]; [contradiction |]. cbn [negb].
  destruct (Z.eqb_spec a 0) as [? | _]; [contradiction |].
  destruct (Z.eqb_spec a sbrk_failed) as [? | _]; [contradiction |].
  change (levelSize_at 7) with (Some maxSize).
  cbn [split Nat.ltb Nat.leb].
  eexists. split; [reflexivity |].
  split; [| reflexivity].
  split; simpl; [reflexivity | exact Hn].
Qed.

(** X12.  A double release is not detected.  When a top-level block is released
    twice (through a second handle for the same block), the top list is
    left in a loop on that block, and the next two top-level requests, and
    all later ones, are given that same block, without any heap growth. *)
Theorem double_release_hands_block_out_twice : forall fuel h st h1 st1 h2 st2 n,
  memory h <> 0 -> memory h <> sbrk_failed -> size h = maxSize ->
  deallocate fuel h st = Ret (h1, st1) ->
  deallocate fuel h st1 = Ret (h2, st2) ->
  2049 < n ->
  stuck_on (memory h) st2 /\
  exists st3 st4,
    allocate n st2 = Ret (mkAllocation (memory h) maxSize, st3) /\
    allocate n st3 = Ret (mkAllocation (memory h) maxSize, st4) /\
    stuck_on (memory h) st4 /\ brk st4 = brk st2.
Proof.
  intros fuel h st h1 st1 h2 st2 n N0 N1 Z D1 D2 P.
  apply deallocate_top in D1; auto. apply deallocate_top in D2; auto.
  assert (S2 : stuck_on (memory h) st2).
  { subst st2 st1. unfold stuck_on, emplace. simpl.
    rewrite !Z.eqb_refl. auto. }
  split; [exact S2 |].
  destruct (stuck_on_allocate st2 _ n S2 N0 N1 P) as [st3 [A3 [S3 B3]]].
  destruct (stuck_on_allocate st3 _ n S3 N0 N1 P) as [st4 [A4 [S4 B4]]].
  exists st3, st4. repeat split; auto; try apply S4. congruence.
Qed.

Lemma double_release_hands_block_out_twice_witness :
  memory (fst top1) <> 0 /\ memory (fst top1) <> sbrk_failed /\
  size (fst top1) = maxSize /\ 2049 < 4096 /\
  exists st1 st2,
    deallocate 1 (fst top1) (snd top1) = Ret (null_allocation, st1) /\
    deallocate 1 (fst top1) st1 = Ret (null_allocation, st2) /\
    stuck_on (memory (fst top1)) st2 /\
    exists st3 st4,
      allocate 4096 st2 = Ret (mkAllocation (memory (fst top1)) maxSize, st3) /\
      allocate 4096 st3 = Ret (mkAllocation (memory (fst top1)) maxSize, st4) /\
      stuck_on (memory (fst top1)) st4 /\ brk st4 = brk st2.
Proof.
  assert (N0 : memory (fst top1) <> 0) by discriminate.
  assert (N1 : memory (fst top1) <> sbrk_failed) by discriminate.
  assert (Z : size (fst top1) = maxSize) by reflexivity.
  assert (P : 2049 < 4096) by lia.
  split; [exact N0 |]. split; [exact N1 |]. split; [exact Z |]. split; [exact P |].
  eexists. eexists.
  split; [vm_compute; reflexivity |]. split; [vm_compute; reflexivity |].
  eapply (double_release_hands_block_out_twice 1 (fst top1) (snd top1));
    [exact N0 | exact N1 | exact Z | vm_compute; reflexivity
     | vm_compute; reflexivity | exact P].
Defined.

(** ** No byte is lost *)

Lemma sum_point_update (f g : nat -> Z) l d : forall n a,
  (forall k, g k = f k + (if Nat.eqb k l then d else 0)) ->
  fold_right Z.add 0 (map g (seq a n)) =
  fold_right Z.add 0 (map f (seq a n)) +
  (if ((a <=? l) && (l <? a + n))%nat then d else 0).
Proof.
  induction n as [| n IH]; intros a H; simpl.
  - destruct (Nat.leb_spec a l), (Nat.ltb_spec l (a + 0)); simpl; lia.
  - rewrite (IH (S a) H), H.
    destruct (Nat.eqb_spec a l), (Nat.leb_spec a l), (Nat.leb_spec (S a) l),
      (Nat.ltb_spec l (S a + n)), (Nat.ltb_spec l (a + S n)); simpl; lia.
Qed.

Lemma sum_ext (f g : nat -> Z) : forall n a,
  (forall k, (a <= k < a + n)%nat -> g k = f k) ->
  fold_right Z.add 0 (map g (seq a n)) = fold_right Z.add 0 (map f (seq a n)).
Proof.
  induction n as [| n IH]; intros a H; simpl; [reflexivity |].
  rewrite (IH (S a)), H; [reflexivity | lia |]. intros k K. apply H. lia.
Qed.

Lemma free_bytes_ext s s' :
  (forall l, (l < Spec.levelCount)%nat -> Spec.lists s l = Spec.lists s' l) ->
  free_bytes s = free_bytes s'.
Proof.
  intros H. unfold free_bytes. apply sum_ext. intros k K.
  unfold level_bytes. rewrite H; [reflexivity | lia].
Qed.

Lemma free_bytes_with_list l xs s :
  (l < Spec.levelCount)%nat ->
  free_bytes (Spec.with_list l xs s) =
  free_bytes s +
  (Z.of_nat (length xs) - Z.of_nat (length (Spec.lists s l))) * Spec.levelSizeOf l.
Proof.
  intros L. unfold free_bytes.
  rewrite (sum_point_update (level_bytes s) (level_bytes (Spec.with_list l xs s)) l
             ((Z.of_nat (length xs) - Z.of_nat (length (Spec.lists s l))) *
              Spec.levelSizeOf l)).
  - destruct (Nat.leb_spec 0 l), (Nat.ltb_spec l (0 + Spec.levelCount)); simpl; lia.
  - intros k. unfold level_bytes. rewrite lists_with_list.
    destruct (Nat.eqb_spec k l) as [-> | N]; lia.
Qed.

Lemma free_bytes_insert l a s :
  (l < Spec.levelCount)%nat ->
  free_bytes (Spec.insert l a s) = free_bytes s + Spec.levelSizeOf l.
Proof.
  intros L. unfold Spec.insert. rewrite free_bytes_with_list by exact L.
  cbn [length]. lia.
Qed.

Lemma remove_first_length_In b xs :
  In b xs -> S (length (Spec.remove_first b xs)) = length xs.
Proof.
  induction xs as [| x r IH]; simpl; [tauto |].
  destruct (Z.eqb_spec x b) as [-> | N]; [reflexivity |].
  intros [E | I]; [contradiction |]. simpl. rewrite IH; auto.
Qed.

Lemma free_bytes_remove l b s :
  (l < Spec.levelCount)%nat -> In b (Spec.lists s l) ->
  free_bytes (Spec.with_list l (Spec.remove_first b (Spec.lists s l)) s) =
  free_bytes s - Spec.levelSizeOf l.
Proof.
  intros L I. rewrite free_bytes_with_list by exact L.
  pose proof (remove_first_length_In b _ I). lia.
Qed.

Lemma free_bytes_splitDown c : forall t m s,
  (t <= c < Spec.levelCount)%nat ->
  free_bytes (Spec.splitDown c t m s) =
  free_bytes s + Spec.levelSizeOf c - Spec.levelSizeOf t.
Proof.
  induction c as [| c IH]; intros t m s B; cbn [Spec.splitDown].
  - assert (t = 0%nat) by lia. subst t. lia.
  - destruct (Nat.ltb_spec t (S c)) as [L | G].
    + rewrite IH by lia. rewrite free_bytes_insert by lia.
      rewrite (levelSizeOf_S c). lia.
    + assert (t = S c) by lia. subst t. lia.
Qed.

Lemma free_bytes_allocateAt t s a z s' :
  (t < Spec.levelCount)%nat ->
  Spec.allocateAt t s = Some (a, z, s') ->
  free_bytes s' + z = free_bytes s + (Spec.break s' - Spec.break s).
Proof.
  intros T A. unfold Spec.allocateAt in A.
  destruct (Spec.scan (Spec.levelCount - t) t s) as [[[l m] s0] |] eqn:SC.
  - destruct (scan_some _ _ _ _ _ _ SC) as [B [_ [r [E ->]]]].
    assert (A2 : z = Spec.levelSizeOf t) by congruence.
    assert (A3 : s' = Spec.splitDown l t m (Spec.with_list l r s)) by congruence.
    subst z s'. rewrite (proj1 (splitDown_break _ _ _ _)).
    rewrite free_bytes_splitDown by lia.
    rewrite free_bytes_with_list by lia. rewrite E. cbn [length].
    change (Spec.break (Spec.with_list l r s)) with (Spec.break s).
    rewrite Nat2Z.inj_succ. lia.
  - unfold Spec.growByMaxBlock in A.
    destruct (Spec.break s + Spec.maxSize <=? Spec.limit s); [| discriminate].
    assert (A2 : z = Spec.levelSizeOf t) by congruence.
    assert (A3 : s' = Spec.splitDown (Spec.levelCount - 1) t (Spec.break s)
                 (Spec.mkStore (Spec.lists s) (Spec.break s + Spec.maxSize)
                               (Spec.limit s))) by congruence.
    subst z s'. rewrite (proj1 (splitDown_break _ _ _ _)).
    rewrite free_bytes_splitDown by lv. cbn [Spec.break].
    rewrite (free_bytes_ext _ s) by reflexivity.
    change (Spec.levelSizeOf (Spec.levelCount - 1)) with Spec.maxSize. lia.
Qed.

Lemma free_bytes_coalesce ns : forall a lv s a' l' s',
  (lv < Spec.levelCount)%nat ->
  Spec.coalesce ns a (Spec.levelSizeOf lv) lv s = (a', l', s') ->
  (l' < Spec.levelCount)%nat /\
  free_bytes s' + Spec.levelSizeOf l' = free_bytes s + Spec.levelSizeOf lv.
Proof.
  induction ns as [| ns IH]; intros a lv s a' l' s' L H.
  - simpl in H. injection H as <- <- <-. auto.
  - rewrite coalesce_S in H.
    destruct (Z.eqb_spec (Spec.levelSizeOf lv) Spec.maxSize) as [E | NE];
      [injection H as <- <- <-; auto |].
    assert (L7 : (S lv < Spec.levelCount)%nat).
    { destruct (Nat.eq_dec lv 7) as [-> | X]; [exfalso; apply NE; reflexivity | lv]. }
    unfold Spec.removeIfPresent in H.
    destruct (existsb _ _) eqn:EX; [| injection H as <- <- <-; auto].
    apply existsb_eqb_In in EX.
    rewrite <- levelSizeOf_S in H. apply IH in H; [| exact L7].
    destruct H as [H1 H2]. split; [exact H1 |].
    rewrite free_bytes_remove in H2 by auto.
    rewrite levelSizeOf_S in H2. lia.
Qed.

Lemma free_bytes_deallocate a l s s' :
  a <> 0 -> (l < Spec.levelCount)%nat ->
  Spec.deallocate a (Spec.levelSizeOf l) s = (0, 0, s') ->
  free_bytes s' = free_bytes s + Spec.levelSizeOf l.
Proof.
  intros N L D. rewrite spec_deallocate_unfold in D by auto.
  destruct (Spec.coalesce Spec.levelCount a (Spec.levelSizeOf l) l s)
    as [[a' l'] s1] eqn:CO.
  assert (E : s' = Spec.insert l' a' s1) by congruence. subst s'.
  destruct (free_bytes_coalesce _ _ _ _ _ _ _ L CO) as [L' F].
  rewrite free_bytes_insert by exact L'. lia.
Qed.

Lemma free_total_unique st f1 f2 :
  free_total st f1 -> free_total st f2 -> f1 = f2.
Proof.
  intros [s1 [R1 ->]] [s2 [R2 ->]]. apply free_bytes_ext. intros l L.
  symmetry. apply (represents_lists_unique st s1 l); [exact R1 | lv |].
  apply (proj1 R2). lv.
Qed.

(** X13.  What [allocate] takes from the free lists is exactly the size it
    grants, once the bytes of a heap growth are counted in: the free lists
    are well-formed before and after, and their total changes by the
    growth of the break minus the granted size. *)
Theorem allocate_takes_granted_bytes : forall st outs n h st',
  reachable st outs -> 0 <= n ->
  allocate n st = Ret (h, st') ->
  exists f,
    free_total st f /\
    free_total st' (f + (brk st' - brk st) - size h).
Proof.
  intros st outs n h st' H P A.
  destruct (reachable_inv st outs H) as [s [R I]].
  destruct (allocate_inv st s outs n h st' R I P A)
    as [t [s' [_ [T [SA [_ [R' _]]]]]]].
  exists (free_bytes s). split; [exists s; auto |].
  exists s'. split; [exact R' |].
  pose proof (free_bytes_allocateAt t s _ _ s' ltac:(lv) SA) as E.
  destruct R as [_ [-> _]], R' as [_ [-> _]]. lia.
Qed.

Lemma allocate_takes_granted_bytes_witness :
  reachable demo0 [] /\ 0 <= 40 /\
  allocate 40 demo0 = Ret (fst demo1, snd demo1) /\
  exists f,
    free_total demo0 f /\
    free_total (snd demo1) (f + (brk (snd demo1) - brk demo0) - size (fst demo1)).
Proof.
  split; [exact demo0_reachable |]. split; [lia |].
  split; [exact demo1_allocated |].
  exact (allocate_takes_granted_bytes demo0 [] 40 _ _ demo0_reachable
           ltac:(lia) demo1_allocated).
Defined.

(** X14.  What [deallocate] gives to the free lists is exactly the size of the
    block released, merged or not. *)
Theorem release_returns_bytes : forall st outs h st',
  reachable st outs -> In h outs -> releases h st st' ->
  exists f, free_total st f /\ free_total st' (f + size h).
Proof.
  intros st outs h st' H Ih Rl.
  destruct (reachable_inv st outs H) as [s [R I]].
  destruct (deallocate_total st s outs h R I Ih) as [s' [st'' [D [Rl' [R' _]]]]].
  rewrite (releases_deterministic _ _ _ _ Rl Rl').
  destruct (si_sound _ _ I (memory h) (size h)) as [Pm [_ [l [L E]]]].
  { right. unfold held. destruct h. exact Ih. }
  exists (free_bytes s). split; [exists s; auto |].
  exists s'. split; [exact R' |].
  rewrite E in *. symmetry. apply (free_bytes_deallocate (memory h)); auto. lia.
Qed.

Lemma release_returns_bytes_witness :
  exists st',
    reachable (snd demo1) [fst demo1] /\ In (fst demo1) [fst demo1] /\
    releases (fst demo1) (snd demo1) st' /\
    exists f, free_total (snd demo1) f /\ free_total st' (f + size (fst demo1)).
Proof.
  eexists.
  assert (Rl : releases (fst demo1) (snd demo1)
                 (run_deallocate 20 (fst demo1) (snd demo1))).
  { apply (releases_run 20). vm_compute. reflexivity. }
  split; [exact demo1_reachable |]. split; [left; reflexivity |].
  split; [exact Rl |].
  exact (release_returns_bytes _ _ (fst demo1) _ demo1_reachable
           (or_introl eq_refl) Rl).
Defined.

(** ** The [Allocation] objects *)

Lemma to_bool_true h : to_bool h = true <-> memory h <> 0.
Proof.
  unfold to_bool. destruct (Z.eqb_spec (memory h) 0); simpl; split; intros;
    congruence.
Qed.

Lemma held_to_bool st outs h :
  reachable st outs -> In h outs -> to_bool h = true.
Proof.
  intros H Ih. destruct (reachable_inv st outs H) as [s [_ I]].
  destruct (si_sound _ _ I (memory h) (size h)) as [Pm _].
  { right. unfold held. destruct h. exact Ih. }
  apply to_bool_true. lia.
Qed.

Lemma set_handle_same i h hs : set_handle i h hs i = h.
Proof. unfold set_handle. rewrite Nat.eqb_refl. reflexivity. Qed.

Lemma set_handle_other i h hs k : k <> i -> set_handle i h hs k = hs k.
Proof.
  intros N. unfold set_handle. destruct (Nat.eqb_spec k i); congruence.
Qed.

Lemma free_at_released st outs hs i :
  reachable st outs -> tracked hs outs ->
  exists hs' st',
    (exists fuel0, forall fuel, (fuel0 <= fuel)%nat ->
       free_at fuel i hs st = Ret (hs', st')) /\
    reachable st' (remove Allocation_eq_dec (hs i) outs) /\
    tracked hs' (remove Allocation_eq_dec (hs i) outs) /\
    to_bool (hs' i) = false /\
    (forall k, k <> i -> hs' k = hs k).
Proof.
  intros H [T1 T2].
  destruct (to_bool (hs i)) eqn:B.
  - pose proof (T1 i B) as Ih.
    destruct (reachable_inv st outs H) as [s [R I]].
    destruct (deallocate_total st s outs (hs i) R I Ih)
      as [s' [st' [_ [[fuel0 Rl] _]]]].
    exists (set_handle i null_allocation hs), st'.
    split; [| split; [| split; [| split]]].
    + exists fuel0. intros fuel F. unfold free_at, free.
      rewrite (Rl fuel F). reflexivity.
    + apply (reach_deallocate st outs fuel0 (hs i) null_allocation st' H Ih).
      apply Rl. lia.
    + split.
      * intros k Bk. destruct (Nat.eq_dec k i) as [-> | N].
        { rewrite set_handle_same in Bk. discriminate. }
        rewrite set_handle_other in * by exact N.
        apply in_in_remove; [| apply T1; exact Bk].
        apply T2; auto.
      * intros k k' N Bk. destruct (Nat.eq_dec k i) as [-> | Nk].
        { rewrite set_handle_same in Bk. discriminate. }
        rewrite (set_handle_other i _ hs k) in * by exact Nk.
        destruct (Nat.eq_dec k' i) as [-> | Nk'].
        { rewrite set_handle_same. intros E. rewrite E in Bk. discriminate. }
        rewrite set_handle_other by exact Nk'. apply T2; auto.
    + rewrite set_handle_same. reflexivity.
    + intros k N. apply set_handle_other. exact N.
  - assert (M : memory (hs i) = 0).
    { unfold to_bool in B. destruct (Z.eqb_spec (memory (hs i)) 0); auto.
      discriminate. }
    assert (NI : ~ In (hs i) outs).
    { intros Ih. rewrite (held_to_bool st outs _ H Ih) in B. discriminate. }
    rewrite (notin_remove Allocation_eq_dec _ _ NI).
    exists (set_handle i (hs i) hs), st.
    assert (E : forall k, set_handle i (hs i) hs k = hs k).
    { intros k. unfold set_handle. destruct (Nat.eqb_spec k i); congruence. }
    split; [| split; [| split; [| split]]].
    + exists 0%nat. intros fuel _. unfold free_at, free, deallocate.
      rewrite M. reflexivity.
    + exact H.
    + split.
      * intros k. rewrite E. apply T1.
      * intros k k'. rewrite !E. apply T2.
    + rewrite E. exact B.
    + intros k _. apply E.
Qed.

Lemma move_assign_handles fuel i j hs st hs1 st1 :
  free_at fuel i hs st = Ret (hs1, st1) ->
  exists hs',
    move_assign fuel i j hs st = Ret (hs', st1) /\
    forall k, hs' k =
              if Nat.eqb k i then hs1 j
              else if Nat.eqb k j then null_allocation else hs1 k.
Proof.
  intros F. unfold move_assign. rewrite F. eexists. split; [reflexivity |].
  intros k. unfold set_size, set_memory, set_handle.
  rewrite !Nat.eqb_refl. cbn [memory size].
  destruct (Nat.eqb_spec k i) as [-> | Nk].
  - destruct (Nat.eqb_spec j i) as [-> | Nj].
    + rewrite ?Nat.eqb_refl. cbn [memory size]. destruct (hs1 i); reflexivity.
    + destruct (Nat.eqb_spec i j); [congruence |]. cbn [memory size].
      destruct (hs1 j); reflexivity.
  - destruct (Nat.eqb_spec k j) as [-> | Nkj]; [| reflexivity].
    destruct (Nat.eqb_spec j i); [congruence |]. reflexivity.
Qed.

(** X15.  [Allocation::free] and the destructor give the block of the object
    back, and the objects stay the owners of the blocks handed out: with
    fuel enough the call returns, the block of object [i] is no longer
    handed out, object [i] is empty, and the other objects are as before.
    An empty object changes nothing. *)
Theorem destroy_releases : forall st outs hs i,
  reachable st outs -> tracked hs outs ->
  exists hs' st',
    (exists fuel0, forall fuel, (fuel0 <= fuel)%nat ->
       destroy fuel i hs st = Ret (hs', st')) /\
    reachable st' (remove Allocation_eq_dec (hs i) outs) /\
    tracked hs' (remove Allocation_eq_dec (hs i) outs) /\
    to_bool (hs' i) = false /\
    (forall k, k <> i -> hs' k = hs k) /\
    (to_bool (hs i) = false -> st' = st).
Proof.
  intros st outs hs i H T.
  destruct (free_at_released st outs hs i H T)
    as [hs' [st' [[fuel0 F] [R' [T' [B' O]]]]]].
  exists hs', st'. split; [exists fuel0; exact F |].
  split; [exact R' |]. split; [exact T' |]. split; [exact B' |].
  split; [exact O |].
  intros B. specialize (F fuel0 (le_n _)).
  unfold free_at, free, deallocate in F. unfold to_bool in B.
  destruct (memory (hs i) =? 0); [congruence | discriminate].
Qed.

Lemma two_handles_tracked : tracked (two_handles (fst demo2) (fst demo1))
                                    [fst demo2; fst demo1].
Proof.
  split.
  - intros [| [| k]] B; [left; reflexivity | right; left; reflexivity |].
    discriminate.
  - intros [| [| k]] [| [| k']] N B; try congruence; try discriminate.
Qed.

Lemma destroy_releases_witness :
  reachable (snd demo2) [fst demo2; fst demo1] /\
  tracked (two_handles (fst demo2) (fst demo1)) [fst demo2; fst demo1] /\
  exists hs' st',
    (exists fuel0, forall fuel, (fuel0 <= fuel)%nat ->
       destroy fuel 1 (two_handles (fst demo2) (fst demo1)) (snd demo2)
       = Ret (hs', st')) /\
    reachable st' (remove Allocation_eq_dec
                     (two_handles (fst demo2) (fst demo1) 1%nat)
                     [fst demo2; fst demo1]) /\
    tracked hs' (remove Allocation_eq_dec
                   (two_handles (fst demo2) (fst demo1) 1%nat)
                   [fst demo2; fst demo1]) /\
    to_bool (hs' 1%nat) = false /\
    (forall k, k <> 1%nat -> hs' k = two_handles (fst demo2) (fst demo1) k) /\
    (to_bool (two_handles (fst demo2) (fst demo1) 1%nat) = false ->
     st' = snd demo2).
Proof.
  split; [exact demo2_reachable |]. split; [exact two_handles_tracked |].
  exact (destroy_releases _ _ _ 1%nat demo2_reachable two_handles_tracked).
Defined.

(** X16.  Move assignment [x = std::move(y)] releases the block of [x] and moves
    the block of [y] over: with fuel enough the call returns, the old block
    of [x] is no longer handed out, [y] is empty, [x] holds what [y] held,
    the other objects are as before, and no block has two owners.  Assigning
    an object to itself releases its block and leaves it empty. *)
Theorem move_assign_moves : forall st outs hs i j,
  reachable st outs -> tracked hs outs ->
  exists hs' st',
    (exists fuel0, forall fuel, (fuel0 <= fuel)%nat ->
       move_assign fuel i j hs st = Ret (hs', st')) /\
    reachable st' (remove Allocation_eq_dec (hs i) outs) /\
    tracked hs' (remove Allocation_eq_dec (hs i) outs) /\
    to_bool (hs' j) = false /\
    (i <> j -> hs' i = hs j /\ hs' j = null_allocation) /\
    (forall k, k <> i -> k <> j -> hs' k = hs k).
Proof.
  intros st outs hs i j H T.
  destruct (free_at_released st outs hs i H T)
    as [hs1 [st' [[fuel0 F] [R' [[T1 T2] [B' O]]]]]].
  destruct (move_assign_handles fuel0 i j hs st hs1 st' (F fuel0 (le_n _)))
    as [hs' [M E]].
  exists hs', st'.
  assert (Ei : hs' i = hs1 j) by (rewrite E, Nat.eqb_refl; reflexivity).
  assert (Ej : i <> j -> hs' j = null_allocation).
  { intros N. rewrite E, Nat.eqb_refl.
    destruct (Nat.eqb_spec j i); [congruence | reflexivity]. }
  assert (Ek : forall k, k <> i -> k <> j -> hs' k = hs1 k).
  { intros k N1 N2. rewrite E.
    destruct (Nat.eqb_spec k i); [congruence |].
    destruct (Nat.eqb_spec k j); [congruence | reflexivity]. }
  assert (Bj : to_bool (hs' j) = false).
  { destruct (Nat.eq_dec i j) as [<- | N]; [rewrite Ei; exact B' |].
    rewrite Ej by exact N. reflexivity. }
  split; [| split; [| split; [| split; [| split]]]].
  - exists fuel0. intros fuel G.
    destruct (move_assign_handles fuel i j hs st hs1 st' (F fuel G))
      as [hs2 [M2 E2]].
    unfold move_assign in *. rewrite (F fuel G) in M2 |- *.
    rewrite (F fuel0 (le_n _)) in M. exact M.
  - exact R'.
  - split.
    + intros k Bk. destruct (Nat.eq_dec k i) as [-> | N1].
      { rewrite Ei in *. apply T1. exact Bk. }
      destruct (Nat.eq_dec k j) as [-> | N2]; [congruence |].
      rewrite Ek in * by auto. apply T1. exact Bk.
    + intros k k' N Bk X.
      assert (Sk : exists a, hs' k = hs1 a /\ (a = j /\ k = i \/ a = k /\ k <> i /\ k <> j)).
      { destruct (Nat.eq_dec k i) as [-> | N1]; [exists j; auto |].
        destruct (Nat.eq_dec k j) as [-> | N2]; [congruence |].
        exists k. split; [apply Ek; auto | auto]. }
      destruct Sk as [a [Ea Ca]]. rewrite Ea in Bk.
      destruct (Nat.eq_dec k' i) as [-> | N1'].
      * rewrite Ea, Ei in X.
        destruct Ca as [[-> ->] | [-> [C1 C2]]]; [congruence |].
        exact (T2 k j C2 Bk X).
      * destruct (Nat.eq_dec k' j) as [-> | N2'].
        { rewrite Ej in X by auto. rewrite Ea in X. rewrite X in Bk.
          discriminate. }
        rewrite Ea, (Ek k') in X by auto.
        destruct Ca as [[-> ->] | [-> [C1 C2]]].
        { apply (T2 j k'); auto. }
        { apply (T2 k k'); auto. }
  - exact Bj.
  - intros N. split; [| apply Ej; exact N].
    rewrite Ei. apply O. auto.
  - intros k N1 N2. rewrite Ek by auto. apply O. exact N1.
Qed.

Lemma move_assign_moves_witness :
  reachable (snd demo2) [fst demo2; fst demo1] /\
  tracked (two_handles (fst demo2) (fst demo1)) [fst demo2; fst demo1] /\
  exists hs' st',
    (exists fuel0, forall fuel, (fuel0 <= fuel)%nat ->
       move_assign fuel 0 1 (two_handles (fst demo2) (fst demo1)) (snd demo2)
       = Ret (hs', st')) /\
    reachable st' (remove Allocation_eq_dec
                     (two_handles (fst demo2) (fst demo1) 0%nat)
                     [fst demo2; fst demo1]) /\
    tracked hs' (remove Allocation_eq_dec
                   (two_handles (fst demo2) (fst demo1) 0%nat)
                   [fst demo2; fst demo1]) /\
    to_bool (hs' 1%nat) = false /\
    (0%nat <> 1%nat ->
     hs' 0%nat = two_handles (fst demo2) (fst demo1) 1%nat /\
     hs' 1%nat = null_allocation) /\
    (forall k, k <> 0%nat -> k <> 1%nat ->
               hs' k = two_handles (fst demo2) (fst demo1) k).
Proof.
  split; [exact demo2_reachable |]. split; [exact two_handles_tracked |].
  exact (move_assign_moves _ _ _ 0%nat 1%nat demo2_reachable two_handles_tracked).
Defined.

(** ** The blocks in circulation fill the heap *)

Lemma tiled_step s s' F F' b0 :
  tiled s F b0 -> Spec.break s' = Spec.break s ->
  (forall a z, block s' F' a z -> b0 <= a) ->
  (forall p, covers s F p -> covers s' F' p) ->
  tiled s' F' b0.
Proof.
  intros [T1 T2 T3 T4] E A C. split.
  - rewrite E. exact T1.
  - rewrite E. exact T2.
  - exact A.
  - intros p P. apply C. apply T4. rewrite <- E. exact P.
Qed.

Lemma tiled_ext s s' F F' b0 :
  (forall l, Spec.lists s l = Spec.lists s' l) ->
  Spec.break s = Spec.break s' ->
  (forall a z, F a z <-> F' a z) ->
  tiled s F b0 -> tiled s' F' b0.
Proof.
  intros EL EB EF T.
  assert (B : forall a z, block s F a z <-> block s' F' a z).
  { intros a z. unfold block, cell. split.
    - intros [[l [[L I] E]] | H]; [left; exists l; rewrite <- EL; auto |].
      right. apply EF. exact H.
    - intros [[l [[L I] E]] | H]; [left; exists l; rewrite EL; auto |].
      right. apply EF. exact H. }
  apply (tiled_step s s' F F' b0 T); [symmetry; exact EB | |].
  - intros a z H. apply (ti_above _ _ _ T a z). apply B. exact H.
  - intros p [a [z [H P]]]. exists a, z. split; [apply B; exact H | exact P].
Qed.

Lemma split_pieces m p : forall c t,
  (t <= c)%nat -> m <= p < m + Spec.levelSizeOf c ->
  p < m + Spec.levelSizeOf t \/
  exists k, (t <= k < c)%nat /\
            m + Spec.levelSizeOf k <= p < m + Spec.levelSizeOf k + Spec.levelSizeOf k.
Proof.
  induction c as [| c IH]; intros t B P.
  - assert (t = 0%nat) by lia. subst t. left. lia.
  - destruct (Nat.eq_dec t (S c)) as [-> | N]; [left; lia |].
    destruct (Z_lt_le_dec p (m + Spec.levelSizeOf c)) as [L | G].
    + destruct (IH t ltac:(lia) ltac:(lia)) as [H | [k [K H]]]; [left; exact H |].
      right. exists k. split; [lia | exact H].
    + right. exists c. split; [lia |]. rewrite levelSizeOf_S in P. lia.
Qed.

Lemma tiled_splitDown c t m s G b0 :
  (t <= c < Spec.levelCount)%nat ->
  tiled s (plus G m (Spec.levelSizeOf c)) b0 ->
  tiled (Spec.splitDown c t m s) (plus G m (Spec.levelSizeOf t)) b0.
Proof.
  intros B T.
  assert (Am : b0 <= m) by (apply (ti_above _ _ _ T m (Spec.levelSizeOf c)); right; right; auto).
  apply (tiled_step _ _ _ _ _ T).
  - apply splitDown_break.
  - intros x y [[k [[K Ix] E]] | [H | [-> ->]]].
    + rewrite splitDown_lists in Ix.
      destruct (Nat.leb_spec t k), (Nat.ltb_spec k c); simpl in Ix;
        try (apply (ti_above _ _ _ T x y); left; exists k; split; [split |]; auto; fail).
      destruct Ix as [<- | Ix];
        [| apply (ti_above _ _ _ T x y); left; exists k; split; [split |]; auto].
      pose proof (levelSizeOf_pos k). lia.
    + apply (ti_above _ _ _ T x y). right. left. exact H.
    + exact Am.
  - intros p [x [y [[[k [[K Ix] E]] | [H | [-> ->]]] P]]].
    + exists x, y. split; [| exact P]. left. exists k. split; [split |]; auto.
      rewrite splitDown_lists.
      destruct ((t <=? k) && (k <? c))%nat; [right |]; exact Ix.
    + exists x, y. split; [| exact P]. right. left. exact H.
    + destruct (split_pieces m p c t ltac:(lia) P) as [L | [k [K L]]].
      * exists m, (Spec.levelSizeOf t). split; [right; right; auto | lia].
      * exists (m + Spec.levelSizeOf k), (Spec.levelSizeOf k).
        split; [| exact L]. left. exists k. split; [split; [lia |] | reflexivity].
        rewrite splitDown_lists.
        destruct (Nat.leb_spec t k), (Nat.ltb_spec k c); try lia.
        left. reflexivity.
Qed.

Lemma allocateAt_tiled t s G a z s' b0 :
  (t < Spec.levelCount)%nat -> tiled s G b0 ->
  Spec.allocateAt t s = Some (a, z, s') ->
  tiled s' (plus G a z) b0.
Proof.
  unfold Spec.allocateAt. intros T A H.
  destruct (Spec.scan _ t s) as [[[l m] s0] |] eqn:SC.
  - destruct (scan_some _ _ _ _ _ _ SC) as [B [_ [r [E ->]]]].
    assert (A1 : a = m) by congruence.
    assert (A2 : z = Spec.levelSizeOf t) by congruence.
    assert (A3 : s' = Spec.splitDown l t m (Spec.with_list l r s)) by congruence.
    clear H. subst a z s'.
    apply tiled_splitDown; [lia |].
    apply (tiled_step _ _ _ _ _ A); [reflexivity | |].
    + intros x y [[k [[K Ix] Ey]] | [Hg | [-> ->]]].
      * rewrite lists_with_list in Ix. apply (ti_above _ _ _ A x y). left.
        exists k. split; [split |]; auto.
        destruct (Nat.eqb_spec k l) as [-> | N]; auto. rewrite E. now right.
      * apply (ti_above _ _ _ A x y). right. exact Hg.
      * apply (ti_above _ _ _ A m (Spec.levelSizeOf l)). left. exists l.
        split; [split |]; auto; [lia |]. rewrite E. now left.
    + intros p [x [y [[[k [[K Ix] Ey]] | Hg] P]]]; exists x, y; split; auto.
      * rewrite Ey in *. destruct (Nat.eq_dec k l) as [-> | N].
        { rewrite E in Ix. destruct Ix as [<- | Ix]; [right; right; auto |].
          left. exists l. split; [split |]; auto.
          rewrite lists_with_list, Nat.eqb_refl. exact Ix. }
        left. exists k. split; [split |]; auto.
        rewrite lists_with_list. destruct (Nat.eqb_spec k l); [contradiction |].
        exact Ix.
      * right. left. exact Hg.
  - unfold Spec.growByMaxBlock in H.
    destruct (Spec.break s + Spec.maxSize <=? Spec.limit s); [| discriminate].
    assert (A1 : a = Spec.break s) by congruence.
    assert (A2 : z = Spec.levelSizeOf t) by congruence.
    assert (A3 : s' = Spec.splitDown (Spec.levelCount - 1) t (Spec.break s)
                 (Spec.mkStore (Spec.lists s) (Spec.break s + Spec.maxSize)
                               (Spec.limit s))) by congruence.
    clear H. subst a z s'.
    apply tiled_splitDown; [lv |].
    destruct A as [T1 T2 T3 T4].
    pose proof spec_maxSize_value as MV.
    split; cbn [Spec.break].
    + lia.
    + replace (Spec.break s + Spec.maxSize - b0)
        with (Spec.break s - b0 + 1 * Spec.maxSize) by lia.
      rewrite Z.mod_add by lia. exact T2.
    + intros x y [[k C] | [Hg | [-> ->]]].
      * apply (T3 x y). left. exists k. exact C.
      * apply (T3 x y). right. exact Hg.
      * lia.
    + intros p P. destruct (Z_lt_le_dec p (Spec.break s)) as [L | Ge].
      * destruct (T4 p ltac:(lia)) as [x [y [[[k C] | Hg] Q]]]; exists x, y;
          (split; [| exact Q]).
        { left. exists k. exact C. }
        { right. left. exact Hg. }
      * exists (Spec.break s), (Spec.levelSizeOf (Spec.levelCount - 1)).
        split; [right; right; auto |].
        change (Spec.levelSizeOf (Spec.levelCount - 1)) with Spec.maxSize. lia.
Qed.

Lemma remove_first_keeps b x xs :
  x <> b -> In x xs -> In x (Spec.remove_first b xs).
Proof.
  intros N. induction xs as [| y r IH]; simpl; [tauto |].
  destruct (Z.eqb_spec y b) as [-> | Ny].
  - intros [E | I]; [congruence | exact I].
  - intros [E | I]; [left; exact E | right; apply IH; exact I].
Qed.

Lemma tiled_coalesce ns : forall a lv s G a' l' s' b0,
  0 <= a -> (lv < Spec.levelCount)%nat ->
  tiled s (plus G a (Spec.levelSizeOf lv)) b0 ->
  Spec.coalesce ns a (Spec.levelSizeOf lv) lv s = (a', l', s') ->
  tiled s' (plus G a' (Spec.levelSizeOf l')) b0.
Proof.
  induction ns as [| ns IH]; intros a lv s G a' l' s' b0 Pa LV T H.
  - simpl in H. injection H as <- <- <-. exact T.
  - rewrite coalesce_S in H.
    destruct (Z.eqb_spec (Spec.levelSizeOf lv) Spec.maxSize) as [EM | NM];
      [injection H as <- <- <-; exact T |].
    assert (L7 : (S lv < Spec.levelCount)%nat).
    { destruct (Nat.eq_dec lv 7) as [-> | X]; [exfalso; apply NM; reflexivity | lv]. }
    unfold Spec.removeIfPresent in H.
    destruct (existsb _ _) eqn:EX; [| injection H as <- <- <-; exact T].
    apply existsb_eqb_In in EX.
    rewrite <- levelSizeOf_S in H.
    refine (IH _ (S lv) _ G a' l' s' b0 _ L7 _ H).
    + apply Z.land_nonneg. auto.
    + pose proof (levelSizeOf_pos lv) as PS.
      assert (Aa : b0 <= a).
      { apply (ti_above _ _ _ T a (Spec.levelSizeOf lv)). right. right. auto. }
      assert (Ab : b0 <= Z.lxor a (Spec.levelSizeOf lv)).
      { apply (ti_above _ _ _ T _ (Spec.levelSizeOf lv)). left. exists lv.
        split; [split |]; auto. }
      pose proof (buddy_cases a lv Pa) as BC. cbv zeta in BC.
      pose proof (levelSizeOf_S lv) as E2.
      apply (tiled_step _ _ _ _ _ T); [reflexivity | |].
      * intros x y [[k C] | [Hg | [-> ->]]].
        { apply (ti_above _ _ _ T x y). left. exists k. split; [| tauto].
          eapply cell_with_list_remove. exact (proj1 C). }
        { apply (ti_above _ _ _ T x y). right. left. exact Hg. }
        { destruct BC as [[_ ->] | [Eb [-> _]]]; lia. }
      * intros p [x [y [[[k [[K Ix] Ey]] | [Hg | [-> ->]]] P]]].
        { destruct (Nat.eq_dec k lv) as [-> | Nk].
          - destruct (Z.eq_dec x (Z.lxor a (Spec.levelSizeOf lv))) as [-> | Nx].
            + exists (Z.land a (Z.lnot (Spec.levelSizeOf lv))), (Spec.levelSizeOf (S lv)).
              split; [right; right; auto |]. subst y.
              destruct BC as [[Eb ->] | [Eb [-> _]]]; rewrite Eb in P; lia.
            + exists x, y. split; [| exact P]. left. exists lv.
              split; [split |]; auto.
              rewrite lists_with_list, Nat.eqb_refl.
              apply remove_first_keeps; auto.
          - exists x, y. split; [| exact P]. left. exists k.
            split; [split |]; auto.
            rewrite lists_with_list. destruct (Nat.eqb_spec k lv); [contradiction |].
            exact Ix. }
        { exists x, y. split; [| exact P]. right. left. exact Hg. }
        { exists (Z.land a (Z.lnot (Spec.levelSizeOf lv))), (Spec.levelSizeOf (S lv)).
          split; [right; right; auto |].
          destruct BC as [[Eb ->] | [Eb [-> _]]]; lia. }
Qed.

Lemma tiled_insert s G l a b0 :
  (l < Spec.levelCount)%nat ->
  tiled s (plus G a (Spec.levelSizeOf l)) b0 -> tiled (Spec.insert l a s) G b0.
Proof.
  intros L T. apply (tiled_step _ _ _ _ _ T); [reflexivity | |].
  - intros x y [[k [[K Ix] E]] | H].
    + unfold Spec.insert in Ix. rewrite lists_with_list in Ix.
      destruct (Nat.eqb_spec k l) as [-> | N].
      * destruct Ix as [<- | Ix].
        { apply (ti_above _ _ _ T a (Spec.levelSizeOf l)). right. right. auto. }
        { apply (ti_above _ _ _ T x y). left. exists l. split; [split |]; auto. }
      * apply (ti_above _ _ _ T x y). left. exists k. split; [split |]; auto.
    + apply (ti_above _ _ _ T x y). right. left. exact H.
  - intros p [x [y [[[k [[K Ix] Ey]] | [Hg | [-> ->]]] P]]].
    + exists x, y. split; [| exact P]. left. exists k. split; [split |]; auto.
      unfold Spec.insert. rewrite lists_with_list.
      destruct (Nat.eqb_spec k l) as [-> | N]; [right |]; exact Ix.
    + exists x, y. split; [| exact P]. right. exact Hg.
    + exists a, (Spec.levelSizeOf l). split; [| exact P]. left. exists l.
      split; [split |]; auto.
      unfold Spec.insert. rewrite lists_with_list, Nat.eqb_refl. now left.
Qed.

Lemma deallocate_tiled s G a l s' b0 :
  (l < Spec.levelCount)%nat -> 0 < a ->
  tiled s (plus G a (Spec.levelSizeOf l)) b0 ->
  Spec.deallocate a (Spec.levelSizeOf l) s = (0, 0, s') ->
  tiled s' G b0.
Proof.
  intros L Pa T H. rewrite spec_deallocate_unfold in H by (auto; lia).
  destruct (Spec.coalesce Spec.levelCount a (Spec.levelSizeOf l) l s)
    as [[a' l'] s1] eqn:CO.
  assert (E : s' = Spec.insert l' a' s1) by congruence. subst s'.
  destruct (free_bytes_coalesce _ _ _ _ _ _ _ L CO) as [L' _].
  apply tiled_insert with (a := a'); [exact L' |].
  apply (tiled_coalesce _ a l s G a' l' s1 b0 ltac:(lia) L T CO).
Qed.

(** Every reachable state is a well-formed store whose blocks fill the
    heap from the first break on. *)
Lemma reachable_tiled st outs :
  reachable st outs ->
  exists s b0, represents st s /\ store_inv s (held outs) /\
               (Spec.break s mod Spec.maxSize = 0 -> aligned s (held outs)) /\
               tiled s (held outs) b0.
Proof.
  induction 1 as [st H | st outs sz h st' H IH P A | st outs fuel h h' st' H IH Ih D].
  - eexists. exists (brk st). split; [| split; [| split]]; try apply initial_inv; auto.
    + intros _ a z [[l [[_ []] _]] | []].
    + destruct H as [_ [H1 _]]. split; cbn [Spec.break].
      * lia.
      * rewrite Z.sub_diag. reflexivity.
      * intros a z [[l [[_ []] _]] | []].
      * intros p Hp. lia.
  - destruct IH as [s [b0 [R [I [AL TI]]]]].
    destruct (allocate_inv st s outs sz h st' R I ltac:(lia) A)
      as [t [s' [_ [T [SA [_ [R' [I' _]]]]]]]].
    exists s', b0. split; [| split; [| split]]; auto.
    + intros Bk.
      assert (Bk0 : Spec.break s mod Spec.maxSize = 0).
      { destruct (allocateAt_break _ _ _ _ _ SA) as [E | E]; rewrite E in Bk; auto.
        rewrite <- (Z.mul_1_l Spec.maxSize) in Bk at 1.
        rewrite Z.mod_add in Bk; auto. rewrite spec_maxSize_value. lia. }
      eapply aligned_ext; [reflexivity | | ].
      * intros a z. symmetry. apply held_cons_iff.
      * eapply allocateAt_aligned; eauto.
    + eapply tiled_ext; [reflexivity | reflexivity | |].
      * intros a z. symmetry. apply held_cons_iff.
      * eapply allocateAt_tiled; eauto.
  - destruct IH as [s [b0 [R [I [AL TI]]]]].
    destruct (deallocate_inv st s outs fuel h h' st' R I Ih D)
      as [s' [SD [_ [R' I']]]].
    exists s', b0. split; [| split; [| split]]; auto.
    + intros Bk. rewrite (deallocate_break _ _ _ _ SD) in Bk.
      destruct (si_sound _ _ I (memory h) (size h)) as [Pm [_ [l [L E]]]].
      { right. unfold held. destruct h. exact Ih. }
      rewrite E in SD.
      eapply deallocate_aligned; eauto.
      rewrite <- E.
      eapply aligned_ext; [reflexivity | | exact (AL Bk)].
      intros a z. apply held_remove_iff. exact Ih.
    + destruct (si_sound _ _ I (memory h) (size h)) as [Pm [_ [l [L E]]]].
      { right. unfold held. destruct h. exact Ih. }
      rewrite E in SD.
      eapply deallocate_tiled; eauto.
      rewrite <- E.
      eapply tiled_ext; [reflexivity | reflexivity | | exact TI].
      intros a z. apply held_remove_iff. exact Ih.
Qed.

(** ** A block stays split only while part of its buddy is in use *)

Lemma multiple_between z a b :
  0 < z -> a mod z = 0 -> b mod z = 0 -> a <= b < a + z -> a = b.
Proof.
  intros Pz A B H.
  apply Z.mod_divide in A; [| lia]. apply Z.mod_divide in B; [| lia].
  destruct A as [x ->], B as [y ->]. assert (x = y) by nia. subst. reflexivity.
Qed.

Lemma multiple_nest S a P z b :
  0 < S -> a mod S = 0 -> P mod S = 0 -> z mod S = 0 ->
  a <= b < a + z -> P <= b < P + S ->
  a <= P /\ P + S <= a + z.
Proof.
  intros PS A B C H1 H2.
  apply Z.mod_divide in A; [| lia]. apply Z.mod_divide in B; [| lia].
  apply Z.mod_divide in C; [| lia].
  destruct A as [x ->], B as [y ->], C as [w ->].
  assert (x <= y) by nia. assert (y + 1 <= x + w) by nia. nia.
Qed.

Lemma levelSizeOf_divides k l :
  (k <= l)%nat -> Spec.levelSizeOf l mod Spec.levelSizeOf k = 0.
Proof.
  intros K. apply (mod_levelSizeOf_le _ k l K). apply Z.mod_same.
  pose proof (levelSizeOf_pos l). lia.
Qed.

Lemma lxor_of_multiple b k :
  0 <= b -> b mod Spec.levelSizeOf (S k) = 0 ->
  Z.lxor b (Spec.levelSizeOf k) = b + Spec.levelSizeOf k.
Proof.
  intros Pb A. pose proof (levelSizeOf_pos k) as PS.
  assert (Ak : b mod Spec.levelSizeOf k = 0)
    by (apply (mod_levelSizeOf_le b k (S k)); auto).
  destruct (buddy_cases b k Pb) as [[E _] | [_ [E _]]]; [exact E |].
  pose proof (merged_aligned b k Pb Ak) as M. rewrite E in M.
  rewrite levelSizeOf_S in *.
  apply Z.mod_divide in A; [| lia]. apply Z.mod_divide in M; [| lia].
  destruct A as [x A], M as [y M]. exfalso.
  assert (Z : Spec.levelSizeOf k * (2 * (x - y) - 1) = 0) by lia.
  apply Z.mul_eq_0 in Z. lia.
Qed.

Lemma buddy_in_use s F b0 :
  store_inv s F -> aligned s F -> tiled s F b0 ->
  Spec.break s mod Spec.maxSize = 0 ->
  forall n l x, (l < n)%nat -> (S l < Spec.levelCount)%nat ->
    In x (Spec.lists s l) ->
    exists a z, F a z /\
      Z.lxor x (Spec.levelSizeOf l) <= a /\
      a + z <= Z.lxor x (Spec.levelSizeOf l) + Spec.levelSizeOf l.
Proof.
  intros I AL T Bk.
  assert (B0 : b0 mod Spec.maxSize = 0).
  { pose proof (ti_whole _ _ _ T) as W. pose proof spec_maxSize_value as MV.
    apply Z.mod_divide in W; [| lia]. apply Z.mod_divide in Bk; [| lia].
    apply Z.mod_divide; [lia |].
    destruct W as [w W], Bk as [k Bk]. exists (k - w). lia. }
  induction n as [| n IH]; intros l x Ln L7 Ix; [lia |].
  pose proof (levelSizeOf_pos l) as PS.
  pose proof (levelSizeOf_S l) as E2.
  assert (Cx : block s F x (Spec.levelSizeOf l)).
  { left. exists l. split; [split; [lia | exact Ix] | reflexivity]. }
  destruct (si_sound _ _ I _ _ Cx) as [Px [Ex _]].
  pose proof (ti_above _ _ _ T _ _ Cx) as Ax.
  pose proof (AL _ _ Cx) as Mx.
  pose proof (merged_aligned x l ltac:(lia) Mx) as MP.
  assert (M0 : b0 mod Spec.levelSizeOf (S l) = 0).
  { apply (mod_levelSizeOf_le b0 (S l) 7); [lv | exact B0]. }
  assert (M1 : Spec.break s mod Spec.levelSizeOf (S l) = 0).
  { apply (mod_levelSizeOf_le _ (S l) 7); [lv | exact Bk]. }
  set (b := Z.lxor x (Spec.levelSizeOf l)) in *.
  set (P := Z.land x (Z.lnot (Spec.levelSizeOf l))) in *.
  assert (BC : (b = P \/ b = P + Spec.levelSizeOf l) /\ P <= x < P + Spec.levelSizeOf (S l) /\
               b mod Spec.levelSizeOf l = 0).
  { unfold b, P.
    destruct (buddy_cases x l ltac:(lia)) as [[-> ->] | [-> [-> _]]].
    - split; [right; reflexivity |]. split; [lia |].
      rewrite <- (Z.mul_1_l (Spec.levelSizeOf l)) at 1.
      rewrite Z.mod_add by lia. exact Mx.
    - split; [left; reflexivity |]. split; [lia |].
      replace (x - Spec.levelSizeOf l) with (x + (-1) * Spec.levelSizeOf l) by lia.
      rewrite Z.mod_add by lia. exact Mx. }
  destruct BC as [Eb [Rx Mb]].
  assert (PSS : 0 < Spec.levelSizeOf (S l)) by apply levelSizeOf_pos.
  assert (LP : b0 <= P).
  { destruct (Z_le_gt_dec b0 P) as [Y | N]; [exact Y | exfalso].
    apply Z.mod_divide in M0; [| lia]. apply Z.mod_divide in MP; [| lia].
    destruct M0 as [u M0], MP as [v MP].
    assert (v < u)
      by (apply Z.mul_lt_mono_pos_r with (Spec.levelSizeOf (S l)); lia).
    assert ((v + 1) * Spec.levelSizeOf (S l) <= u * Spec.levelSizeOf (S l))
      by (apply Z.mul_le_mono_nonneg_r; lia).
    lia. }
  assert (UP : P + Spec.levelSizeOf (S l) <= Spec.break s).
  { destruct (Z_le_gt_dec (P + Spec.levelSizeOf (S l)) (Spec.break s)) as [Y | N];
      [exact Y | exfalso].
    apply Z.mod_divide in M1; [| lia]. apply Z.mod_divide in MP; [| lia].
    destruct M1 as [u M1], MP as [v MP].
    assert (v < u)
      by (apply Z.mul_lt_mono_pos_r with (Spec.levelSizeOf (S l)); lia).
    assert ((v + 1) * Spec.levelSizeOf (S l) <= u * Spec.levelSizeOf (S l))
      by (apply Z.mul_le_mono_nonneg_r; lia).
    lia. }
  destruct (ti_cover _ _ _ T b ltac:(lia)) as [a [z [Ba Ca]]].
  destruct (si_sound _ _ I _ _ Ba) as [Pa [Ea [k [K Ez]]]].
  pose proof (AL _ _ Ba) as Ma. subst z.
  pose proof (levelSizeOf_pos k) as PK.
  destruct (Nat.le_gt_cases k l) as [KL | KL].
  - assert (a = b).
    { apply (multiple_between (Spec.levelSizeOf k)); auto.
      apply (mod_levelSizeOf_le b k l); auto. }
    subst a.
    assert (SK : Spec.levelSizeOf k <= Spec.levelSizeOf l).
    { destruct (Nat.eq_dec k l) as [-> | N]; [lia |].
      pose proof (levelSizeOf_mono k l ltac:(lia)). lia. }
    destruct Ba as [[k' [[K' Ib] Ek]] | Hf].
    + apply levelSizeOf_inj in Ek. subst k'.
      destruct (Nat.eq_dec k l) as [-> | N].
      * exfalso. exact (si_nopair _ _ I l x L7 Ix Ib).
      * destruct (IH k b ltac:(lia) ltac:(lia) Ib) as [a' [z' [Hf [Lo Hi]]]].
        rewrite (lxor_of_multiple b k ltac:(lia)) in Lo, Hi.
        2,3: apply (mod_levelSizeOf_le b (S k) l); [lia | exact Mb].
        exists a', z'. split; [exact Hf |].
        assert (Spec.levelSizeOf (S k) <= Spec.levelSizeOf l).
        { destruct (Nat.eq_dec (S k) l) as [-> | N2]; [lia |].
          pose proof (levelSizeOf_mono (S k) l ltac:(lia)). lia. }
        rewrite levelSizeOf_S in *. lia.
    + exists b, (Spec.levelSizeOf k). split; [exact Hf | lia].
  - exfalso.
    destruct (multiple_nest (Spec.levelSizeOf (S l)) a P (Spec.levelSizeOf k) b)
      as [N1 N2]; auto.
    + apply (mod_levelSizeOf_le a (S l) k); [lia | exact Ma].
    + apply levelSizeOf_divides. lia.
    + lia.
    + assert (NE : a <> x \/ Spec.levelSizeOf k <> Spec.levelSizeOf l).
      { right. intros E. apply levelSizeOf_inj in E. lia. }
      destruct (si_apart _ _ I _ _ _ _ Ba Cx NE) as [X | X]; lia.
Qed.

(** X17.  With the break a multiple of the top size, a free block below the top
    level has a buddy that is in use: one of the blocks handed out lies
    inside its buddy.  (A free buddy would have been merged.) *)
Theorem free_block_buddy_in_use : forall st outs l xs x,
  reachable st outs -> brk st mod maxSize = 0 ->
  (S l < maxLevels)%nat -> free_list st l xs -> In x xs ->
  exists h, In h outs /\
    Z.lxor x (nth l levelSize 0) <= memory h /\
    memory h + size h <= Z.lxor x (nth l levelSize 0) + nth l levelSize 0.
Proof.
  intros st outs l xs x H Bk L FL Ix.
  destruct (reachable_tiled st outs H) as [s [b0 [R [I [AL T]]]]].
  rewrite (represents_lists_unique st s l xs R ltac:(lia) FL) in Ix.
  rewrite levelSize_nth by lia.
  assert (Bs : Spec.break s mod Spec.maxSize = 0).
  { destruct R as [_ [<- _]]. exact Bk. }
  destruct (buddy_in_use s _ b0 I (AL Bs) T Bs (S l) l x ltac:(lia) L Ix)
    as [a [z [Hf B]]].
  exists (mkAllocation a z). split; [exact Hf | exact B].
Qed.

Lemma free_block_buddy_in_use_witness :
  reachable (snd demo1) [fst demo1] /\ brk (snd demo1) mod maxSize = 0 /\
  (S 1 < maxLevels)%nat /\ free_list (snd demo1) 1 [8256] /\ In 8256 [8256] /\
  exists h, In h [fst demo1] /\
    Z.lxor 8256 (nth 1 levelSize 0) <= memory h /\
    memory h + size h <= Z.lxor 8256 (nth 1 levelSize 0) + nth 1 levelSize 0.
Proof.
  assert (F : free_list (snd demo1) 1 [8256])
    by (vm_compute; repeat split; discriminate).
  assert (B : brk (snd demo1) mod maxSize = 0) by (vm_compute; reflexivity).
  assert (L : (S 1 < maxLevels)%nat) by (unfold maxLevels; lia).
  split; [exact demo1_reachable |]. split; [exact B |]. split; [exact L |].
  split; [exact F |]. split; [left; reflexivity |].
  exact (free_block_buddy_in_use _ _ 1%nat [8256] 8256 demo1_reachable B L F
           (or_introl eq_refl)).
Defined.

(** X18.  With the break a multiple of the top size, once every block has been
    given back all free lists below the top level are empty: the heap has
    merged back into top-level blocks. *)
Theorem all_released_all_merged : forall st l,
  reachable st [] -> brk st mod maxSize = 0 ->
  (S l < maxLevels)%nat -> empty (Head l) st = true.
Proof.
  intros st l H Bk L.
  destruct (reachable_tiled st [] H) as [s [b0 [R [I [AL T]]]]].
  assert (Bs : Spec.break s mod Spec.maxSize = 0).
  { destruct R as [_ [<- _]]. exact Bk. }
  rewrite (represents_empty st s l R ltac:(lia)). unfold Spec.isEmpty.
  destruct (Spec.lists s l) as [| x r] eqn:E; [reflexivity | exfalso].
  destruct (buddy_in_use s _ b0 I (AL Bs) T Bs (S l) l x ltac:(lia) L)
    as [a [z [[] _]]].
  rewrite E. left. reflexivity.
Qed.

Lemma demo3_reachable : reachable demo3 [].
Proof.
  apply (reach_deallocate _ _ 20 (fst demo1) null_allocation demo3 demo1_reachable);
    [left; reflexivity | vm_compute; reflexivity].
Qed.

Lemma all_released_all_merged_witness :
  reachable demo3 [] /\ brk demo3 mod maxSize = 0 /\
  (S 1 < maxLevels)%nat /\ empty (Head 1) demo3 = true.
Proof.
  assert (B : brk demo3 mod maxSize = 0) by (vm_compute; reflexivity).
  assert (L : (S 1 < maxLevels)%nat) by (unfold maxLevels; lia).
  split; [exact demo3_reachable |]. split; [exact B |]. split; [exact L |].
  exact (all_released_all_merged demo3 1%nat demo3_reachable B L).
Defined.

(** ** The lists of the smaller levels are left alone *)

Lemma allocateAt_frame t s a z s' k :
  Spec.allocateAt t s = Some (a, z, s') -> (k < t)%nat ->
  Spec.lists s' k = Spec.lists s k.
Proof.
  unfold Spec.allocateAt. intros H K.
  destruct (Spec.scan _ t s) as [[[l m] s0] |] eqn:SC.
  - destruct (scan_some _ _ _ _ _ _ SC) as [B [_ [r [_ ->]]]].
    assert (E : s' = Spec.splitDown l t m (Spec.with_list l r s)) by congruence.
    rewrite E, splitDown_lists, lists_with_list.
    destruct (Nat.leb_spec t k); [lia |]. simpl.
    destruct (Nat.eqb_spec k l); [lia | reflexivity].
  - unfold Spec.growByMaxBlock in H.
    destruct (Spec.break s + Spec.maxSize <=? Spec.limit s); [| discriminate].
    assert (E : s' = Spec.splitDown (Spec.levelCount - 1) t (Spec.break s)
                 (Spec.mkStore (Spec.lists s) (Spec.break s + Spec.maxSize)
                               (Spec.limit s))) by congruence.
    rewrite E, splitDown_lists.
    destruct (Nat.leb_spec t k); [lia |]. reflexivity.
Qed.

(** X19.  [allocate] leaves the free lists of the levels below the requested one
    as they are, also in memory: the next pointers it writes are those of
    blocks it has taken itself. *)
Theorem allocate_keeps_smaller_levels : forall st outs n t h st' l xs,
  reachable st outs -> 0 <= n ->
  lookup_level n = Some t ->
  allocate n st = Ret (h, st') ->
  (l < t)%nat -> free_list st l xs ->
  free_list st' l xs.
Proof.
  intros st outs n t h st' l xs H P LK A L FL.
  destruct (reachable_inv st outs H) as [s [R I]].
  destruct (allocate_inv st s outs n h st' R I P A)
    as [t' [s' [LK' [T [SA [_ [R' _]]]]]]].
  assert (t' = t) by congruence. subst t'.
  rewrite (represents_lists_unique st s l xs R ltac:(lia) FL).
  rewrite <- (allocateAt_frame _ _ _ _ _ l SA L).
  apply (proj1 R'). lia.
Qed.

Lemma allocate_keeps_smaller_levels_witness :
  reachable (snd demo1) [fst demo1] /\ 0 <= 100 /\
  lookup_level 100 = Some 2%nat /\
  allocate 100 (snd demo1) = Ret (fst demo2, snd demo2) /\
  (1 < 2)%nat /\ free_list (snd demo1) 1 [8256] /\
  free_list (snd demo2) 1 [8256].
Proof.
  assert (P : 0 <= 100) by lia.
  assert (LK : lookup_level 100 = Some 2%nat) by (vm_compute; reflexivity).
  assert (A : allocate 100 (snd demo1) = Ret (fst demo2, snd demo2))
    by (vm_compute; reflexivity).
  assert (L : (1 < 2)%nat) by lia.
  assert (F : free_list (snd demo1) 1 [8256])
    by (vm_compute; repeat split; discriminate).
  split; [exact demo1_reachable |]. split; [exact P |]. split; [exact LK |].
  split; [exact A |]. split; [exact L |]. split; [exact F |].
  exact (allocate_keeps_smaller_levels _ _ 100 2%nat _ _ 1%nat [8256]
           demo1_reachable P LK A L F).
Defined.

(** X20.  [deallocate] leaves the free lists of the levels below that of the
    block released as they are: merging only moves upwards. *)
Theorem deallocate_keeps_smaller_levels : forall st outs fuel h h' st' t l xs,
  reachable st outs -> In h outs ->
  deallocate fuel h st = Ret (h', st') ->
  lookup_level (size h) = Some t ->
  (l < t)%nat -> free_list st l xs ->
  free_list st' l xs.
Proof.
  intros st outs fuel h h' st' t l xs H Ih D LK L FL.
  destruct (reachable_inv st outs H) as [s [R I]].
  destruct (deallocate_inv st s outs fuel h h' st' R I Ih D)
    as [s' [SD [_ [R' _]]]].
  destruct (si_sound _ _ I (memory h) (size h)) as [Pm [_ [k [K E]]]].
  { right. unfold held. destruct h. exact Ih. }
  rewrite E in SD, LK. rewrite lookup_level_levelSizeOf in LK by exact K.
  assert (k = t) by congruence. subst k.
  rewrite spec_deallocate_unfold in SD by (auto; lia).
  destruct (Spec.coalesce Spec.levelCount (memory h) (Spec.levelSizeOf t) t s)
    as [[a' l'] s1] eqn:CO.
  assert (E' : s' = Spec.insert l' a' s1) by congruence.
  destruct (coalesce_frame _ _ _ _ _ _ _ _ CO) as [Lt [Fr _]].
  rewrite (represents_lists_unique st s l xs R ltac:(lv) FL).
  rewrite <- (Fr l L).
  replace (Spec.lists s1 l) with (Spec.lists s' l).
  - apply (proj1 R'). lv.
  - rewrite E'. unfold Spec.insert. rewrite lists_with_list.
    destruct (Nat.eqb_spec l l'); [lia | reflexivity].
Qed.

Lemma deallocate_keeps_smaller_levels_witness :
  exists st',
  reachable (snd demo2) [fst demo2; fst demo1] /\
  In (fst demo2) [fst demo2; fst demo1] /\
  deallocate 20 (fst demo2) (snd demo2) = Ret (null_allocation, st') /\
  lookup_level (size (fst demo2)) = Some 2%nat /\
  (1 < 2)%nat /\ free_list (snd demo2) 1 [8256] /\
  free_list st' 1 [8256].
Proof.
  eexists.
  assert (D : deallocate 20 (fst demo2) (snd demo2) =
              Ret (null_allocation, run_deallocate 20 (fst demo2) (snd demo2)))
    by (vm_compute; reflexivity).
  assert (LK : lookup_level (size (fst demo2)) = Some 2%nat)
    by (vm_compute; reflexivity).
  assert (L : (1 < 2)%nat) by lia.
  assert (F : free_list (snd demo2) 1 [8256])
    by (vm_compute; repeat split; discriminate).
  split; [exact demo2_reachable |]. split; [left; reflexivity |].
  split; [exact D |]. split; [exact LK |]. split; [exact L |].
  split; [exact F |].
  exact (deallocate_keeps_smaller_levels _ _ 20%nat (fst demo2) _ _ 2%nat 1%nat
           [8256] demo2_reachable (or_introl eq_refl) D LK L F).
Defined.
